(** * tui.h: a shallow embedding of the terminal user interface library

    The development follows [src/tui.h].

    - A C [int] or [short] is an integer of [Z], a [size_t] index a
      [nat], and the conversions between them are written out
      ([Z.of_nat], [Z.to_nat]).  The indices and widths of the text
      functions stay between minus the length and the length of the text
      and the heights below [(length + 1)^2] ([tui_text_h_get_range]), so
      that for texts of fewer than 46340 characters no [int] of the C code
      overflows and the values of the model are those of the code.
    - A C string is the list of its characters before the terminating
      NUL, so [strlen] is [length].
    - A loop is a function on the record of its local variables that
      runs the body once, iterated with fuel; for every such loop a lemma
      shows that the fuel given is enough.
    - ncurses and the allocator are external: every call the code makes
      to them is recorded, in order, in a list of [event]s.
    - Windows, menus and the tui own what they point to, so a pointer to
      one of them is an optional value and the tree of windows an
      inductive type; the two pointers of the tui that own nothing are
      an index ([tui_menu]) and a copy ([tui_window]). *)

From Stdlib Require Import ZArith Lia Ascii String List.
From stdpp Require Import base numbers option list.
Import ListNotations.

#[local] Open Scope Z_scope.

(** ** Characters and C strings *)

Abbreviation text_t := (list ascii).

Definition SPACE : ascii := " "%char.
Definition NEWLINE : ascii := "010"%char.
Definition ESCAPE : ascii := "027"%char.
Definition LETTER_m : ascii := "m"%char.

(** [text[index]]; an index at [strlen] reads the terminating NUL. *)
Definition char_at (text : text_t) (index : nat) : ascii :=
  nth index text zero.

Definition is_char (c d : ascii) : bool := Ascii.eqb c d.

(** ** Color model *)

Module Color.

Record tui_color_t := mk_color { fg : Z; bg : Z }.

Definition COLOR_NONE : Z := -1.

Definition TUI_COLOR_NONE : tui_color_t := mk_color COLOR_NONE COLOR_NONE.

(** Conversion of an [int] to [short]: the value modulo 2^16, signed. *)
Definition short_of_int (n : Z) : Z := (n + 32768) mod 65536 - 32768.

(** [tui_ncurses_color_get]: the index of the color pair of a color. *)
Definition tui_ncurses_color_get (color : tui_color_t) : Z :=
  short_of_int ((fg color + 1) * 9 + (bg color + 1)).

(** [tui_color_inherit]: a channel that is NONE takes the last color's. *)
Definition tui_color_inherit (last_color color : tui_color_t) : tui_color_t :=
  let color :=
    if fg color =? COLOR_NONE then mk_color (fg last_color) (bg color) else color in
  let color :=
    if bg color =? COLOR_NONE then mk_color (fg color) (bg last_color) else color in
  color.

End Color.
Export Color.

(** ** Text reflow *)

Module Reflow.

(** *** [tui_text_h_get]: the height of wrapped text given the width *)

(** The local variables of the loop of [tui_text_h_get]. *)
Record h_state := mk_h_state {
  h_index : nat;
  h_h : Z;
  h_line_w : Z;
  h_space_index : Z;
  h_last_space_index : Z
}.

Inductive h_step := H_next (s : h_state) | H_return (r : Z).

(** One pass through the body of the [for] loop, followed by [index++].
    The call of [info_print] before [return -1] only writes to the debug
    log and is left out. *)
Definition h_body (text : text_t) (max_w : Z) (s : h_state) : h_step :=
  let index := h_index s in
  let letter := char_at text index in
  let space_index :=
    if is_char letter SPACE then Z.of_nat index else h_space_index s in
  if is_char letter NEWLINE then
    H_next (mk_h_state (S index) (h_h s + 1) 0 space_index (h_last_space_index s))
  else if h_line_w s >=? max_w then
    if space_index =? h_last_space_index s then H_return (-1)
    else H_next (mk_h_state (S (Z.to_nat space_index)) (h_h s + 1) 0
                            space_index space_index)
  else
    H_next (mk_h_state (S index) (h_h s) (h_line_w s + 1) space_index
                       (h_last_space_index s)).

(** The [for] loop; [None] when the fuel runs out before the loop ends. *)
Fixpoint h_loop (fuel : nat) (text : text_t) (max_w : Z) (s : h_state) : option Z :=
  if (h_index s <? length text)%nat then
    match fuel with
    | O => None
    | S fuel' =>
        match h_body text max_w s with
        | H_return r => Some r
        | H_next s' => h_loop fuel' text max_w s'
        end
    end
  else Some (h_h s).

Definition h_init : h_state := mk_h_state 0 1 0 0 0.

(** Every backtrack moves [last_space_index] forward, so the loop makes at
    most [(length + 1)^2] passes. *)
Definition h_fuel (text : text_t) : nat := (S (length text) * S (length text))%nat.

Definition tui_text_h_get_run (text : text_t) (max_w : Z) : option Z :=
  h_loop (h_fuel text) text max_w h_init.

(** [tui_text_h_get]: the height, or -1 when the text cannot be wrapped. *)
Definition tui_text_h_get (text : text_t) (max_w : Z) : Z :=
  default 0 (tui_text_h_get_run text max_w).

(** *** [tui_text_w_get]: the width of wrapped text given the height *)

Record w_state := mk_w_state { w_left : Z; w_right : Z; w_min_w : Z }.

Definition w_body (text : text_t) (h : Z) (s : w_state) : w_state :=
  let mid := (w_left s + w_right s) ÷ 2 in
  let curr_h := tui_text_h_get text mid in
  if curr_h =? -1 then mk_w_state (mid + 1) (w_right s) (w_min_w s)
  else if curr_h >? h then mk_w_state (mid + 1) (w_right s) (w_min_w s)
  else mk_w_state (w_left s) (mid - 1) mid.

Fixpoint w_loop (fuel : nat) (text : text_t) (h : Z) (s : w_state) : option Z :=
  if w_left s <=? w_right s then
    match fuel with
    | O => None
    | S fuel' => w_loop fuel' text h (w_body text h s)
    end
  else Some (w_min_w s).

Definition w_init (text : text_t) : w_state :=
  mk_w_state 1 (Z.of_nat (length text)) (Z.of_nat (length text)).

Definition tui_text_w_get_run (text : text_t) (h : Z) : option Z :=
  w_loop (S (length text)) text h (w_init text).

Definition tui_text_w_get (text : text_t) (h : Z) : Z :=
  default 0 (tui_text_w_get_run text h).

(** *** [tui_text_ws_get]: the widths of the lines, regarding max height *)

(** The table [ws] is an [int] array the caller provides; an entry that
    has not been written yet holds no value ([None]). *)
Abbreviation ws_table := (list (option Z)).

(** [ws[i] = v]; a store outside the array is undefined behaviour. *)
Definition ws_store (ws : ws_table) (i : Z) (v : Z) : option ws_table :=
  if (0 <=? i) && (i <? Z.of_nat (length ws))
  then Some (<[Z.to_nat i := Some v]> ws) else None.

(** [ws[i]]; outside the array, or of an entry never written, it is
    undefined. *)
Definition ws_load (ws : ws_table) (i : Z) : option Z :=
  if (0 <=? i) && (i <? Z.of_nat (length ws))
  then mjoin (ws !! Z.to_nat i) else None.

Record ws_state := mk_ws_state {
  ws_index : nat;
  ws_line_index : Z;
  ws_line_w : Z;
  ws_space_index : Z;
  ws_ws : ws_table
}.

(** One pass through the body of the [for] loop, followed by [index++];
    [None] when a store falls outside [ws]. *)
Definition ws_body (text : text_t) (max_w : Z) (s : ws_state) : option ws_state :=
  let index := ws_index s in
  let letter := char_at text index in
  let space_index :=
    if is_char letter SPACE then Z.of_nat index else ws_space_index s in
  s1 ← (if is_char letter SPACE && (ws_line_w s =? 0) then
          Some (mk_ws_state index (ws_line_index s) 0 space_index (ws_ws s))
        else if is_char letter NEWLINE then
          ws' ← ws_store (ws_ws s) (ws_line_index s) (ws_line_w s);
          Some (mk_ws_state index (ws_line_index s + 1) 0 space_index ws')
        else if ws_line_w s >=? max_w then
          ws' ← ws_store (ws_ws s) (ws_line_index s)
                  (ws_line_w s - (Z.of_nat index - space_index));
          Some (mk_ws_state (Z.to_nat space_index) (ws_line_index s + 1) 0
                            space_index ws')
        else
          Some (mk_ws_state index (ws_line_index s) (ws_line_w s + 1)
                            space_index (ws_ws s)));
  ws'' ← (if (ws_index s1 + 1 =? length text)%nat
          then ws_store (ws_ws s1) (ws_line_index s1) (ws_line_w s1)
          else Some (ws_ws s1));
  Some (mk_ws_state (S (ws_index s1)) (ws_line_index s1) (ws_line_w s1)
                    (ws_space_index s1) ws'').

(** The [for] loop, ending on the last values of the local variables:
    the outer [None] is fuel running out, the inner one undefined
    behaviour. *)
Fixpoint ws_loop (fuel : nat) (text : text_t) (max_w h : Z) (s : ws_state)
  : option (option ws_state) :=
  if (ws_index s <? length text)%nat && (ws_line_index s <? h) then
    match fuel with
    | O => None
    | S fuel' =>
        match ws_body text max_w s with
        | None => Some None
        | Some s' => ws_loop fuel' text max_w h s'
        end
    end
  else Some (Some s).

Definition ws_init (ws : ws_table) : ws_state := mk_ws_state 0 0 0 0 ws.

(** Every backtrack starts a new line and there are at most [h] lines. *)
Definition ws_fuel (text : text_t) (h : Z) : nat :=
  (S (Z.to_nat h) * S (length text))%nat.

Definition tui_text_ws_get_run (ws : ws_table) (text : text_t) (h : Z)
  : option (option ws_state) :=
  ws_loop (ws_fuel text h) text (tui_text_w_get text h) h (ws_init ws).

(** [tui_text_ws_get]: the table after the call, [None] when the call has
    undefined behaviour. *)
Definition tui_text_ws_get (ws : ws_table) (text : text_t) (h : Z)
  : option ws_table :=
  ws_ws <$> mjoin (tui_text_ws_get_run ws text h).

(** *** [tui_text_extract]: just the text of a string *)

(** [while (index < length && string[index] != 'm') index++].  The index
    moves forward at every pass, so [length string - index] passes
    suffice. *)
Fixpoint skip_loop (fuel : nat) (string : text_t) (index : nat) : nat :=
  match fuel with
  | O => index
  | S fuel' =>
      if (index <? length string)%nat && negb (is_char (char_at string index) LETTER_m)
      then skip_loop fuel' string (S index)
      else index
  end.

Definition skip_escape (string : text_t) (index : nat) : nat :=
  skip_loop (length string - index) string index.

(** The [for] loop of [tui_text_extract]; [text] holds the characters
    stored so far.  [strdup] is taken to succeed. *)
Fixpoint extract_loop (fuel : nat) (string : text_t) (index : nat) (text : text_t)
  : text_t :=
  match fuel with
  | O => text
  | S fuel' =>
      if (index <? length string)%nat then
        let letter := char_at string index in
        if is_char letter ESCAPE
        then extract_loop fuel' string (S (skip_escape string index)) text
        else extract_loop fuel' string (S index) (text ++ [letter])
      else text
  end.

Definition tui_text_extract (string : text_t) : text_t :=
  extract_loop (length string) string 0 [].

End Reflow.
Export Reflow.

(** ** The window tree *)

Module Tree.

Record tui_rect_t := mk_rect {
  rect_w : Z;
  rect_h : Z;
  rect_x : Z;
  rect_y : Z;
  rect_is_none : bool
}.

Definition TUI_RECT_NONE : tui_rect_t := mk_rect 0 0 0 0 true.

Record tui_border_t := mk_border {
  border_color : tui_color_t;
  border_is_dashed : bool
}.

Inductive tui_pos_t := TUI_POS_START | TUI_POS_CENTER | TUI_POS_END.

(** The value of the enumeration constant. *)
Definition pos_value (pos : tui_pos_t) : Z :=
  match pos with TUI_POS_START => 0 | TUI_POS_CENTER => 1 | TUI_POS_END => 2 end.

Inductive tui_align_t :=
| TUI_ALIGN_START | TUI_ALIGN_CENTER | TUI_ALIGN_END
| TUI_ALIGN_BETWEEN | TUI_ALIGN_AROUND | TUI_ALIGN_EVENLY.

(** An ncurses [WINDOW*]; NULL is [None]. *)
Abbreviation WINDOW := (option nat).

(** An event function: the key to whether it was handled.  What a handler
    does to the tree is outside this model. *)
Abbreviation handler := (option (Z -> bool)).

(** [tui_window_t], the head of both kinds of window.  The pointers back
    to the parent and to the tui own nothing and are left out: the tree
    below holds a window inside its owner, and the state of the tui that a
    window reaches through [window->tui] is threaded through the calls. *)
Record tui_window_t := mk_head {
  head_name : string;
  head_is_visable : bool;
  head_rect : tui_rect_t;
  head__rect : tui_rect_t;
  head_window : WINDOW;
  head_color : tui_color_t;
  head_event : handler
}.

(** [tui_window_text_t].  [text_text] is NULL ([None]) until the first
    render. *)
Record tui_window_text_t := mk_text {
  text_head : tui_window_t;
  text_string : text_t;
  text_text : option text_t;
  text_pos : tui_pos_t;
  text_align : tui_align_t
}.

(** A window is a text window or a parent window ([is_text] tells which);
    a parent holds the array [children] of [child_count] pointers, each
    one NULL or a window it owns. *)
#[local] Unset Elimination Schemes.
Inductive tui_win :=
| Window_text (window : tui_window_text_t)
| Window_parent (head : tui_window_t) (children : list (option tui_win))
    (is_vertical : bool) (border : option tui_border_t) (has_padding : bool)
    (pos : tui_pos_t) (align : tui_align_t).
#[local] Set Elimination Schemes.

Definition is_text (window : tui_win) : bool :=
  match window with Window_text _ => true | Window_parent _ _ _ _ _ _ _ => false end.

Definition window_head (window : tui_win) : tui_window_t :=
  match window with
  | Window_text t => text_head t
  | Window_parent head _ _ _ _ _ _ => head
  end.

Record tui_menu_t := mk_menu {
  menu_name : string;
  menu_windows : list (option tui_win);
  menu_event : handler
}.

(** [tui_t].  [tui_menu] points to the active menu, one of [tui_menus],
    given by its index, and [tui_window] to the focused window; they own
    nothing. *)
Record tui_t := mk_tui {
  tui_w : Z;
  tui_h : Z;
  tui_menus : list (option tui_menu_t);
  tui_windows : list (option tui_win);
  tui_menu : option nat;
  tui_window : option tui_win;
  tui_color : tui_color_t;
  tui_event_fn : handler;
  tui_is_running : bool
}.

End Tree.
Export Tree.

(** ** Calls to ncurses and to the allocator *)

Module Calls.

(** What a call of [free] releases. *)
Inductive block :=
| Block_text (text : text_t)
| Block_window (name : string)
| Block_array (count : nat)
| Block_menu (name : string)
| Block_tui.

Inductive event :=
| Ecurs_set (visibility : Z)
| Ewerase (win : WINDOW)
| Ewclear (win : WINDOW)
| Ewrefresh (win : WINDOW)
| Edelwin (win : WINDOW)
| Erefresh
| Eattron (pair : Z)
| Eattroff (pair : Z)
| Ebox (win : WINDOW)
| Ewmove (win : WINDOW) (y x : Z)
| Ewaddch (win : WINDOW) (ch : Z)
| Efree (b : block)
| Ehandler (owner : string) (key : Z).

(** The state a render pass works on: the active color [tui->color] and
    the calls made so far, oldest first. *)
Record world := mk_world {
  active : tui_color_t;
  calls : list event
}.

(** A computation on the world; [None] is undefined behaviour. *)
Definition M (A : Type) : Type := world -> option (A * world).

Definition ret {A} (a : A) : M A := fun w => Some (a, w).

Definition bind {A B} (k : A -> M B) (m : M A) : M B :=
  fun w => match m w with Some (a, w') => k a w' | None => None end.

(** The notations [x ← m; k] and [m;; k] of stdpp, at [M]. *)
#[export] Instance M_ret : MRet M := @ret.
#[export] Instance M_bind : MBind M := @bind.

Definition undefined {A} : M A := fun _ => None.

Definition call (e : event) : M unit :=
  fun w => Some (tt, mk_world (active w) (calls w ++ [e])).

Definition get_color : M tui_color_t := fun w => Some (active w, w).

Definition set_color (color : tui_color_t) : M unit :=
  fun w => Some (tt, mk_world color (calls w)).

(** The value of a pointer that must not be NULL. *)
Definition deref {A} (p : option A) : M A :=
  match p with Some a => ret a | None => undefined end.

End Calls.
Export Calls.

(** ** The arithmetic of the coordinates *)

Module Machine.

(** [int] has 32 bits. *)
Definition INT_MIN : Z := -2147483648.
Definition INT_MAX : Z := 2147483647.

Definition in_int (n : Z) : bool := (INT_MIN <=? n) && (n <=? INT_MAX).

(** The value of an expression of type [int]; an overflow is undefined
    behaviour. *)
Definition int_value (n : Z) : M Z :=
  if in_int n then ret n else undefined.

(** The conversion of an [int] to [unsigned int]. *)
Definition UINT_SIZE : Z := 4294967296.

Definition unsigned_of_int (n : Z) : Z := n mod UINT_SIZE.

(** [window->pos * diff / 2] for an [int diff].  The type of an
    enumeration without a negative constant is [unsigned int] (gcc), so
    [diff] is converted to [unsigned int] and the product and the
    quotient are unsigned; the quotient is less than 2^31 and is the
    value of the [int] it is assigned to. *)
Definition y_shift_of (pos : tui_pos_t) (diff : Z) : Z :=
  ((pos_value pos * unsigned_of_int diff) mod UINT_SIZE) / 2.

(** The [chtype] that [waddch] gets for a [char]: [char] is signed and
    [chtype] is an [unsigned int], so a byte above 127 is a negative
    [char] and is converted with its sign. *)
Definition chtype_of_char (c : ascii) : Z :=
  let byte := Z.of_N (N_of_ascii c) in
  unsigned_of_int (if byte <? 128 then byte else byte - 256).

End Machine.
Export Machine.


(** ** Rendering *)

Module Render.

(** [tui_color_on].  [attron(COLOR_PAIR(n))] is recorded as [Eattron n]. *)
Definition tui_color_on (color : tui_color_t) : M unit :=
  last_color ← get_color;
  let color := tui_color_inherit last_color color in
  call (Eattron (tui_ncurses_color_get color));;
  set_color color.

(** [tui_color_off]. *)
Definition tui_color_off (color : tui_color_t) : M unit :=
  last_color ← get_color;
  let color := tui_color_inherit last_color color in
  call (Eattroff (tui_ncurses_color_get color));;
  set_color TUI_COLOR_NONE.

(** [tui_window_fill]. *)
Definition tui_window_fill (head : tui_window_t) : M unit :=
  last_color ← get_color;
  let color := tui_color_inherit last_color (head_color head) in
  call (Eattron (tui_ncurses_color_get color));;
  set_color color.

(** [tui_border_draw]; both branches on [is_dashed] call [box]. *)
Definition tui_border_draw (head : tui_window_t) (border : option tui_border_t)
  : M unit :=
  match border with
  | None => mret tt
  | Some border =>
      tui_color_on (border_color border);;
      (if border_is_dashed border
       then call (Ebox (head_window head))
       else call (Ebox (head_window head)));;
      tui_color_off (border_color border)
  end.

(** *** [tui_text_render] *)

Record r_state := mk_r_state {
  r_index : nat;
  r_line_index : Z;
  r_line_w : Z;
  r_y : Z
}.

(** One pass through the body of the [for] loop, followed by [index++].
    The arguments of [wmove] are sums and differences of [int]s, each
    of them undefined on overflow. *)
Definition r_body (window : tui_window_text_t) (h : Z) (ws : ws_table)
    (s : r_state) : M r_state :=
  let head := text_head window in
  let rect := head_rect head in
  let string := text_string window in
  let letter := char_at string (r_index s) in
  let index :=
    if is_char letter ESCAPE then skip_escape string (r_index s) else r_index s in
  if is_char letter SPACE && (r_line_w s =? 0) then
    mret (mk_r_state (S index) (r_line_index s) 0 (r_y s))
  else
    width ← deref (ws_load ws (r_line_index s));
    if r_line_w s >=? width then
      mret (mk_r_state (S index) (r_line_index s + 1) 0 (r_y s + 1))
    else
      x_diff ← int_value (rect_w rect - width);
      let x_shift := x_diff ÷ 2 in
      y_diff ← int_value (rect_h rect - h);
      let y_shift := y_shift_of (text_pos window) y_diff in
      y ← int_value (rect_y rect + y_shift);
      y ← int_value (y + r_y s);
      x ← int_value (rect_x rect + x_shift);
      x ← int_value (x + r_line_w s);
      call (Ewmove (head_window head) y x);;
      call (Ewaddch (head_window head) (chtype_of_char letter));;
      mret (mk_r_state (S index) (r_line_index s) (r_line_w s + 1) (r_y s)).

(** The coordinates of a pass that draws on a line of the width [width]
    are computed without an overflow. *)
Definition r_coords_ok (window : tui_window_text_t) (h width : Z) (s : r_state)
  : bool :=
  let rect := head_rect (text_head window) in
  let x_shift := (rect_w rect - width) ÷ 2 in
  let y_shift := y_shift_of (text_pos window) (rect_h rect - h) in
  in_int (rect_w rect - width) && in_int (rect_h rect - h)
  && in_int (rect_y rect + y_shift) && in_int (rect_y rect + y_shift + r_y s)
  && in_int (rect_x rect + x_shift) && in_int (rect_x rect + x_shift + r_line_w s).

(** The [for] loop; the index moves forward at every pass, so
    [length string] passes suffice. *)
Fixpoint r_loop (fuel : nat) (window : tui_window_text_t) (h : Z) (ws : ws_table)
    (s : r_state) : M r_state :=
  match fuel with
  | O => mret s
  | S fuel' =>
      if (r_index s <? length (text_string window))%nat then
        s' ← r_body window h ws s;
        r_loop fuel' window h ws s'
      else mret s
  end.

Definition r_init : r_state := mk_r_state 0 0 0 0.

(** The whole of [tui_text_render], returning the final values of the
    local variables of the loop.  [int ws[h]] needs [h > 0]. *)
Definition tui_text_render_run (window : tui_window_text_t) : M r_state :=
  text ← deref (text_text window);
  let h := tui_text_h_get text (rect_w (head_rect (text_head window))) in
  if h <=? 0 then undefined
  else
    ws ← deref (tui_text_ws_get (replicate (Z.to_nat h) None) text h);
    r_loop (length (text_string window)) window h ws r_init.

Definition tui_text_render (window : tui_window_text_t) : M unit :=
  tui_text_render_run window;; mret tt.

(** *** Windows *)

Definition set_text (window : tui_window_text_t) (text : option text_t)
  : tui_window_text_t :=
  mk_text (text_head window) (text_string window) text
          (text_pos window) (text_align window).

(** [tui_window_text_render]; the window comes back with its [text]. *)
Definition tui_window_text_render (window : tui_window_text_t)
  : M tui_window_text_t :=
  let head := text_head window in
  call (Ecurs_set 0);;
  call (Ewerase (head_window head));;
  tui_window_fill head;;
  match text_text window with
  | Some text => call (Efree (Block_text text))
  | None => mret tt
  end;;
  let window := set_text window (Some (tui_text_extract (text_string window))) in
  tui_text_render window;;
  call (Ewrefresh (head_window head));;
  mret window.

(** The loop of [tui_window_parent_render] over [children], from index 0
    to [child_count - 1]; [render] is [tui_window_render]. *)
Definition children_render (render : tui_win -> M tui_win)
  : list (option tui_win) -> M (list (option tui_win)) :=
  fix loop (children : list (option tui_win)) : M (list (option tui_win)) :=
    match children with
    | [] => mret []
    | child :: rest =>
        match child with
        | None => undefined
        | Some child =>
            child' ← render child;
            rest' ← loop rest;
            mret (Some child' :: rest')
        end
    end.

(** [tui_window_render], with [tui_window_parent_render] as its second
    case. *)
Fixpoint tui_window_render (window : tui_win) : M tui_win :=
  match window with
  | Window_text window =>
      window' ← tui_window_text_render window;
      mret (Window_text window')
  | Window_parent head children is_vertical border has_padding pos align =>
      call (Ecurs_set 0);;
      call (Ewerase (head_window head));;
      tui_window_fill head;;
      tui_border_draw head border;;
      children' ← children_render tui_window_render children;
      call (Ewrefresh (head_window head));;
      mret (Window_parent head children' is_vertical border has_padding pos align)
  end.

(** The loop [for (index = count; index-- > 0;)] of [tui_windows_render]:
    [index] is the value before the test. *)
Fixpoint windows_render_loop (windows : list (option tui_win)) (index : nat)
  : M (list (option tui_win)) :=
  match index with
  | O => mret windows
  | S index =>
      window ← deref (mjoin (windows !! index));
      window' ← tui_window_render window;
      windows_render_loop (<[index := Some window']> windows) index
  end.

Definition tui_windows_render (windows : list (option tui_win)) (count : nat)
  : M (list (option tui_win)) :=
  windows_render_loop windows count.

Definition set_menu_windows (menu : tui_menu_t) (windows : list (option tui_win))
  : tui_menu_t :=
  mk_menu (menu_name menu) windows (menu_event menu).

(** [tui_render], on the windows and menus of the tui; the active color
    is in the world. *)
Definition tui_render_run (tui : tui_t)
  : M (list (option tui_win) * list (option tui_menu_t)) :=
  call (Ecurs_set 0);;
  windows ← tui_windows_render (tui_windows tui) (length (tui_windows tui));
  menus ←
    match tui_menu tui with
    | None => mret (tui_menus tui)
    | Some index =>
        menu ← deref (mjoin (tui_menus tui !! index));
        windows' ← tui_windows_render (menu_windows menu)
                                      (length (menu_windows menu));
        mret (<[index := Some (set_menu_windows menu windows')]> (tui_menus tui))
    end;
  call Erefresh;;
  mret (windows, menus).

(** [tui_render]: the tui after the call and the calls made, or [None]
    when the call has undefined behaviour. *)
Definition tui_render (tui : tui_t) : option (tui_t * list event) :=
  match tui_render_run tui (mk_world (tui_color tui) []) with
  | Some ((windows, menus), w) =>
      Some (mk_tui (tui_w tui) (tui_h tui) menus windows (tui_menu tui)
                   (tui_window tui) (active w) (tui_event_fn tui)
                   (tui_is_running tui),
            calls w)
  | None => None
  end.

End Render.
Export Render.

(** ** Destruction *)

Module Lifecycle.

(** The argument of a destroy operation is a pointer to the caller's
    handle: NULL ([None]) or a variable holding a NULL handle
    ([Some None]) or a live object ([Some (Some _)]).  An operation gives
    back the variable as it leaves it, with the calls it made. *)
Abbreviation ref A := (option (option A)).

(** [tui_ncurses_window_free]. *)
Definition tui_ncurses_window_free (window : ref nat) : ref nat * list event :=
  match window with
  | None => (None, [])
  | Some None => (Some None, [])
  | Some (Some win) =>
      (Some None, [Ewclear (Some win); Ewrefresh (Some win); Edelwin (Some win)])
  end.

(** [free(p)]; nothing happens when [p] is NULL. *)
Definition free_text (text : option text_t) : list event :=
  match text with Some text => [Efree (Block_text text)] | None => [] end.

(** [tui_window_text_free], called on a live window: the calls it
    makes; it leaves the handle NULL. *)
Definition tui_window_text_free (window : tui_window_text_t) : list event :=
  (tui_ncurses_window_free (Some (head_window (text_head window)))).2
  ++ free_text (text_text window)
  ++ [Efree (Block_window (head_name (text_head window)))].

(** The calls of [tui_windows_free] up to the release of the array, on
    the children of a parent; [free_calls] gives the calls of
    [tui_window_free] on a live child, and a NULL child is passed over. *)
Definition children_free (free_calls : tui_win -> list event)
  : list (option tui_win) -> list event :=
  fix loop (children : list (option tui_win)) : list event :=
    match children with
    | [] => []
    | child :: rest =>
        match child with
        | Some child => free_calls child
        | None => []
        end ++ loop rest
    end.

(** The calls of [tui_window_free] on a live window.  For a parent this
    is [tui_window_parent_free], which starts with [tui_windows_free] on
    the children. *)
Fixpoint window_free_calls (window : tui_win) : list event :=
  match window with
  | Window_text window => tui_window_text_free window
  | Window_parent head children _ _ _ _ _ =>
      children_free window_free_calls children
      ++ [Efree (Block_array (length children))]
      ++ (tui_ncurses_window_free (Some (head_window head))).2
      ++ [Efree (Block_window (head_name head))]
  end.

(** [tui_window_free]. *)
Definition tui_window_free (window : ref tui_win) : ref tui_win * list event :=
  match window with
  | None => (None, [])
  | Some None => (Some None, [])
  | Some (Some live) => (Some None, window_free_calls live)
  end.

(** The loop of [tui_windows_free] from [index] on: every slot is handed
    to [tui_window_free], which leaves it NULL. *)
Fixpoint windows_free_loop (windows : list (option tui_win)) (index : nat)
    (fuel : nat) : list (option tui_win) * list event :=
  match fuel with
  | O => (windows, [])
  | S fuel' =>
      match windows !! index with
      | None => (windows, [])
      | Some slot =>
          let '(slot', calls) := tui_window_free (Some slot) in
          let '(windows', calls') :=
            windows_free_loop (<[index := default None slot']> windows)
                              (S index) fuel' in
          (windows', calls ++ calls')
      end
  end.

(** [tui_windows_free]: the array and its count after the call (NULL and
    0, the empty list), and the calls made. *)
Definition tui_windows_free (windows : list (option tui_win))
  : list (option tui_win) * list event :=
  let '(windows', calls) := windows_free_loop windows 0 (length windows) in
  ([], calls ++ [Efree (Block_array (length windows'))]).

(** [tui_menu_free]. *)
Definition tui_menu_free (menu : ref tui_menu_t) : ref tui_menu_t * list event :=
  match menu with
  | None => (None, [])
  | Some None => (Some None, [])
  | Some (Some live) =>
      (Some None,
       (tui_windows_free (menu_windows live)).2
       ++ [Efree (Block_menu (menu_name live))])
  end.

(** The first loop of [tui_delete], over the menus. *)
Fixpoint menus_free_loop (menus : list (option tui_menu_t)) (index : nat)
    (fuel : nat) : list (option tui_menu_t) * list event :=
  match fuel with
  | O => (menus, [])
  | S fuel' =>
      match menus !! index with
      | None => (menus, [])
      | Some slot =>
          let '(slot', calls) := tui_menu_free (Some slot) in
          let '(menus', calls') :=
            menus_free_loop (<[index := default None slot']> menus)
                            (S index) fuel' in
          (menus', calls ++ calls')
      end
  end.

(** [tui_delete]. *)
Definition tui_delete (tui : ref tui_t) : ref tui_t * list event :=
  match tui with
  | None => (None, [])
  | Some None => (Some None, [])
  | Some (Some live) =>
      let '(menus', calls) :=
        menus_free_loop (tui_menus live) 0 (length (tui_menus live)) in
      (Some None,
       calls
       ++ [Efree (Block_array (length menus'))]
       ++ (tui_windows_free (tui_windows live)).2
       ++ [Efree Block_tui])
  end.

End Lifecycle.
Export Lifecycle.

(** ** Event dispatch *)

Module Dispatch.

(** [tui_event]: the body of the function is empty. *)
Definition tui_event (tui : tui_t) (key : Z) : tui_t * list event := (tui, []).

(** The dispatch as the documentation describes it, for comparison: the
    handler of the tui, then that of the active menu, then that of the
    focused window, until one returns true.  A call of a handler is
    recorded as [Ehandler owner key]. *)
Definition run_handler (owner : string) (fn : handler) (key : Z)
  : bool * list event :=
  match fn with
  | Some f => (f key, [Ehandler owner key])
  | None => (false, [])
  end.

Definition active_menu (tui : tui_t) : option tui_menu_t :=
  index ← tui_menu tui; mjoin (tui_menus tui !! index).

Definition documented_dispatch (tui : tui_t) (key : Z) : tui_t * list event :=
  let '(handled, calls) := run_handler "tui" (tui_event_fn tui) key in
  if handled then (tui, calls)
  else
    let '(handled, calls') :=
      match active_menu tui with
      | Some menu => run_handler (menu_name menu) (menu_event menu) key
      | None => (false, [])
      end in
    if handled then (tui, calls ++ calls')
    else
      let '(_, calls'') :=
        match tui_window tui with
        | Some window =>
            run_handler (head_name (window_head window))
                        (head_event (window_head window)) key
        | None => (false, [])
        end in
      (tui, calls ++ calls' ++ calls'').

End Dispatch.
Export Dispatch.

(** ** Vocabulary of the statements *)

Module Vocabulary.

(** A C string literal. *)
Definition str (s : string) : text_t := list_ascii_of_string s.

(** What a destroy operation must leave in the caller's variable. *)
Definition nulled {A} (r : ref A) : ref A :=
  match r with None => None | Some _ => Some None end.

(** The handlers called, in order. *)
Definition handlers_called (calls : list event) : list (string * Z) :=
  omap (fun e => match e with Ehandler owner key => Some (owner, key) | _ => None end)
       calls.

(** The windows erased, in order: [werase] is the first call a window's
    render makes on it. *)
Definition erased (calls : list event) : list WINDOW :=
  omap (fun e => match e with Ewerase win => Some win | _ => None end) calls.

(** The order in which the windows of an array and their descendants
    are to be painted, from the first to the last; [order] is the order
    for one window. *)
Definition paint_order_with (order : tui_win -> list WINDOW)
  : list (option tui_win) -> list WINDOW :=
  fix loop (windows : list (option tui_win)) : list WINDOW :=
    match windows with
    | [] => []
    | slot :: rest =>
        match slot with
        | Some window => order window
        | None => []
        end ++ loop rest
    end.

(** A window is painted before its children, and these from the first to
    the last. *)
Fixpoint paint_order (window : tui_win) : list WINDOW :=
  match window with
  | Window_text window => [head_window (text_head window)]
  | Window_parent head children _ _ _ _ _ =>
      head_window head :: paint_order_with paint_order children
  end.

Definition paint_order_all (windows : list (option tui_win)) : list WINDOW :=
  paint_order_with paint_order windows.

(** A computation only adds calls, and the windows they erase are
    [erases]. *)
Definition emits {A} (m : M A) (erases : list WINDOW) : Prop :=
  forall w a w', m w = Some (a, w') ->
    exists new, calls w' = calls w ++ new /\ erased new = erases.

(** A character of a word: neither a space nor a newline. *)
Definition is_word_char (c : ascii) : bool :=
  negb (is_char c SPACE) && negb (is_char c NEWLINE).

(** The length of the longest word of a text; [current] is the length of
    the word being read. *)
Fixpoint longest_word_from (text : text_t) (current : nat) : nat :=
  match text with
  | [] => current
  | c :: rest =>
      if is_word_char c
      then longest_word_from rest (S current)
      else Nat.max current (longest_word_from rest 0)
  end.

Definition longest_word (text : text_t) : nat := longest_word_from text 0.

(** The number of occurrences of a character. *)
Definition count_char (c : ascii) (text : text_t) : nat :=
  length (filter (fun d => is_char d c = true) text).

(** The sum of the entries of a table that have been written. *)
Definition sum_written (ws : ws_table) : Z :=
  foldr (fun entry sum => default 0 entry + sum) 0 ws.

End Vocabulary.
Export Vocabulary.

(** ** Example inputs *)

Module Examples.

(** The text " a": a space, then a word of one letter. *)
Definition text_space_a : text_t := str " a".

(** The text "a", newline, "b": no escape sequence and no space. *)
Definition text_a_newline_b : text_t := str "a" ++ [NEWLINE] ++ str "b".

(** A text window two cells wide and one high that shows "AB" after a
    color escape. *)
Definition window_escape_AB : tui_window_text_t :=
  mk_text (mk_head "text" true (mk_rect 2 1 0 0 false) TUI_RECT_NONE (Some 1%nat)
                   TUI_COLOR_NONE None)
          (ESCAPE :: str "[31mAB") None TUI_POS_START TUI_ALIGN_START.

(** A text window of one cell that shows "a" on the ncurses window
    [win]. *)
Definition leaf (name : string) (win : nat) : option tui_win :=
  Some (Window_text
          (mk_text (mk_head name true (mk_rect 1 1 0 0 false) TUI_RECT_NONE (Some win)
                            TUI_COLOR_NONE None)
                   (str "a") None TUI_POS_START TUI_ALIGN_START)).

(** A parent window without border on the ncurses window [win]. *)
Definition box (name : string) (win : nat) (children : list (option tui_win))
  : option tui_win :=
  Some (Window_parent
          (mk_head name true (mk_rect 4 4 0 0 false) TUI_RECT_NONE (Some win)
                   TUI_COLOR_NONE None)
          children true None false TUI_POS_START TUI_ALIGN_START).

(** Window 1 and then the box 2 with the children 3 and 4 belong to the
    tui, the windows 5 and 6 to its active menu. *)
Definition tui_six_windows : tui_t :=
  mk_tui 80 24 [Some (mk_menu "menu" [leaf "five" 5; leaf "six" 6] None)]
         [leaf "one" 1; box "two" 2 [leaf "three" 3; leaf "four" 4]]
         (Some 0%nat) None TUI_COLOR_NONE None true.

(** A tui with nothing but its own event function, which handles every
    key. *)
Definition tui_with_handler : tui_t :=
  mk_tui 80 24 [] [] None None TUI_COLOR_NONE (Some (fun _ => true)) true.

End Examples.
Export Examples.

(** ** Invariants and measures of the loops *)

Module Invariants.

(** The loop of [tui_text_h_get]: the two space indices are in order and
    behind the running index. *)
Definition h_inv (text : text_t) (s : h_state) : Prop :=
  0 <= h_last_space_index s <= h_space_index s
  /\ h_space_index s <= Z.of_nat (h_index s)
  /\ (h_index s <= length text)%nat.

(** It decreases at every pass. *)
Definition h_measure (text : text_t) (s : h_state) : Z :=
  (Z.of_nat (length text) - h_last_space_index s) * (Z.of_nat (length text) + 1)
  + (Z.of_nat (length text) - Z.of_nat (h_index s)).

(** The characters [from], ..., [from + count - 1] of the text exist and
    are characters of a word. *)
Definition word_at (text : text_t) (from count : nat) : Prop :=
  forall j, (from <= j < from + count)%nat ->
    (j < length text)%nat /\ is_word_char (char_at text j) = true.

Definition h_word_inv (text : text_t) (max_w : Z) (a : nat) (s : h_state) : Prop :=
  h_inv text s
  /\ 0 <= h_line_w s
  /\ (0 < h_space_index s ->
      is_char (char_at text (Z.to_nat (h_space_index s))) SPACE = true)
  /\ Z.of_nat (h_index s) <= Z.of_nat a + max_w
  /\ (Z.of_nat a < Z.of_nat (h_index s) ->
      Z.of_nat (h_index s) - Z.of_nat a <= h_line_w s).

Definition count_upto (c : ascii) (text : text_t) (i : nat) : nat :=
  count_char c (take i text).

(** The height counts every newline read. *)
Definition h_count_inv (text : text_t) (s : h_state) : Prop :=
  1 + Z.of_nat (count_upto NEWLINE text (h_index s)) <= h_h s.

(** At a width that is not below the length no line overflows. *)
Definition h_wide_inv (text : text_t) (s : h_state) : Prop :=
  h_line_w s <= Z.of_nat (h_index s)
  /\ h_h s = 1 + Z.of_nat (count_upto NEWLINE text (h_index s)).

(** A width at which the text wraps into at most [h] lines. *)
Definition feasible (text : text_t) (h : Z) (w : Z) : Prop :=
  tui_text_h_get text w <> -1 /\ tui_text_h_get text w <= h.

Definition w_inv (text : text_t) (h : Z) (s : w_state) : Prop :=
  1 <= w_left s /\ w_right s <= Z.of_nat (length text)
  /\ (w_min_w s = Z.of_nat (length text)
      \/ (1 <= w_min_w s <= Z.of_nat (length text) /\ feasible text h (w_min_w s))).

(** A pass that leaves a space out of every width: a space met while
    the line is empty, or the pass that ends an overfull line at its last
    space. *)
Definition ws_skips (text : text_t) (max_w : Z) (s : ws_state) : bool :=
  let letter := char_at text (ws_index s) in
  if is_char letter SPACE && (ws_line_w s =? 0) then true
  else if is_char letter NEWLINE then false
  else ws_line_w s >=? max_w.

(** The number of such passes in the run of the loop from [s]. *)
Fixpoint ws_skipped (fuel : nat) (text : text_t) (max_w h : Z) (s : ws_state) : Z :=
  if (ws_index s <? length text)%nat && (ws_line_index s <? h) then
    match fuel with
    | O => 0
    | S fuel' =>
        match ws_body text max_w s with
        | None => 0
        | Some s' =>
            (if ws_skips text max_w s then 1 else 0)
            + ws_skipped fuel' text max_w h s'
        end
    end
  else 0.

Definition tui_text_ws_skipped (ws : ws_table) (text : text_t) (h : Z) : Z :=
  ws_skipped (ws_fuel text h) text (tui_text_w_get text h) h (ws_init ws).

(** The loop of [tui_text_ws_get]: the indices are in range and the
    table has [h] entries. *)
Definition ws_ok (text : text_t) (h : Z) (s : ws_state) : Prop :=
  0 <= ws_line_index s
  /\ 0 <= ws_line_w s <= Z.of_nat (ws_index s)
  /\ (ws_index s <= length text)%nat
  /\ 0 <= ws_space_index s <= Z.of_nat (ws_index s)
  /\ Z.of_nat (length (ws_ws s)) = h.

Definition ws_measure (text : text_t) (h : Z) (s : ws_state) : Z :=
  (h - ws_line_index s) * (Z.of_nat (length text) + 1)
  + (Z.of_nat (length text) - Z.of_nat (ws_index s)).

(** The loop of [tui_text_ws_get], between two passes: the line being
    read holds no newline, [space_index] is the last space read, and the
    entries from [line_index] on are still to be written. *)
Definition ws_inv (text : text_t) (h : Z) (s : ws_state) : Prop :=
  ws_ok text h s
  /\ (forall j, Z.of_nat (ws_index s) - ws_line_w s <= Z.of_nat j < Z.of_nat (ws_index s) ->
      is_char (char_at text j) NEWLINE = false)
  /\ (forall j, (j < ws_index s)%nat -> is_char (char_at text j) SPACE = true ->
      Z.of_nat j <= ws_space_index s
      /\ is_char (char_at text (Z.to_nat (ws_space_index s))) SPACE = true)
  /\ ((ws_index s < length text)%nat ->
      forall j, Z.of_nat j >= ws_line_index s -> mjoin (ws_ws s !! j) = None).

(** What the table sums to at the end, seen from a state of the loop:
    the sum so far, the width of the line being read, and the characters
    still to come that are no newlines. *)
Definition ws_potential (text : text_t) (s : ws_state) : Z :=
  sum_written (ws_ws s)
  + if (ws_index s <? length text)%nat
    then ws_line_w s + (Z.of_nat (length text) - Z.of_nat (ws_index s))
         - (Z.of_nat (count_char NEWLINE text)
            - Z.of_nat (count_upto NEWLINE text (ws_index s)))
    else 0.

(** The spaces from the start of the line being read to the end of the
    text. *)
Definition ws_spaces_left (text : text_t) (s : ws_state) : Z :=
  Z.of_nat (count_char SPACE text)
  - Z.of_nat (count_upto SPACE text (Z.to_nat (Z.of_nat (ws_index s) - ws_line_w s))).

Definition no_long_word (text : text_t) (max_w : Z) : Prop :=
  forall a, ~ word_at text a (S (Z.to_nat max_w)).

(** The run of the loop of [tui_text_ws_get] from [s] reaches the end of
    the text. *)
Definition ws_done (text : text_t) (max_w h : Z) (s : ws_state) : Prop :=
  exists fuel s_f,
    ws_loop fuel text max_w h s = Some (Some s_f)
    /\ (length text <= ws_index s_f)%nat.

(** The loop of [tui_text_h_get]: the line being read is not wider than
    [max_w] and holds no newline, and a positive [space_index] is the
    index of a space. *)
Definition h_line_inv (text : text_t) (max_w : Z) (s : h_state) : Prop :=
  0 <= h_line_w s <= max_w
  /\ h_line_w s <= Z.of_nat (h_index s)
  /\ (forall j, Z.of_nat (h_index s) - h_line_w s <= Z.of_nat j < Z.of_nat (h_index s) ->
      is_char (char_at text j) NEWLINE = false)
  /\ (0 < h_space_index s ->
      is_char (char_at text (Z.to_nat (h_space_index s))) SPACE = true).

(** The loop of [tui_text_h_get]: every space read since the last break
    is at most [space_index], and the line being read starts after the
    last break, or at 0 when there was no break. *)
Definition h_break_inv (text : text_t) (s : h_state) : Prop :=
  (forall j, h_last_space_index s < Z.of_nat j < Z.of_nat (h_index s) ->
             is_char (char_at text j) SPACE = true ->
             Z.of_nat j <= h_space_index s)
  /\ (h_last_space_index s < Z.of_nat (h_index s) - h_line_w s
      \/ (Z.of_nat (h_index s) - h_line_w s = 0 /\ h_last_space_index s = 0)).

(** The first line of a text that starts with a space and goes on with
    a word of the full width. *)
Definition h_first_inv (s : h_state) : Prop :=
  h_last_space_index s = 0 /\ h_space_index s = 0
  /\ h_line_w s = Z.of_nat (h_index s).

(** The text starts with a space that a word of [max_w] letters
    follows. *)
Definition space_then_word (text : text_t) (max_w : Z) : Prop :=
  is_char (char_at text 0) SPACE = true /\ word_at text 1 (Z.to_nat max_w).

(** The run of the loop of [tui_text_h_get] from [s] ends on [r]. *)
Definition h_result (text : text_t) (max_w : Z) (s : h_state) (r : Z) : Prop :=
  exists fuel, h_loop fuel text max_w s = Some r.

(** The binary search: no width below [left] will do, and [min_w] is at
    most one above [right]. *)
Definition w_search_inv (text : text_t) (h : Z) (s : w_state) : Prop :=
  (forall m, 1 <= m < w_left s -> ~ feasible text h m)
  /\ w_min_w s <= w_right s + 1.

End Invariants.
Export Invariants.

Ltac simpl_h :=
  cbn [h_index h_h h_line_w h_space_index h_last_space_index h_init] in *.

Ltac simpl_w := cbn [w_left w_right w_min_w w_init] in *.

Ltac simpl_ws :=
  cbn [ws_index ws_line_index ws_line_w ws_space_index ws_ws ws_init] in *.

(** ** Set-up and tear-down of ncurses *)

Module Setup.

(** [stdscr] or a window of the program. *)
Inductive screen := stdscr | a_window (win : WINDOW).

(** The calls that the set-up functions make to ncurses, with their
    arguments in the order of ncurses. *)
Inductive setup_call :=
| Cinitscr
| Cnoecho
| Craw
| Ckeypad (win : screen)
| Cstart_color
| Chas_colors
| Cuse_default_colors
| Cinit_pair (pair fg bg : Z)
| Cclear
| Crefresh
| Cendwin
| Cnewwin (nlines ncols begin_y begin_x : Z)
| Cwresize (win : WINDOW) (nlines ncols : Z)
| Cmvwin (win : WINDOW) (y x : Z).

(** What the terminal answers to [tui_init]: whether [start_color]
    returns other than ERR, and what [has_colors] returns. *)
Record terminal := mk_terminal {
  start_color_ok : bool;
  has_colors : bool
}.

(** The inner loop of [tui_colors_init], over [bg_index]. *)
Fixpoint colors_bg_loop (fuel : nat) (fg_index bg_index : Z) : list setup_call :=
  match fuel with
  | O => []
  | S fuel' =>
      if bg_index <? 9 then
        let index := fg_index * 9 + bg_index in
        let fg := short_of_int (fg_index - 1) in
        let bg := short_of_int (bg_index - 1) in
        Cinit_pair index fg bg :: colors_bg_loop fuel' fg_index (bg_index + 1)
      else []
  end.

(** The outer loop, over [fg_index]. *)
Fixpoint colors_fg_loop (fuel : nat) (fg_index : Z) : list setup_call :=
  match fuel with
  | O => []
  | S fuel' =>
      if fg_index <? 9 then
        colors_bg_loop 9 fg_index 0 ++ colors_fg_loop fuel' (fg_index + 1)
      else []
  end.

(** [tui_colors_init]: both indices run from 0 to 8. *)
Definition tui_colors_init : list setup_call := colors_fg_loop 9 0.

(** [tui_init]: the value returned and the calls made.  [has_colors] is
    only asked when [start_color] has succeeded. *)
Definition tui_init (term : terminal) : Z * list setup_call :=
  let calls := [Cinitscr; Cnoecho; Craw; Ckeypad stdscr; Cstart_color] in
  if negb (start_color_ok term) then (1, calls ++ [Cendwin])
  else
    let calls := calls ++ [Chas_colors] in
    if negb (has_colors term) then (1, calls ++ [Cendwin])
    else
      (0, calls ++ [Cuse_default_colors] ++ tui_colors_init ++ [Cclear; Crefresh]).

(** [tui_quit]. *)
Definition tui_quit : list setup_call := [Cclear; Crefresh; Cendwin].

(** [tui_ncurses_window_create]; [created] is what [newwin] returns. *)
Definition tui_ncurses_window_create (created : WINDOW) (w h x y : Z)
  : WINDOW * list setup_call :=
  let window := created in
  match window with
  | None => (None, [Cnewwin h w y x])
  | Some _ => (window, [Cnewwin h w y x; Ckeypad (a_window window)])
  end.

(** [tui_ncurses_window_resize]. *)
Definition tui_ncurses_window_resize (window : WINDOW) (w h x y : Z)
  : list setup_call :=
  [Cwresize window h w; Cmvwin window y x].

End Setup.
Export Setup.

(** ** Creation *)

Module Creation.

(** [tui_create]; [memory] tells whether [malloc] succeeds, [maxx] and
    [maxy] are the size of [stdscr].  Every field that the compound
    literal does not name is zero. *)
Definition tui_create (memory : bool) (maxx maxy : Z) (event : handler)
  : option tui_t :=
  if negb memory then None
  else Some (mk_tui maxx maxy [] [] None None (mk_color 0 0) event false).

(** [_tui_border_create]. *)
Definition _tui_border_create (memory : bool) (color : tui_color_t)
    (is_dashed : bool) : option tui_border_t :=
  if negb memory then None else Some (mk_border color is_dashed).

(** [_tui_window_parent_create]: a parent without children and without
    an ncurses window. *)
Definition _tui_window_parent_create (memory : bool) (name : string)
    (event : handler) (rect : tui_rect_t) (color : tui_color_t)
    (is_visable : bool) (border : option tui_border_t) (has_padding : bool)
    (pos : tui_pos_t) (align : tui_align_t) (is_vertical : bool)
  : option tui_win :=
  if negb memory then None
  else
    let head := mk_head name is_visable rect (mk_rect 0 0 0 0 false) None color event in
    Some (Window_parent head [] is_vertical border has_padding pos align).

End Creation.
Export Creation.

(** ** The palette *)

Module Palette.

(** The colors of the palette: NONE (-1) and the eight colors of ncurses,
    0 to 7, on either channel. *)
Definition in_palette (color : tui_color_t) : Prop :=
  -1 <= fg color <= 7 /\ -1 <= bg color <= 7.

(** How often curses mode is ended. *)
Definition is_endwin (c : setup_call) : bool :=
  match c with Cendwin => true | _ => false end.

Definition count_endwin (calls : list setup_call) : nat :=
  length (filter (fun c => is_endwin c = true) calls).

End Palette.
Export Palette.

(** ** Escape sequences *)

Module Escapes.

(** A reader of a string that is inside an escape sequence or outside:
    outside it keeps every character but ESC, which takes it inside;
    inside it drops every character, and the letter m takes it
    outside. *)
Fixpoint strip (inside : bool) (string : text_t) : text_t :=
  match string with
  | [] => []
  | c :: rest =>
      if inside then strip (negb (is_char c LETTER_m)) rest
      else if is_char c ESCAPE then strip true rest
      else c :: strip false rest
  end.

(** Whether the reader is inside an escape sequence at the end of the
    string. *)
Fixpoint ends_inside (inside : bool) (string : text_t) : bool :=
  match string with
  | [] => inside
  | c :: rest =>
      if inside then ends_inside (negb (is_char c LETTER_m)) rest
      else ends_inside (is_char c ESCAPE) rest
  end.

(** No character of the string is [c]. *)
Definition free_of (c : ascii) (string : text_t) : Prop :=
  Forall (fun d => is_char d c = false) string.

End Escapes.
Export Escapes.

(** ** What a render pass does, window by window *)

Module RenderSpec.

(** The windows refreshed, in order. *)
Definition refreshed (calls : list event) : list WINDOW :=
  omap (fun e => match e with Ewrefresh win => Some win | _ => None end) calls.

(** The blocks released, in order. *)
Definition freed (calls : list event) : list block :=
  omap (fun e => match e with Efree b => Some b | _ => None end) calls.

(** What [waddch] has been given, in order. *)
Definition drawn (calls : list event) : list Z :=
  omap (fun e => match e with Ewaddch _ ch => Some ch | _ => None end) calls.

(** What the windows of an array contribute, slot by slot from the first
    to the last; a NULL slot contributes nothing. *)
Definition over_slots {X} (f : tui_win -> list X)
  : list (option tui_win) -> list X :=
  fix loop (slots : list (option tui_win)) : list X :=
    match slots with
    | [] => []
    | slot :: rest =>
        match slot with
        | Some window => f window
        | None => []
        end ++ loop rest
    end.

(** A window is refreshed after its children. *)
Fixpoint refresh_order (window : tui_win) : list WINDOW :=
  match window with
  | Window_text window => [head_window (text_head window)]
  | Window_parent head children _ _ _ _ _ =>
      over_slots refresh_order children ++ [head_window head]
  end.

(** The texts that the text windows hold from an earlier render. *)
Fixpoint stale_texts (window : tui_win) : list block :=
  match window with
  | Window_text window =>
      match text_text window with
      | Some text => [Block_text text]
      | None => []
      end
  | Window_parent _ children _ _ _ _ _ => over_slots stale_texts children
  end.

Definition cached_slots (cached : tui_win -> tui_win)
  : list (option tui_win) -> list (option tui_win) :=
  fix loop (slots : list (option tui_win)) : list (option tui_win) :=
    match slots with
    | [] => []
    | slot :: rest =>
        match slot with
        | Some window => Some (cached window)
        | None => None
        end :: loop rest
    end.

(** The window with the text of every text window set to the text of its
    string. *)
Fixpoint cached (window : tui_win) : tui_win :=
  match window with
  | Window_text window =>
      Window_text (set_text window (Some (tui_text_extract (text_string window))))
  | Window_parent head children is_vertical border has_padding pos align =>
      Window_parent head (cached_slots cached children) is_vertical border
                    has_padding pos align
  end.

(** Every slot of the array holds a window, and [ok] holds of it. *)
Definition all_slots (ok : tui_win -> bool) : list (option tui_win) -> bool :=
  fix loop (slots : list (option tui_win)) : bool :=
    match slots with
    | [] => true
    | slot :: rest =>
        match slot with
        | Some window => ok window
        | None => false
        end && loop rest
    end.

(** The text of every text window wraps at the width of its rectangle,
    and no array of children has a NULL slot. *)
Fixpoint renderable (window : tui_win) : bool :=
  match window with
  | Window_text window =>
      1 <=? tui_text_h_get (tui_text_extract (text_string window))
                           (rect_w (head_rect (text_head window)))
  | Window_parent _ children _ _ _ _ _ => all_slots renderable children
  end.

(** A computation only adds calls, and [R] holds of its result and of the
    calls added. *)
Definition adds {A} (m : M A) (R : A -> list event -> Prop) : Prop :=
  forall w a w', m w = Some (a, w') ->
    exists new, calls w' = calls w ++ new /\ R a new.

(** A call of [tui_text_render]: a character is put on the line
    [line_index], which has the width [width], behind the [line_w]
    characters that the line holds already. *)
Definition draws_at (window : tui_window_text_t) (h : Z) (ws : ws_table)
    (e : event) : Prop :=
  let head := text_head window in
  let rect := head_rect head in
  match e with
  | Ewmove win y x =>
      exists line_index width line_w,
        ws_load ws line_index = Some width
        /\ 0 <= line_w < width
        /\ win = head_window head
        /\ in_int (rect_h rect - h) = true
        /\ in_int y = true /\ in_int x = true
        /\ y = rect_y rect + y_shift_of (text_pos window) (rect_h rect - h)
               + line_index
        /\ x = rect_x rect + (rect_w rect - width) ÷ 2 + line_w
  | Ewaddch win ch => win = head_window head /\ exists c, ch = chtype_of_char c
  | _ => False
  end.

(** What a render of [window] has done when it returns [window'] after
    the calls [new]. *)
Definition render_post (window window' : tui_win) (new : list event) : Prop :=
  renderable window = true
  /\ window' = cached window
  /\ refreshed new = refresh_order window
  /\ freed new = stale_texts window.

(** The same for the windows of an array, rendered in the order of
    [order]. *)
Definition render_all_post (windows order windows' : list (option tui_win))
    (new : list event) : Prop :=
  all_slots renderable windows = true
  /\ windows' = cached_slots cached windows
  /\ refreshed new = over_slots refresh_order order
  /\ freed new = over_slots stale_texts order.

(** The windows of the active menu. *)
Definition active_windows (tui : tui_t) : list (option tui_win) :=
  match active_menu tui with
  | Some menu => menu_windows menu
  | None => []
  end.

(** No entry of the table is above [bound]. *)
Definition ws_entries_le (bound : Z) (ws : ws_table) : Prop :=
  forall i v, ws !! i = Some (Some v) -> v <= bound.

(** The cell is inside the rectangle. *)
Definition inside (rect : tui_rect_t) (y x : Z) : Prop :=
  rect_x rect <= x < rect_x rect + rect_w rect
  /\ rect_y rect <= y < rect_y rect + rect_h rect.

End RenderSpec.
Export RenderSpec.

(** ** The active color through a render pass *)

Module ColorFlow.

(** The active color after the windows of an array, from the first to
    the last; [after] gives the color after one window. *)
Definition color_over (after : tui_color_t -> tui_win -> tui_color_t)
  : tui_color_t -> list (option tui_win) -> tui_color_t :=
  fix loop (color : tui_color_t) (slots : list (option tui_win)) : tui_color_t :=
    match slots with
    | [] => color
    | slot :: rest =>
        loop match slot with
             | Some window => after color window
             | None => color
             end rest
    end.

(** The active color after the render of a window that finds [color]
    active.  A text window leaves its own color, resolved against
    [color]; a parent leaves what its last child leaves, and its
    children start from the parent's resolved color, or from
    [{NONE, NONE}] when the parent has a border. *)
Fixpoint color_after (color : tui_color_t) (window : tui_win) : tui_color_t :=
  match window with
  | Window_text window => tui_color_inherit color (head_color (text_head window))
  | Window_parent head children _ border _ _ _ =>
      color_over color_after
                 match border with
                 | Some _ => TUI_COLOR_NONE
                 | None => tui_color_inherit color (head_color head)
                 end
                 children
  end.

(** A computation that turns the active color [color] into
    [change color]. *)
Definition recolors {A} (m : M A) (change : tui_color_t -> tui_color_t) : Prop :=
  forall w a w', m w = Some (a, w') -> active w' = change (active w).

End ColorFlow.
Export ColorFlow.

(** ** More example inputs *)

Module MoreExamples.

(** A text window two cells wide and two high that shows "ab cd". *)
Definition window_ab_cd : tui_window_text_t :=
  mk_text (mk_head "text" true (mk_rect 2 2 0 0 false) TUI_RECT_NONE (Some 1%nat)
                   TUI_COLOR_NONE None)
          (str "ab cd") None TUI_POS_START TUI_ALIGN_START.

(** The same text in a window that is one cell wide. *)
Definition window_too_narrow : tui_window_text_t :=
  mk_text (mk_head "text" true (mk_rect 1 2 0 0 false) TUI_RECT_NONE (Some 1%nat)
                   TUI_COLOR_NONE None)
          (str "ab cd") None TUI_POS_START TUI_ALIGN_START.

(** A tui whose array of windows has a NULL slot behind window 1. *)
Definition tui_null_slot : tui_t :=
  mk_tui 80 24 [] [leaf "one" 1; None] None None TUI_COLOR_NONE None true.

(** Window 1, red on the default background, and behind it window 2,
    which declares no color. *)
Definition tui_red_and_plain : tui_t :=
  mk_tui 80 24 []
         [Some (Window_text
                  (mk_text (mk_head "red" true (mk_rect 1 1 0 0 false) TUI_RECT_NONE
                                    (Some 1%nat) (mk_color 1 (-1)) None)
                           (str "a") None TUI_POS_START TUI_ALIGN_START));
          leaf "plain" 2]
         None None TUI_COLOR_NONE None true.

(** "ab cd" centred in a window that is two cells wide and one row
    high: the text has two lines. *)
Definition window_tall_centre : tui_window_text_t :=
  mk_text (mk_head "text" true (mk_rect 2 1 0 0 false) TUI_RECT_NONE (Some 1%nat)
                   TUI_COLOR_NONE None)
          (str "ab cd") None TUI_POS_CENTER TUI_ALIGN_START.

(** "ab" and a newline at the end of such a window: the text has two
    lines, the second of them empty. *)
Definition window_tall_end : tui_window_text_t :=
  mk_text (mk_head "text" true (mk_rect 2 1 0 0 false) TUI_RECT_NONE (Some 1%nat)
                   TUI_COLOR_NONE None)
          ["a"; "b"; NEWLINE]%char None TUI_POS_END TUI_ALIGN_START.

End MoreExamples.
Export MoreExamples.

(** ** What a destroy operation releases *)

Module Release.

(** The ncurses windows deleted, in order. *)
Definition deleted (calls : list event) : list WINDOW :=
  omap (fun e => match e with Edelwin win => Some win | _ => None end) calls.

(** The window structs released, by the names of the windows, in
    order. *)
Definition freed_windows (calls : list event) : list string :=
  omap (fun e => match e with Efree (Block_window name) => Some name | _ => None end)
       calls.

(** The ncurses window of a window, unless it is NULL. *)
Definition live (win : WINDOW) : list WINDOW :=
  match win with Some _ => [win] | None => [] end.

(** The ncurses windows of a window and its descendants, those of the
    children before that of the parent. *)
Fixpoint handles (window : tui_win) : list WINDOW :=
  match window with
  | Window_text window => live (head_window (text_head window))
  | Window_parent head children _ _ _ _ _ =>
      over_slots handles children ++ live (head_window head)
  end.

(** The names of a window and its descendants, in the same order. *)
Fixpoint names (window : tui_win) : list string :=
  match window with
  | Window_text window => [head_name (text_head window)]
  | Window_parent head children _ _ _ _ _ =>
      over_slots names children ++ [head_name head]
  end.

(** What the windows of the menus of an array contribute, menu by menu;
    a NULL slot contributes nothing. *)
Definition over_menus {X} (f : tui_win -> list X) (menus : list (option tui_menu_t))
  : list X :=
  flat_map (fun slot => match slot with
                        | Some menu => over_slots f (menu_windows menu)
                        | None => []
                        end) menus.

(** The calls of [tui_menu_free] on the menus of an array, from the
    first to the last. *)
Definition menus_free_calls (menus : list (option tui_menu_t)) : list event :=
  flat_map (fun slot => (tui_menu_free (Some slot)).2) menus.

End Release.
Export Release.

(** ** The lines that [tui_text_ws_get] and [tui_text_render] walk *)

Module Lines.

(** The run of the loop of [tui_text_ws_get] from [s] ends in [s_f]. *)
Definition ws_to (text : text_t) (max_w h : Z) (s s_f : ws_state) : Prop :=
  exists fuel, ws_loop fuel text max_w h s = Some (Some s_f).

(** The loop of [tui_text_ws_get], with the invariant of the accounts:
    the line being read is no wider than [max_w], and the lines before it
    have their widths in the table, none of them negative. *)
Definition ws_line_ok (text : text_t) (max_w h : Z) (s : ws_state) : Prop :=
  ws_inv text h s
  /\ ws_line_w s <= max_w
  /\ forall j, Z.of_nat j < ws_line_index s ->
       exists v, ws_ws s !! j = Some (Some v) /\ 0 <= v.

(** The entries of the lines before the line [line_index] are the same in
    both tables. *)
Definition same_below (line_index : Z) (ws ws' : ws_table) : Prop :=
  forall j, Z.of_nat j < line_index -> ws' !! j = ws !! j.

(** The loop of [tui_text_render] at [r] follows the loop of
    [tui_text_ws_get] at [s], whose run ends in [s_f]: both are at the
    same character of the same line, and the line will be as wide in the
    end as the render has filled it, or wider. *)
Definition r_follows (text : text_t) (max_w h : Z) (s_f : ws_state)
    (r : r_state) (s : ws_state) : Prop :=
  ws_to text max_w h s s_f
  /\ ws_line_ok text max_w h s
  /\ ws_index s = r_index r
  /\ ws_line_index s = r_line_index r
  /\ ws_line_w s = r_line_w r
  /\ r_y r = r_line_index r
  /\ ((r_index r < length text)%nat ->
      exists v, ws_ws s_f !! Z.to_nat (r_line_index r) = Some (Some v)
                /\ r_line_w r <= v).

(** The characters of words among the characters. *)
Definition word_chars (chars : list ascii) : list ascii :=
  filter (fun c => is_word_char c = true) chars.

End Lines.
Export Lines.

(** ** Windows without escape sequences *)

Module Plain.

(** No character of the string is ESC. *)
Definition no_escape (string : text_t) : bool :=
  forallb (fun c => negb (is_char c ESCAPE)) string.

(** No string of a text window of the tree has an ESC. *)
Fixpoint plain (window : tui_win) : bool :=
  match window with
  | Window_text window => no_escape (text_string window)
  | Window_parent _ children _ _ _ _ _ => all_slots plain children
  end.

(** The characters of the words of the strings of the tree, in the order
    of painting. *)
Fixpoint shown (window : tui_win) : list ascii :=
  match window with
  | Window_text window => word_chars (text_string window)
  | Window_parent _ children _ _ _ _ _ => over_slots shown children
  end.

(** The rectangle of a text window is one cell wide or more, and the
    coordinates of every cell of the lines of the text are computed
    without an overflow: the width of the rectangle and [rect.h - h] are
    [int]s, and so are the first and the last row and the first and the
    last column of the lines. *)
Definition text_placed (window : tui_window_text_t) : bool :=
  let rect := head_rect (text_head window) in
  let h := tui_text_h_get (tui_text_extract (text_string window)) (rect_w rect) in
  let y_shift := y_shift_of (text_pos window) (rect_h rect - h) in
  (1 <=? rect_w rect)
  && in_int (rect_w rect) && in_int (rect_h rect - h)
  && in_int (rect_y rect + y_shift) && in_int (rect_y rect + y_shift + (h - 1))
  && in_int (rect_x rect) && in_int (rect_x rect + (rect_w rect - 1)).

(** This holds of every text window of the tree. *)
Fixpoint placed (window : tui_win) : bool :=
  match window with
  | Window_text window => text_placed window
  | Window_parent _ children _ _ _ _ _ => all_slots placed children
  end.

(** The calls pass the characters [chars] to [waddch], in this order,
    each as the [chtype] it is converted to. *)
Definition draws (new : list event) (chars : list ascii) : Prop :=
  drawn new = map chtype_of_char chars.

(** A character of a word, or a space. *)
Definition word_or_space (c : ascii) : Prop :=
  is_word_char c = true \/ c = SPACE.

End Plain.
Export Plain.

(** ** program.c: the loop of [main] *)

Module Program.

Definition KEY_CTRLS : Z := 19.

(** [tui->is_running = is_running]. *)
Definition set_running (tui : tui_t) (is_running : bool) : tui_t :=
  mk_tui (tui_w tui) (tui_h tui) (tui_menus tui) (tui_windows tui) (tui_menu tui)
         (tui_window tui) (tui_color tui) (tui_event_fn tui) is_running.

(** How the loop ends: it is left, with the keys that were not read; or
    [wgetch] waits for a key that has not been typed; or a render had no
    defined result. *)
Inductive loop_end :=
| Loop_left (tui : tui_t) (rest : list Z)
| Loop_waits (tui : tui_t)
| Loop_undefined.

(** The loop [while (tui->is_running && (key = wgetch(stdscr)))] of
    [main] on the tui that [main] has built; [keys] are the keys that
    [wgetch] returns, in order.  The result comes with the calls made. *)
Fixpoint main_loop (keys : list Z) (tui : tui_t) : loop_end * list event :=
  if negb (tui_is_running tui) then (Loop_left tui keys, [])
  else
    match keys with
    | [] => (Loop_waits tui, [])
    | key :: rest =>
        if key =? 0 then (Loop_left tui rest, [])
        else if key =? KEY_CTRLS then (Loop_left (set_running tui false) rest, [])
        else
          let '(tui, calls) := tui_event tui key in
          match tui_render tui with
          | None => (Loop_undefined, calls)
          | Some (tui, calls') =>
              let '(result, calls'') := main_loop rest tui in
              (result, calls ++ calls' ++ calls'')
          end
    end.

(** A tui whose render is known to be defined: every slot holds a
    window, no string has an escape sequence, every text wraps at the
    width of its rectangle with coordinates that are computed without an
    overflow, and the active menu is a menu of the tui. *)
Definition ready (tui : tui_t) : Prop :=
  all_slots renderable (tui_windows tui) = true
  /\ all_slots plain (tui_windows tui) = true
  /\ all_slots placed (tui_windows tui) = true
  /\ all_slots renderable (active_windows tui) = true
  /\ all_slots plain (active_windows tui) = true
  /\ all_slots placed (active_windows tui) = true
  /\ (tui_menu tui = None \/ is_Some (active_menu tui)).

(** A key that neither ends the loop nor is Ctrl-S. *)
Definition goes_on (key : Z) : Prop := key <> 0 /\ key <> KEY_CTRLS.

End Program.
Export Program.

(** * Properties *)

(** ** Color model *)

Section color_facts.

Implicit Types A D C : tui_color_t.

Lemma tui_color_inherit_fg A D :
  fg (tui_color_inherit A D) = if fg D =? COLOR_NONE then fg A else fg D.
Proof.
  unfold tui_color_inherit.
  destruct (fg D =? COLOR_NONE) eqn:Hfg; cbn [fg bg];
    destruct (bg D =? COLOR_NONE); cbn [fg bg]; rewrite ?Hfg; reflexivity.
Qed.

Lemma tui_color_inherit_bg A D :
  bg (tui_color_inherit A D) = if bg D =? COLOR_NONE then bg A else bg D.
Proof.
  unfold tui_color_inherit.
  destruct (fg D =? COLOR_NONE); cbn [fg bg];
    destruct (bg D =? COLOR_NONE) eqn:Hbg; cbn [fg bg]; reflexivity.
Qed.

Lemma tui_color_eq A D : fg A = fg D -> bg A = bg D -> A = D.
Proof. destruct A, D; cbn; congruence. Qed.

(** Resolving twice against the result changes nothing. *)
Lemma tui_color_inherit_idem A D :
  tui_color_inherit (tui_color_inherit A D) D = tui_color_inherit A D.
Proof.
  apply tui_color_eq;
    rewrite ?tui_color_inherit_fg, ?tui_color_inherit_bg;
    [destruct (fg D =? COLOR_NONE) | destruct (bg D =? COLOR_NONE)]; reflexivity.
Qed.

(** C1: [tui_color_inherit A D] takes each channel from [A] when [D]'s is
    NONE and from [D] otherwise, the two channels independently; so
    resolving [{NONE, NONE}] gives [A] back, and resolving a color with
    two concrete channels gives that color whatever [A] is. *)
Theorem tui_color_inherit_per_channel A D :
  fg (tui_color_inherit A D) = (if fg D =? COLOR_NONE then fg A else fg D)
  /\ bg (tui_color_inherit A D) = (if bg D =? COLOR_NONE then bg A else bg D)
  /\ tui_color_inherit A TUI_COLOR_NONE = A
  /\ (forall X Y, X <> COLOR_NONE -> Y <> COLOR_NONE ->
      tui_color_inherit A (mk_color X Y) = mk_color X Y).
Proof.
  split; [apply tui_color_inherit_fg|].
  split; [apply tui_color_inherit_bg|].
  split.
  - apply tui_color_eq; rewrite ?tui_color_inherit_fg, ?tui_color_inherit_bg;
      reflexivity.
  - intros X Y HX HY.
    apply tui_color_eq; rewrite ?tui_color_inherit_fg, ?tui_color_inherit_bg;
      cbn [fg bg].
    + destruct (Z.eqb_spec X COLOR_NONE); [contradiction | reflexivity].
    + destruct (Z.eqb_spec Y COLOR_NONE); [contradiction | reflexivity].
Qed.

(** The ancestor is white on default, the window declares a red
    background: white on red. *)
Lemma tui_color_inherit_per_channel_witness :
  tui_color_inherit (mk_color 7 (-1)) (mk_color (-1) 1) = mk_color 7 1
  /\ tui_color_inherit (mk_color 7 (-1)) (mk_color 2 4) = mk_color 2 4.
Proof.
  split; [reflexivity |].
  apply (tui_color_inherit_per_channel (mk_color 7 (-1)) (mk_color 2 4));
    unfold COLOR_NONE; lia.
Defined.

(** What [tui_color_on] followed by [tui_color_off] does to the world. *)
Lemma tui_color_on_off_run C (w : world) :
  (tui_color_on C;; tui_color_off C) w =
  Some (tt, mk_world TUI_COLOR_NONE
              (calls w ++ [Eattron (tui_ncurses_color_get (tui_color_inherit (active w) C));
                           Eattroff (tui_ncurses_color_get (tui_color_inherit (active w) C))])).
Proof.
  unfold tui_color_on, tui_color_off, mbind, M_bind, bind, get_color, call, set_color.
  cbn. rewrite tui_color_inherit_idem, <- app_assoc. reflexivity.
Qed.

(** C2, as the code has it: after [tui_color_on C] and [tui_color_off C]
    the active color is [{NONE, NONE}] whatever it was before, and the
    pair turned off is the pair that was turned on; the color that was
    active before is back only if it was [{NONE, NONE}]. *)
Theorem tui_color_on_off_resets C (w : world) :
  exists w',
    (tui_color_on C;; tui_color_off C) w = Some (tt, w')
    /\ active w' = TUI_COLOR_NONE
    /\ (active w' = active w <-> active w = TUI_COLOR_NONE)
    /\ calls w' =
       calls w ++ [Eattron (tui_ncurses_color_get (tui_color_inherit (active w) C));
                   Eattroff (tui_ncurses_color_get (tui_color_inherit (active w) C))].
Proof.
  eexists. split; [apply tui_color_on_off_run|]. cbn.
  repeat split; congruence.
Qed.

(** C2 fails as stated: with white on black active, turning red on and
    off leaves [{NONE, NONE}] active, not white on black. *)
Lemma tui_color_on_off_not_restoring :
  exists w',
    (tui_color_on (mk_color 1 (-1));; tui_color_off (mk_color 1 (-1)))
      (mk_world (mk_color 7 0) []) = Some (tt, w')
    /\ active w' <> mk_color 7 0.
Proof. eexists. split; [vm_compute; reflexivity | discriminate]. Qed.

End color_facts.

(** ** Event dispatch *)

Section dispatch_facts.

(** C8, as the code has it: [tui_event] returns at once; it calls no
    handler, neither the tui's nor a menu's nor a window's, and leaves
    the tui as it is. *)
Theorem tui_event_calls_no_handler (tui : tui_t) (key : Z) :
  (tui_event tui key).1 = tui
  /\ (tui_event tui key).2 = []
  /\ handlers_called (tui_event tui key).2 = [].
Proof. repeat split. Qed.

(** C8 fails as stated: on a tui whose own handler is set, the
    documented dispatch calls that handler and [tui_event] does not. *)
Lemma tui_event_skips_root_handler :
  handlers_called (documented_dispatch tui_with_handler 10).2 = [("tui"%string, 10)]
  /\ handlers_called (tui_event tui_with_handler 10).2 = [].
Proof. split; reflexivity. Qed.

End dispatch_facts.

(** ** Destruction *)

Section lifecycle_facts.

Lemma tui_window_free_nulls (window : ref tui_win) :
  (tui_window_free window).1 = nulled window.
Proof. destruct window as [[live|]|]; reflexivity. Qed.

Lemma tui_menu_free_nulls (menu : ref tui_menu_t) :
  (tui_menu_free menu).1 = nulled menu.
Proof. destruct menu as [[live|]|]; reflexivity. Qed.

Lemma tui_delete_nulls (tui : ref tui_t) :
  (tui_delete tui).1 = nulled tui.
Proof.
  destruct tui as [[live|]|]; try reflexivity.
  unfold tui_delete. destruct (menus_free_loop _ _ _). reflexivity.
Qed.

(** C9: [tui_window_free], [tui_menu_free] and [tui_delete] leave NULL in
    the caller's handle; called with a NULL pointer, or again with the
    handle they left, they make no call and change nothing. *)
Theorem destroy_nulls_handle_then_noop :
  (forall window : ref tui_win,
      (tui_window_free window).1 = nulled window
      /\ tui_window_free (tui_window_free window).1 = ((tui_window_free window).1, []))
  /\ (forall menu : ref tui_menu_t,
      (tui_menu_free menu).1 = nulled menu
      /\ tui_menu_free (tui_menu_free menu).1 = ((tui_menu_free menu).1, []))
  /\ (forall tui : ref tui_t,
      (tui_delete tui).1 = nulled tui
      /\ tui_delete (tui_delete tui).1 = ((tui_delete tui).1, []))
  /\ tui_window_free None = (None, [])
  /\ tui_menu_free None = (None, [])
  /\ tui_delete None = (None, []).
Proof.
  split; [|split; [|split]].
  - intros window. rewrite tui_window_free_nulls.
    split; [reflexivity | destruct window; reflexivity].
  - intros menu. rewrite tui_menu_free_nulls.
    split; [reflexivity | destruct menu; reflexivity].
  - intros tui. rewrite tui_delete_nulls.
    split; [reflexivity | destruct tui; reflexivity].
  - repeat split.
Qed.

End lifecycle_facts.

Section windows_free_facts.

(** The loop of [tui_windows_free] makes the calls of [tui_window_free]
    on the slots from [index] on, in order, and keeps the length. *)
Lemma windows_free_loop_calls fuel : forall windows index,
  (length windows <= index + fuel)%nat ->
  (windows_free_loop windows index fuel).2
  = children_free window_free_calls (drop index windows)
  /\ length (windows_free_loop windows index fuel).1 = length windows.
Proof.
  induction fuel as [|fuel IH]; intros windows index Hfuel; cbn [windows_free_loop].
  - rewrite drop_ge by lia. split; reflexivity.
  - destruct (windows !! index) as [slot|] eqn:Hslot.
    + destruct (IH (<[index := default None (tui_window_free (Some slot)).1]> windows)
                   (S index)) as (Hcalls & Hlen).
      { rewrite length_insert. lia. }
      rewrite drop_insert_lt, length_insert in * by lia.
      rewrite (drop_S _ _ _ Hslot). cbn [children_free].
      destruct (tui_window_free (Some slot)) as [slot' calls] eqn:Hfree.
      destruct (windows_free_loop _ _ _) as [windows' calls'] eqn:Hloop.
      cbn [fst snd] in *. subst calls'. split; [|exact Hlen].
      destruct slot as [window|]; cbn in Hfree; injection Hfree as <- <-; reflexivity.
    + apply lookup_ge_None in Hslot. rewrite drop_ge by lia. split; reflexivity.
Qed.

(** [tui_windows_free] leaves an empty array and makes the calls of
    [tui_window_free] on every slot, then frees the array. *)
Lemma tui_windows_free_calls windows :
  tui_windows_free windows
  = ([], children_free window_free_calls windows
         ++ [Efree (Block_array (length windows))]).
Proof.
  unfold tui_windows_free.
  destruct (windows_free_loop_calls (length windows) windows 0) as (Hcalls & Hlen);
    [lia|].
  destruct (windows_free_loop windows 0 (length windows)) as [windows' calls].
  cbn [fst snd] in *. rewrite Hcalls, Hlen, drop_0. reflexivity.
Qed.

End windows_free_facts.

(** ** Text reflow: the height of wrapped text *)

Section h_get_facts.

Variable text : text_t.
Variable max_w : Z.

Lemma h_body_inv (s s' : h_state) :
  h_inv text s -> (h_index s < length text)%nat ->
  h_body text max_w s = H_next s' ->
  h_inv text s' /\ h_measure text s' < h_measure text s /\ h_h s <= h_h s'.
Proof.
  unfold h_inv, h_measure, h_body.
  destruct s as [index h line_w space last]; cbn.
  intros (Hlast & Hspace & _) Hindex.
  destruct (is_char _ SPACE), (is_char _ NEWLINE);
    repeat match goal with
      | |- context [if ?b then _ else _] => destruct b eqn:?
      end;
    intros [= <-]; cbn; try discriminate; repeat split; try lia; try nia.
Qed.

(** With fuel above the measure the loop ends, on -1 or on a height that
    is at least the running one. *)
Lemma h_loop_ends (fuel : nat) (s : h_state) :
  h_inv text s -> h_measure text s < Z.of_nat fuel ->
  exists r, h_loop fuel text max_w s = Some r /\ (r = -1 \/ h_h s <= r).
Proof.
  revert s. induction fuel as [|fuel IH]; intros s Hinv Hfuel.
  - unfold h_inv, h_measure in *. nia.
  - cbn [h_loop]. destruct (Nat.ltb_spec (h_index s) (length text)) as [Hlt|Hge].
    + destruct (h_body text max_w s) as [s'|r] eqn:Hbody.
      * destruct (h_body_inv s s' Hinv Hlt Hbody) as (Hinv' & Hdec & Hh).
        destruct (IH s' Hinv') as (r & Hr & Hres); [lia|].
        exists r. split; [exact Hr | lia].
      * unfold h_body in Hbody.
        repeat match type of Hbody with
          | context [if ?b then _ else _] => destruct b
          end; inversion Hbody; subst. eauto.
    + exists (h_h s). split; [reflexivity | lia].
Qed.

Lemma h_init_inv : h_inv text h_init.
Proof. unfold h_inv, h_init; cbn. lia. Qed.

(** [tui_text_h_get] always returns: the fuel of the model is enough. *)
Lemma tui_text_h_get_returns :
  tui_text_h_get_run text max_w = Some (tui_text_h_get text max_w)
  /\ (tui_text_h_get text max_w = -1 \/ 1 <= tui_text_h_get text max_w).
Proof.
  unfold tui_text_h_get, tui_text_h_get_run.
  destruct (h_loop_ends (h_fuel text) h_init h_init_inv) as (r & -> & Hr).
  - unfold h_measure, h_fuel, h_init; cbn [h_last_space_index h_index]. nia.
  - split; [reflexivity | exact Hr].
Qed.

End h_get_facts.

(** C10: when [tui_text_h_get] succeeds its result is at least 1, and the
    empty string has height 1 at every width. *)
Theorem tui_text_h_get_positive :
  (forall (text : text_t) (max_w : Z),
      tui_text_h_get text max_w <> -1 -> 1 <= tui_text_h_get text max_w)
  /\ (forall max_w : Z,
      tui_text_h_get_run [] max_w = Some 1 /\ tui_text_h_get [] max_w = 1).
Proof.
  split.
  - intros text max_w Hok.
    destruct (tui_text_h_get_returns text max_w) as [_ [Hfail|Hpos]];
      [contradiction | exact Hpos].
  - intros max_w. split; reflexivity.
Qed.

(** "one two three" at width 7 has the two lines "one two" and "three". *)
Lemma tui_text_h_get_positive_witness :
  tui_text_h_get (str "one two three") 7 = 2
  /\ 1 <= tui_text_h_get (str "one two three") 7.
Proof.
  split; [reflexivity|].
  apply (proj1 tui_text_h_get_positive (str "one two three") 7).
  vm_compute. discriminate.
Defined.

(** ** Text reflow: a word longer than the width *)

Lemma is_word_char_spec c :
  is_word_char c = true <-> is_char c SPACE = false /\ is_char c NEWLINE = false.
Proof.
  unfold is_word_char. destruct (is_char c SPACE), (is_char c NEWLINE); cbn; intuition congruence.
Qed.

Section overlong.
Variable text : text_t.
Variable max_w : Z.
Variable a : nat.
Hypothesis Hw : 0 <= max_w.
Hypothesis Hword : word_at text a (S (Z.to_nat max_w)).

Lemma word_char_at j :
  (a <= j)%nat -> Z.of_nat j <= Z.of_nat a + max_w ->
  (j < length text)%nat /\ is_char (char_at text j) SPACE = false
  /\ is_char (char_at text j) NEWLINE = false.
Proof.
  intros H1 H2. destruct (Hword j) as [Hlt Hc]; [lia|].
  apply is_word_char_spec in Hc. tauto.
Qed.

Lemma h_body_word_inv s s' :
  h_word_inv text max_w a s -> (h_index s < length text)%nat ->
  h_body text max_w s = H_next s' -> h_word_inv text max_w a s'.
Proof.
  intros (Hinv & Hlw & Hsp & Hidx & Hin) Hlt Hbody.
  destruct (h_body_inv text max_w s s' Hinv Hlt Hbody) as (Hinv' & _ & _).
  split; [exact Hinv'|]. clear Hinv'.
  unfold h_inv in Hinv. destruct Hinv as (Hl & Hs & _).
  unfold h_body in Hbody.
  destruct s as [index h line_w space last]; cbn in *.
  destruct (is_char (char_at text index) SPACE) eqn:Hspace;
  destruct (is_char (char_at text index) NEWLINE) eqn:Hnl.
  - (* a character is not both *)
    unfold is_char in *. apply Ascii.eqb_eq in Hspace, Hnl. rewrite Hspace in Hnl. discriminate.
  - (* space *)
    assert (Hout : (index < a)%nat).
    { destruct (Nat.lt_ge_cases index a) as [|Hge]; [assumption|].
      destruct (word_char_at index Hge Hidx) as (_ & Hc & _). congruence. }
    destruct (line_w >=? max_w) eqn:Hov.
    + destruct (Z.of_nat index =? last) eqn:Heq; inversion Hbody; subst; cbn.
      rewrite Nat2Z.id, Hspace. repeat split; try lia.
    + inversion Hbody; subst; cbn. rewrite Nat2Z.id, Hspace. repeat split; lia.
  - (* newline *)
    assert (Hout : (index < a)%nat).
    { destruct (Nat.lt_ge_cases index a) as [|Hge]; [assumption|].
      destruct (word_char_at index Hge Hidx) as (_ & _ & Hc). congruence. }
    inversion Hbody; subst; cbn. repeat split; try lia. exact Hsp.
  - destruct (line_w >=? max_w) eqn:Hov.
    + destruct (space =? last) eqn:Heq; inversion Hbody; subst; cbn.
      apply Z.eqb_neq in Heq.
      assert (Hpos : 0 < space) by lia.
      assert (Hout : space < Z.of_nat a).
      { destruct (Z.lt_ge_cases space (Z.of_nat a)) as [|Hge]; [assumption|].
        destruct (word_char_at (Z.to_nat space)) as (_ & Hc & _); [lia|lia|].
        rewrite (Hsp Hpos) in Hc. discriminate. }
      repeat split; try lia. intros _. apply Hsp, Hpos.
    + inversion Hbody; subst; cbn. apply Z.geb_leb in Hov || idtac.
      assert (line_w < max_w) by (destruct (Z.geb_spec line_w max_w); [discriminate | lia]).
      repeat split; try lia. exact Hsp.
Qed.

Lemma h_loop_word_fails fuel s r :
  h_word_inv text max_w a s ->
  h_loop fuel text max_w s = Some r -> r = -1.
Proof.
  revert s. induction fuel as [|fuel IH]; intros s Hinv; cbn [h_loop].
  - destruct (Nat.ltb_spec (h_index s) (length text)) as [Hlt|Hge]; [discriminate|].
    destruct Hinv as (_ & _ & _ & Hidx & _).
    destruct (word_char_at (a + Z.to_nat max_w)%nat) as (Hlen & _); lia.
  - destruct (Nat.ltb_spec (h_index s) (length text)) as [Hlt|Hge].
    + destruct (h_body text max_w s) as [s'|r'] eqn:Hbody.
      * apply IH. eapply h_body_word_inv; eassumption.
      * intros [= <-]. unfold h_body in Hbody.
        repeat match type of Hbody with
          | context [if ?b then _ else _] => destruct b
          end; inversion Hbody; reflexivity.
    + destruct Hinv as (_ & _ & _ & Hidx & _).
      destruct (word_char_at (a + Z.to_nat max_w)%nat) as (Hlen & _); lia.
Qed.

(** A word longer than the width makes [tui_text_h_get] fail. *)
Lemma tui_text_h_get_long_word : tui_text_h_get text max_w = -1.
Proof.
  destruct (tui_text_h_get_returns text max_w) as [Hrun _].
  eapply h_loop_word_fails; [|exact Hrun].
  split; [apply h_init_inv|]. cbn. repeat split; lia.
Qed.

End overlong.


(** ** Counting characters *)

Section counting.
Variable text : text_t.

Lemma lookup_char_at i : (i < length text)%nat -> text !! i = Some (char_at text i).
Proof.
  intros Hlt. unfold char_at. rewrite nth_lookup.
  destruct (lookup_lt_is_Some_2 text i Hlt) as [c ->]. reflexivity.
Qed.

Lemma count_char_app c (l l' : text_t) :
  count_char c (l ++ l') = (count_char c l + count_char c l')%nat.
Proof. unfold count_char. rewrite filter_app, length_app. reflexivity. Qed.

Lemma count_upto_S c i :
  (i < length text)%nat ->
  count_upto c text (S i)
  = (count_upto c text i + if is_char (char_at text i) c then 1 else 0)%nat.
Proof.
  intros Hlt. unfold count_upto.
  rewrite (take_S_r _ _ _ (lookup_char_at i Hlt)), count_char_app.
  f_equal. unfold count_char.
  destruct (is_char (char_at text i) c) eqn:Hc.
  - rewrite filter_cons_True by exact Hc. reflexivity.
  - rewrite filter_cons_False by congruence. reflexivity.
Qed.

Lemma count_upto_0 c : count_upto c text 0 = 0%nat.
Proof. reflexivity. Qed.

Lemma count_upto_all c i :
  (length text <= i)%nat -> count_upto c text i = count_char c text.
Proof. intros Hge. unfold count_upto. rewrite take_ge by lia. reflexivity. Qed.

Lemma count_upto_mono c i j :
  (i <= j)%nat -> (count_upto c text i <= count_upto c text j)%nat.
Proof.
  induction 1 as [|j Hle IH]; [lia|].
  destruct (Nat.lt_ge_cases j (length text)) as [Hlt|Hge].
  - rewrite count_upto_S by exact Hlt. lia.
  - rewrite (count_upto_all c (S j)) by lia.
    rewrite <- (count_upto_all c j) by lia. exact IH.
Qed.

(** No character [c] between [i] and [j]: the counts agree. *)
Lemma count_upto_none c i j :
  (i <= j)%nat ->
  (forall k, (i <= k < j)%nat -> is_char (char_at text k) c = false) ->
  count_upto c text j = count_upto c text i.
Proof.
  induction 1 as [|j Hle IH]; intros Hnone; [reflexivity|].
  destruct (Nat.lt_ge_cases j (length text)) as [Hlt|Hge].
  - rewrite count_upto_S by exact Hlt. rewrite (Hnone j) by lia.
    rewrite IH; [lia|]. intros k Hk. apply Hnone. lia.
  - rewrite count_upto_all by lia. rewrite <- IH.
    + rewrite count_upto_all by lia. reflexivity.
    + intros k Hk. apply Hnone. lia.
Qed.

End counting.

(** ** Text reflow: heights and newlines *)

Section h_lower.
Variable text : text_t.
Variable max_w : Z.

Lemma h_body_count_inv s s' :
  h_inv text s -> h_count_inv text s -> (h_index s < length text)%nat ->
  h_body text max_w s = H_next s' -> h_count_inv text s'.
Proof.
  unfold h_inv, h_count_inv, h_body.
  destruct s as [index h line_w space last]; simpl_h.
  intros (Hlast & Hspace & _) Hcount Hindex.
  destruct (is_char (char_at text index) NEWLINE) eqn:Hnl.
  - intros [= <-]; simpl_h. rewrite count_upto_S, Hnl by exact Hindex. lia.
  - destruct (line_w >=? max_w).
    + destruct (_ =? last); intros [= <-]; simpl_h.
      assert (Hmono := count_upto_mono text NEWLINE
        (S (Z.to_nat (if is_char (char_at text index) SPACE then Z.of_nat index else space)))
        (S index)).
      rewrite (count_upto_S text NEWLINE index), Hnl in Hmono by exact Hindex.
      destruct (is_char (char_at text index) SPACE); lia.
    + intros [= <-]; simpl_h. rewrite count_upto_S, Hnl by exact Hindex. lia.
Qed.

Lemma h_loop_lower fuel : forall s r,
  h_inv text s -> h_count_inv text s ->
  h_loop fuel text max_w s = Some r -> r = -1 \/ 1 + Z.of_nat (count_char NEWLINE text) <= r.
Proof.
  induction fuel as [|fuel IH]; intros s r Hinv Hcount; cbn [h_loop];
    destruct (Nat.ltb_spec (h_index s) (length text)) as [Hlt|Hge]; try discriminate.
  - intros [= <-]. right. unfold h_count_inv in Hcount.
    rewrite count_upto_all in Hcount by lia. exact Hcount.
  - destruct (h_body text max_w s) as [s'|r'] eqn:Hbody.
    + destruct (h_body_inv text max_w s s' Hinv Hlt Hbody) as (Hinv' & _ & _).
      apply IH; [exact Hinv'|]. exact (h_body_count_inv s s' Hinv Hcount Hlt Hbody).
    + intros [= <-]. left. unfold h_body in Hbody.
      repeat match type of Hbody with
        | context [if ?b then _ else _] => destruct b
        end; inversion Hbody; reflexivity.
  - intros [= <-]. right. unfold h_count_inv in Hcount.
    rewrite count_upto_all in Hcount by lia. exact Hcount.
Qed.

(** A height is at least the number of newlines plus one. *)
Lemma tui_text_h_get_lower :
  tui_text_h_get text max_w <> -1 ->
  1 + Z.of_nat (count_char NEWLINE text) <= tui_text_h_get text max_w.
Proof.
  intros Hok. destruct (tui_text_h_get_returns text max_w) as [Hrun _].
  assert (Hcount : h_count_inv text h_init) by (unfold h_count_inv; simpl_h; rewrite count_upto_0; lia).
  destruct (h_loop_lower _ _ _ (h_init_inv text) Hcount Hrun);
    [contradiction | assumption].
Qed.

End h_lower.

Section h_wide.
Variable text : text_t.
Variable max_w : Z.
Hypothesis Hwide : Z.of_nat (length text) <= max_w.

Lemma h_loop_wide fuel : forall s r,
  h_wide_inv text s ->
  h_loop fuel text max_w s = Some r -> r = 1 + Z.of_nat (count_char NEWLINE text).
Proof.
  induction fuel as [|fuel IH]; intros s r (Hlw & Hh); cbn [h_loop];
    destruct (Nat.ltb_spec (h_index s) (length text)) as [Hlt|Hge]; try discriminate.
  - intros [= <-]. rewrite Hh, count_upto_all by lia. reflexivity.
  - unfold h_body. destruct s as [index h line_w space last]; simpl_h.
    destruct (is_char (char_at text index) NEWLINE) eqn:Hnl.
    + apply IH. split; simpl_h; [lia|]. rewrite count_upto_S, Hnl by exact Hlt. lia.
    + destruct (Z.geb_spec line_w max_w) as [Hov|_]; [lia|].
      apply IH. split; simpl_h; [lia|]. rewrite count_upto_S, Hnl by exact Hlt. lia.
  - intros [= <-]. rewrite Hh, count_upto_all by lia. reflexivity.
Qed.

Lemma tui_text_h_get_wide :
  tui_text_h_get text max_w = 1 + Z.of_nat (count_char NEWLINE text).
Proof.
  destruct (tui_text_h_get_returns text max_w) as [Hrun _].
  eapply h_loop_wide; [|exact Hrun]. split; simpl_h; rewrite ?count_upto_0; lia.
Qed.

End h_wide.


(** ** Text reflow: the binary search for the width *)

Section w_get_facts.
Variable text : text_t.
Variable h : Z.

Lemma w_body_inv s :
  w_inv text h s -> w_left s <= w_right s ->
  w_inv text h (w_body text h s)
  /\ w_right (w_body text h s) - w_left (w_body text h s) < w_right s - w_left s.
Proof.
  unfold w_inv, w_body. destruct s as [left right min_w]; simpl_w.
  intros (Hleft & Hright & Hmin) Hle.
  assert (Hmid : left <= (left + right) ÷ 2 <= right).
  { rewrite Z.quot_div_nonneg by lia. split.
    - apply Z.div_le_lower_bound; lia.
    - apply Z.div_le_upper_bound; lia. }
  destruct (Z.eqb_spec (tui_text_h_get text ((left + right) ÷ 2)) (-1)) as [Hfail|Hok]; simpl_w.
  - repeat split; try lia. exact Hmin.
  - destruct (Z.gtb_spec (tui_text_h_get text ((left + right) ÷ 2)) h) as [Hgt|Hle']; simpl_w.
    + repeat split; try lia. exact Hmin.
    + repeat split; try lia. right. unfold feasible. lia.
Qed.

Lemma w_loop_ends fuel : forall s,
  w_inv text h s -> w_right s - w_left s + 1 < Z.of_nat fuel ->
  exists r, w_loop fuel text h s = Some r
    /\ (r = Z.of_nat (length text)
        \/ (1 <= r <= Z.of_nat (length text) /\ feasible text h r)).
Proof.
  induction fuel as [|fuel IH]; intros s Hinv Hfuel; cbn [w_loop].
  - destruct (Z.leb_spec (w_left s) (w_right s)); [lia|].
    exists (w_min_w s). split; [reflexivity | apply Hinv].
  - destruct (Z.leb_spec (w_left s) (w_right s)) as [Hle|Hgt].
    + destruct (w_body_inv s Hinv Hle) as (Hinv' & Hdec).
      apply IH; [exact Hinv' | lia].
    + exists (w_min_w s). split; [reflexivity | apply Hinv].
Qed.

(** [tui_text_w_get] always returns; its result is the length of the
    text or a width between 1 and the length at which the text wraps
    into at most [h] lines. *)
Lemma tui_text_w_get_returns :
  tui_text_w_get_run text h = Some (tui_text_w_get text h)
  /\ (tui_text_w_get text h = Z.of_nat (length text)
      \/ (1 <= tui_text_w_get text h <= Z.of_nat (length text)
          /\ feasible text h (tui_text_w_get text h))).
Proof.
  unfold tui_text_w_get, tui_text_w_get_run.
  destruct (w_loop_ends (S (length text)) (w_init text)) as (r & -> & Hr).
  - unfold w_inv; simpl_w. lia.
  - simpl_w. lia.
  - split; [reflexivity | exact Hr].
Qed.

End w_get_facts.


(** ** Text reflow: the loop of the line widths *)

Section ws_basic.
Variable text : text_t.
Variable max_w h : Z.

Lemma ws_store_length ws i v ws' :
  ws_store ws i v = Some ws' -> length ws' = length ws.
Proof.
  unfold ws_store. destruct (_ && _); [|discriminate].
  intros [= <-]. apply length_insert.
Qed.

Lemma ws_store_in_range ws i v :
  0 <= i < Z.of_nat (length ws) -> ws_store ws i v = Some (<[Z.to_nat i := Some v]> ws).
Proof.
  intros Hi. unfold ws_store.
  destruct (Z.leb_spec 0 i); [|lia]. destruct (Z.ltb_spec i (Z.of_nat (length ws))); [|lia].
  reflexivity.
Qed.

Lemma ws_store_Some ws i v ws' :
  ws_store ws i v = Some ws' ->
  0 <= i < Z.of_nat (length ws) /\ ws' = <[Z.to_nat i := Some v]> ws.
Proof.
  unfold ws_store.
  destruct (Z.leb_spec 0 i); [|discriminate].
  destruct (Z.ltb_spec i (Z.of_nat (length ws))); [|discriminate].
  intros [= <-]. split; [lia | reflexivity].
Qed.

(** A pass keeps the state in range and decreases the measure. *)
Lemma ws_body_ok s s' :
  ws_ok text h s -> (ws_index s < length text)%nat -> ws_line_index s < h ->
  ws_body text max_w s = Some s' ->
  ws_ok text h s' /\ ws_measure text h s' < ws_measure text h s
  /\ ws_space_index s <= ws_space_index s'
  /\ ws_line_index s <= ws_line_index s' <= ws_line_index s + 1.
Proof.
  unfold ws_ok, ws_measure, ws_body.
  destruct s as [index li lw si ws]; simpl_ws.
  intros (Hli & Hlw & Hidx & Hsi & Hlen) Hlt Hguard.
  set (si' := if is_char (char_at text index) SPACE then Z.of_nat index else si).
  assert (Hsi' : si <= si' <= Z.of_nat index) by (subst si'; destruct (is_char _ SPACE); lia).
  clearbody si'.
  destruct (is_char (char_at text index) SPACE && (lw =? 0)); cbn [mbind option_bind].
  { simpl_ws.
    destruct (index + 1 =? length text)%nat; cbn [mbind option_bind].
    - destruct (ws_store ws li 0) as [ws'|] eqn:Hst; [|discriminate]. cbn.
      apply ws_store_length in Hst.
      intros [= <-]; simpl_ws. repeat split; try lia; nia.
    - intros [= <-]; simpl_ws. repeat split; try lia; nia. }
  destruct (is_char (char_at text index) NEWLINE).
  { destruct (ws_store ws li lw) as [ws1|] eqn:Hst1; [|discriminate].
    cbn [mbind option_bind]. simpl_ws. apply ws_store_length in Hst1.
    destruct (index + 1 =? length text)%nat; cbn [mbind option_bind].
    - destruct (ws_store ws1 (li + 1) 0) as [ws'|] eqn:Hst; [|discriminate]. cbn.
      apply ws_store_length in Hst.
      intros [= <-]; simpl_ws. repeat split; try lia; nia.
    - intros [= <-]; simpl_ws. repeat split; try lia; nia. }
  destruct (lw >=? max_w).
  { destruct (ws_store ws li _) as [ws1|] eqn:Hst1; [|discriminate].
    cbn [mbind option_bind]. simpl_ws. apply ws_store_length in Hst1.
    destruct (Z.to_nat si' + 1 =? length text)%nat; cbn [mbind option_bind].
    - destruct (ws_store ws1 (li + 1) 0) as [ws'|] eqn:Hst; [|discriminate]. cbn.
      apply ws_store_length in Hst.
      intros [= <-]; simpl_ws. repeat split; try lia; nia.
    - intros [= <-]; simpl_ws. repeat split; try lia; nia. }
  cbn [mbind option_bind]. simpl_ws.
  destruct (index + 1 =? length text)%nat; cbn [mbind option_bind].
  - destruct (ws_store ws li (lw + 1)) as [ws'|] eqn:Hst; [|discriminate]. cbn.
    apply ws_store_length in Hst.
    intros [= <-]; simpl_ws. repeat split; try lia; nia.
  - intros [= <-]; simpl_ws. repeat split; try lia; nia.
Qed.

(** With fuel above the measure the loop ends. *)
Lemma ws_loop_ends fuel : forall s,
  ws_ok text h s -> ws_measure text h s < Z.of_nat fuel ->
  exists r, ws_loop fuel text max_w h s = Some r.
Proof.
  induction fuel as [|fuel IH]; intros s Hok Hfuel; cbn [ws_loop].
  - destruct (Nat.ltb_spec (ws_index s) (length text)) as [Hlt|Hge];
      destruct (Z.ltb_spec (ws_line_index s) h) as [Hli|Hli]; cbn [andb]; eauto.
    unfold ws_ok, ws_measure in *. nia.
  - destruct (Nat.ltb_spec (ws_index s) (length text)) as [Hlt|Hge];
      destruct (Z.ltb_spec (ws_line_index s) h) as [Hli|Hli]; cbn [andb]; eauto.
    destruct (ws_body text max_w s) as [s'|] eqn:Hbody; [|eauto].
    destruct (ws_body_ok s s' Hok Hlt Hli Hbody) as (Hok' & Hdec & _).
    apply IH; [exact Hok' | lia].
Qed.

(** More fuel does not change a result. *)
Lemma ws_loop_more_fuel fuel : forall fuel' s r,
  (fuel <= fuel')%nat ->
  ws_loop fuel text max_w h s = Some r -> ws_loop fuel' text max_w h s = Some r.
Proof.
  induction fuel as [|fuel IH]; intros fuel' s r Hle.
  - cbn [ws_loop].
    destruct ((ws_index s <? length text)%nat && (ws_line_index s <? h)) eqn:Hguard;
      [discriminate|].
    intros [= <-]. destruct fuel'; cbn [ws_loop]; rewrite Hguard; reflexivity.
  - destruct fuel' as [|fuel']; [lia|]. cbn [ws_loop].
    destruct (_ && _); [|auto].
    destruct (ws_body text max_w s); [|auto]. apply IH. lia.
Qed.

End ws_basic.


Section sum_written_facts.

Lemma sum_written_insert (ws : ws_table) (k : nat) (v : Z) :
  (k < length ws)%nat -> mjoin (ws !! k) = None ->
  sum_written (<[k := Some v]> ws) = sum_written ws + v.
Proof.
  revert k. induction ws as [|entry ws IH]; intros k Hlt Hnone; cbn in Hlt; [lia|].
  destruct k as [|k]; cbn in Hnone |- *.
  - subst entry. cbn. lia.
  - fold (sum_written ws). fold (sum_written (<[k:=Some v]> ws)).
    rewrite IH by (try lia; assumption). destruct entry; cbn; lia.
Qed.

Lemma sum_written_replicate n : sum_written (replicate n None) = 0.
Proof. induction n as [|n IH]; cbn; [reflexivity | exact IH]. Qed.

End sum_written_facts.

Section runs.
Variable text : text_t.

(** Characters that are neither newlines nor, all of them, word
    characters: one of them is a space. *)
Lemma space_in_range (from count : nat) :
  (from + count <= length text)%nat ->
  (forall j, (from <= j < from + count)%nat -> is_char (char_at text j) NEWLINE = false) ->
  word_at text from count
  \/ exists j, (from <= j < from + count)%nat /\ is_char (char_at text j) SPACE = true.
Proof.
  induction count as [|count IH]; intros Hlen Hnl.
  - left. intros j Hj. lia.
  - destruct IH as [Hword | (j & Hj & Hsp)]; [lia | intros j Hj; apply Hnl; lia | |].
    + destruct (is_char (char_at text (from + count)) SPACE) eqn:Hsp.
      * right. exists (from + count)%nat. split; [lia | exact Hsp].
      * left. intros j Hj.
        destruct (Nat.eq_dec j (from + count)%nat) as [->|Hne].
        -- split; [lia|]. apply is_word_char_spec. split; [exact Hsp | apply Hnl; lia].
        -- apply Hword. lia.
    + right. exists j. split; [lia | exact Hsp].
Qed.

End runs.


(** ** Text reflow: what the line widths account for *)

Lemma space_not_newline c : is_char c SPACE = true -> is_char c NEWLINE = false.
Proof.
  unfold is_char. intros Hc. apply Ascii.eqb_eq in Hc. subst c. reflexivity.
Qed.

Section ws_account.
Variable text : text_t.
Variable max_w h : Z.
Hypothesis Hw : 1 <= max_w.
Hypothesis Hwords : no_long_word text max_w.

#[local] Abbreviation n := (length text).
#[local] Abbreviation Nt := (Z.of_nat (count_char NEWLINE text)).
#[local] Abbreviation N k := (Z.of_nat (count_upto NEWLINE text k)).

(** The store of the last line's width at the end of a pass. *)
Lemma ws_last_store (ws1 ws' : ws_table) (index1 : nat) (li1 lw1 si1 : Z) :
  (S index1 <= n)%nat ->
  (forall j, Z.of_nat j >= li1 -> mjoin (ws1 !! j) = None) ->
  (if (index1 + 1 =? n)%nat then ws_store ws1 li1 lw1 else Some ws1) = Some ws' ->
  ws_potential text (mk_ws_state (S index1) li1 lw1 si1 ws')
  = sum_written ws1 + lw1 + (Z.of_nat n - Z.of_nat (S index1)) - (Nt - N (S index1))
  /\ ((S index1 < n)%nat -> ws' = ws1).
Proof.
  intros Hle Hfresh. unfold ws_potential; simpl_ws.
  destruct (Nat.eqb_spec (index1 + 1) n) as [Hlast|Hmore].
  - intros Hstore. apply ws_store_Some in Hstore as (Hrange & ->).
    destruct (Nat.ltb_spec (S index1) n) as [|_]; [lia|].
    rewrite sum_written_insert by (try lia; apply Hfresh; lia).
    rewrite count_upto_all by lia.
    split; [lia | intros; lia].
  - intros [= <-]. destruct (Nat.ltb_spec (S index1) n) as [_|]; [|lia].
    split; [lia | reflexivity].
Qed.

Lemma ws_store_fresh (ws ws1 : ws_table) (li v : Z) :
  (forall j, Z.of_nat j >= li -> mjoin (ws !! j) = None) ->
  ws_store ws li v = Some ws1 ->
  sum_written ws1 = sum_written ws + v
  /\ (forall j, Z.of_nat j >= li + 1 -> mjoin (ws1 !! j) = None).
Proof.
  intros Hfresh Hstore. apply ws_store_Some in Hstore as (Hrange & ->). split.
  - apply sum_written_insert; [lia | apply Hfresh; lia].
  - intros j Hj. rewrite list_lookup_insert_ne by lia. apply Hfresh. lia.
Qed.

(** A pass keeps the invariant; the potential drops by one exactly when
    the pass leaves a space out, and that space is one of those left. *)
Lemma ws_body_account s s' :
  ws_inv text h s -> (ws_index s < n)%nat -> ws_line_index s < h ->
  ws_body text max_w s = Some s' ->
  ws_inv text h s'
  /\ ws_potential text s'
     = ws_potential text s - (if ws_skips text max_w s then 1 else 0)
  /\ (if ws_skips text max_w s then 1 else 0) + ws_spaces_left text s'
     <= ws_spaces_left text s.
Proof.
  intros Hinv Hlt Hguard Hbody.
  destruct (ws_body_ok text max_w h s s' (proj1 Hinv) Hlt Hguard Hbody)
    as (Hok' & _ & _ & _).
  destruct Hinv as (Hok & Hline & Hlatest & Hfresh). specialize (Hfresh Hlt).
  unfold ws_inv. unfold ws_ok in Hok.
  destruct s as [i li lw si ws]; simpl_ws.
  destruct Hok as (Hli & Hlw & Hidx & Hsi & Hlen).
  unfold ws_body in Hbody; unfold ws_skips, ws_spaces_left; simpl_ws.
  set (letter := char_at text i) in *.
  set (si' := if is_char letter SPACE then Z.of_nat i else si) in *.
  assert (Hsi' : si <= si' <= Z.of_nat i)
    by (subst si'; destruct (is_char letter SPACE); lia).
  assert (Hlatest' : forall j, (j < S i)%nat -> is_char (char_at text j) SPACE = true ->
            Z.of_nat j <= si'
            /\ is_char (char_at text (Z.to_nat si')) SPACE = true).
  { intros j Hj Hspace. subst si'.
    destruct (is_char letter SPACE) eqn:Hletter.
    - rewrite Nat2Z.id. split; [lia | exact Hletter].
    - destruct (Nat.eq_dec j i) as [->|Hne]; [fold letter in Hspace; congruence|].
      apply Hlatest; [lia | exact Hspace]. }
  assert (Hpot : ws_potential text (mk_ws_state i li lw si ws)
                 = sum_written ws + lw + (Z.of_nat n - Z.of_nat i) - (Nt - N i)).
  { unfold ws_potential; simpl_ws.
    destruct (Nat.ltb_spec i n); [lia | lia]. }
  rewrite Hpot. clear Hpot.
  assert (HSi : (S i <= n)%nat) by lia.
  assert (HNS : N (S i) = N i + if is_char letter NEWLINE then 1 else 0).
  { rewrite count_upto_S by exact Hlt. fold letter.
    destruct (is_char letter NEWLINE); lia. }
  assert (HSS : Z.of_nat (count_upto SPACE text (S i))
                = Z.of_nat (count_upto SPACE text i)
                  + if is_char letter SPACE then 1 else 0).
  { rewrite count_upto_S by exact Hlt. fold letter.
    destruct (is_char letter SPACE); lia. }
  destruct (is_char letter SPACE && (lw =? 0)) eqn:Hskip.
  { (* a space while the line is empty *)
    apply andb_true_iff in Hskip as (Hspace & Hzero). apply Z.eqb_eq in Hzero. subst lw.
    cbn [mbind option_bind] in Hbody. simpl_ws.
    apply bind_Some in Hbody as (ws' & Hstore & [= <-]).
    destruct (ws_last_store ws ws' i li 0 si' HSi Hfresh Hstore) as (Hpot' & Hsame).
    rewrite Hpot', HNS, (space_not_newline _ Hspace).
    simpl_ws. rewrite !Z.sub_0_r, !Nat2Z.id, HSS, Hspace.
    split; [|split; lia].
    split; [exact Hok'|]. split; [intros j Hj; lia|]. split; [exact Hlatest'|].
    intros Hlt' j Hj. rewrite Hsame by exact Hlt'. apply Hfresh, Hj. }
  destruct (is_char letter NEWLINE) eqn:Hnl.
  { (* a newline *)
    apply bind_Some in Hbody as (s1 & Hbranch & Hbody).
    apply bind_Some in Hbranch as (ws1 & Hstore1 & [= <-]). simpl_ws.
    apply bind_Some in Hbody as (ws' & Hstore & [= <-]).
    destruct (ws_store_fresh ws ws1 li lw Hfresh Hstore1) as (Hsum1 & Hfresh1).
    destruct (ws_last_store ws1 ws' i (li + 1) 0 si' HSi Hfresh1 Hstore)
      as (Hpot' & Hsame).
    rewrite Hpot', HNS, Hsum1. simpl_ws.
    split; [|split; [lia|]].
    - split; [exact Hok'|]. split; [intros j Hj; lia|]. split; [exact Hlatest'|].
      intros Hlt' j Hj. rewrite Hsame by exact Hlt'. apply Hfresh1, Hj.
    - assert (Hmono := count_upto_mono text SPACE (Z.to_nat (Z.of_nat i - lw))
                         (Z.to_nat (Z.of_nat (S i) - 0))).
      lia. }
  destruct (Z.geb_spec lw max_w) as [Hover|Hroom].
  { (* the line is full *)
    apply bind_Some in Hbody as (s1 & Hbranch & Hbody).
    apply bind_Some in Hbranch as (ws1 & Hstore1 & [= <-]). simpl_ws.
    apply bind_Some in Hbody as (ws' & Hstore & [= <-]).
    destruct (ws_store_fresh ws ws1 li _ Hfresh Hstore1) as (Hsum1 & Hfresh1).
    (* the line holds a space *)
    assert (Hspace : exists j, Z.of_nat i - lw <= Z.of_nat j <= Z.of_nat i
                               /\ is_char (char_at text j) SPACE = true).
    { destruct (space_in_range text (Z.to_nat (Z.of_nat i - lw)) (S (Z.to_nat max_w)))
        as [Hword | (j & Hj & Hspace)].
      - lia.
      - intros j Hj. destruct (Nat.eq_dec j i) as [->|Hne]; [exact Hnl|].
        apply Hline. lia.
      - destruct (Hwords _ Hword).
      - exists j. split; [lia | exact Hspace]. }
    destruct Hspace as (j & Hj & Hspace).
    assert (Hjlt : (j < S i)%nat) by lia.
    destruct (Hlatest' j Hjlt Hspace) as (Hjle & Hspace').
    set (i1 := Z.to_nat si') in *.
    assert (HSi1 : (S i1 <= n)%nat) by lia.
    destruct (ws_last_store ws1 ws' i1 (li + 1) 0 si' HSi1 Hfresh1 Hstore)
      as (Hpot' & Hsame).
    rewrite Hpot', Hsum1. simpl_ws.
    assert (HN1 : N (S i1) = N i).
    { destruct (Nat.eq_dec i1 i) as [->|Hne].
      - rewrite HNS. lia.
      - f_equal. symmetry. apply count_upto_none; [lia|].
        intros k Hk. apply Hline. lia. }
    assert (HS1 : Z.of_nat (count_upto SPACE text (S i1))
                  = Z.of_nat (count_upto SPACE text i1) + 1).
    { rewrite count_upto_S by lia. rewrite Hspace'. lia. }
    assert (Hmono := count_upto_mono text SPACE (Z.to_nat (Z.of_nat i - lw)) i1).
    rewrite HN1. replace (Z.to_nat (Z.of_nat (S i1) - 0)) with (S i1) by lia.
    split; [|split; lia].
    split; [exact Hok'|]. split; [intros k Hk; lia|]. split.
    - intros k Hk Hsp. split; [lia | exact Hspace'].
    - intros Hlt' k Hk. rewrite Hsame by exact Hlt'. apply Hfresh1, Hk. }
  (* one more character in the line *)
  cbn [mbind option_bind] in Hbody. simpl_ws.
  apply bind_Some in Hbody as (ws' & Hstore & [= <-]).
  destruct (ws_last_store ws ws' i li (lw + 1) si' HSi Hfresh Hstore)
    as (Hpot' & Hsame).
  rewrite Hpot', HNS. simpl_ws.
  replace (Z.to_nat (Z.of_nat (S i) - (lw + 1))) with (Z.to_nat (Z.of_nat i - lw)) by lia.
  split; [|split; lia].
  split; [exact Hok'|]. split; [|split; [exact Hlatest'|]].
  - intros j Hj. destruct (Nat.eq_dec j i) as [->|Hne]; [exact Hnl|].
    apply Hline. lia.
  - intros Hlt' j Hj. rewrite Hsame by exact Hlt'. apply Hfresh, Hj.
Qed.

Lemma ws_spaces_left_nonneg s : 0 <= ws_spaces_left text s.
Proof.
  unfold ws_spaces_left.
  set (k := Z.to_nat _).
  assert (Hmono := count_upto_mono text SPACE k (k + length text)).
  rewrite (count_upto_all text SPACE (k + length text)) in Hmono by lia. lia.
Qed.

(** The whole run: when it ends at the end of the text, the table sums
    to the potential of the first state less the spaces left out, which
    are not more than the spaces from the first line on. *)
Lemma ws_loop_account fuel : forall s s_f,
  ws_inv text h s ->
  ws_loop fuel text max_w h s = Some (Some s_f) ->
  (n <= ws_index s_f)%nat ->
  ws_ok text h s_f
  /\ sum_written (ws_ws s_f)
     = ws_potential text s - ws_skipped fuel text max_w h s
  /\ 0 <= ws_skipped fuel text max_w h s <= ws_spaces_left text s.
Proof.
  induction fuel as [|fuel IH]; intros s s_f Hinv; cbn [ws_loop ws_skipped];
    destruct (Nat.ltb_spec (ws_index s) (length text)) as [Hlt|Hge];
    destruct (Z.ltb_spec (ws_line_index s) h) as [Hli|Hli]; cbn [andb];
    try discriminate;
    try (intros [= <-] Hend; assert (Hnn := ws_spaces_left_nonneg s);
         split; [apply Hinv|]; unfold ws_potential;
         destruct (Nat.ltb_spec (ws_index s) (length text)); lia).
  destruct (ws_body text max_w s) as [s'|] eqn:Hbody; [|discriminate].
  intros Hrun Hend.
  destruct (ws_body_account s s' Hinv Hlt Hli Hbody) as (Hinv' & Hpot & Hspaces).
  destruct (IH s' s_f Hinv' Hrun Hend) as (Hok_f & Hsum & Hlow & Hhigh).
  split; [exact Hok_f|]. destruct (ws_skips text max_w s); lia.
Qed.

End ws_account.


(** ** Text reflow: the passes of the line-width loop *)

Section ws_passes.
Variable text : text_t.
Variable max_w h : Z.

#[local] Abbreviation n := (length text).

Lemma ws_done_now s : (n <= ws_index s)%nat -> ws_done text max_w h s.
Proof.
  intros Hge. exists 0%nat, s. cbn [ws_loop].
  destruct (Nat.ltb_spec (ws_index s) (length text)); [lia|].
  split; [reflexivity | exact Hge].
Qed.

Lemma ws_done_step s s' :
  (ws_index s < n)%nat -> ws_line_index s < h ->
  ws_body text max_w s = Some s' ->
  ws_done text max_w h s' -> ws_done text max_w h s.
Proof.
  intros Hlt Hli Hbody (fuel & s_f & Hrun & Hend).
  exists (S fuel), s_f. cbn [ws_loop].
  destruct (Nat.ltb_spec (ws_index s) (length text)); [|lia].
  destruct (Z.ltb_spec (ws_line_index s) h); [|lia].
  cbn [andb]. rewrite Hbody. split; [exact Hrun | exact Hend].
Qed.

(** The four ways through the body of the loop. *)
Lemma ws_body_cases s s' :
  ws_body text max_w s = Some s' ->
  let letter := char_at text (ws_index s) in
  let space := is_char letter SPACE in
  let si' := if space then Z.of_nat (ws_index s) else ws_space_index s in
  ws_space_index s' = si'
  /\ ((space = true /\ ws_line_w s = 0
       /\ ws_index s' = S (ws_index s) /\ ws_line_index s' = ws_line_index s
       /\ ws_line_w s' = 0)
      \/ (is_char letter NEWLINE = true
          /\ ws_index s' = S (ws_index s) /\ ws_line_index s' = ws_line_index s + 1
          /\ ws_line_w s' = 0)
      \/ (is_char letter NEWLINE = false /\ max_w <= ws_line_w s
          /\ ws_index s' = S (Z.to_nat si') /\ ws_line_index s' = ws_line_index s + 1
          /\ ws_line_w s' = 0)
      \/ (is_char letter NEWLINE = false /\ ws_line_w s < max_w
          /\ ws_index s' = S (ws_index s) /\ ws_line_index s' = ws_line_index s
          /\ ws_line_w s' = ws_line_w s + 1)).
Proof.
  unfold ws_body. destruct s as [i li lw si ws]; simpl_ws. cbv zeta.
  set (letter := char_at text i).
  set (si' := if is_char letter SPACE then Z.of_nat i else si).
  intros Hbody. apply bind_Some in Hbody as (s1 & Hbranch & Hbody).
  apply bind_Some in Hbody as (ws' & _ & [= <-]). simpl_ws.
  destruct (is_char letter SPACE && (lw =? 0)) eqn:Hskip.
  { apply andb_true_iff in Hskip as (Hspace & Hzero). apply Z.eqb_eq in Hzero.
    injection Hbranch as <-. simpl_ws. split; [reflexivity|]. left. auto. }
  destruct (is_char letter NEWLINE) eqn:Hnl.
  { apply bind_Some in Hbranch as (ws1 & _ & [= <-]). simpl_ws.
    split; [reflexivity|]. right; left. auto. }
  destruct (Z.geb_spec lw max_w) as [Hover|Hroom].
  { apply bind_Some in Hbranch as (ws1 & _ & [= <-]). simpl_ws.
    split; [reflexivity|]. right; right; left. auto. }
  injection Hbranch as <-. simpl_ws. split; [reflexivity|]. right; right; right. auto.
Qed.

(** The body is defined when the stores it makes are inside the table:
    one at [line_index], and after a new line one more at
    [line_index + 1] if the text ends there. *)
Lemma ws_body_defined s :
  ws_ok text h s -> ws_line_index s + 1 < h ->
  exists s', ws_body text max_w s = Some s'.
Proof.
  unfold ws_ok, ws_body. destruct s as [i li lw si ws]; simpl_ws.
  intros (Hli & Hlw & Hidx & Hsi & Hlen) Hroom.
  assert (Hstore : forall k v ws0, length ws0 = length ws -> li <= k <= li + 1 ->
             ws_store ws0 k v = Some (<[Z.to_nat k := Some v]> ws0)).
  { intros k v ws0 Hlen0 Hk. apply ws_store_in_range. lia. }
  destruct (_ && _); [|destruct (is_char _ NEWLINE); [|destruct (_ >=? _)]];
    cbn [mbind option_bind]; simpl_ws;
    rewrite ?Hstore by (reflexivity || lia); cbn [mbind option_bind]; simpl_ws;
    destruct (_ =? _)%nat;
    rewrite ?Hstore by (rewrite ?length_insert; reflexivity || lia);
    cbn [mbind option_bind]; eauto.
Qed.

(** A pass that stays in the line only stores at [line_index]. *)
Lemma ws_body_defined_in_line s :
  ws_ok text h s -> ws_line_index s < h ->
  is_char (char_at text (ws_index s)) NEWLINE = false ->
  ws_line_w s < max_w ->
  exists s', ws_body text max_w s = Some s'.
Proof.
  unfold ws_ok, ws_body. destruct s as [i li lw si ws]; simpl_ws.
  intros (Hli & Hlw & Hidx & Hsi & Hlen) Hroom Hnl Hline.
  rewrite Hnl.
  destruct (Z.geb_spec lw max_w); [lia|].
  assert (Hstore : forall v, ws_store ws li v = Some (<[Z.to_nat li := Some v]> ws)).
  { intros v. apply ws_store_in_range. lia. }
  destruct (_ && _); cbn [mbind option_bind]; simpl_ws;
    destruct (_ =? _)%nat; rewrite ?Hstore; cbn [mbind option_bind]; eauto.
Qed.

End ws_passes.


(** ** Text reflow: the passes of the height loop *)

Section h_passes.
Variable text : text_t.
Variable max_w : Z.
Hypothesis Hw : 0 <= max_w.

Lemma h_body_return s r : h_body text max_w s = H_return r -> r = -1.
Proof.
  unfold h_body.
  repeat match goal with
    | |- context [if ?b then _ else _] => destruct b
    end; intros [=]; congruence.
Qed.

(** The three ways through the body of the loop that go on. *)
Lemma h_body_cases s s' :
  h_body text max_w s = H_next s' ->
  let letter := char_at text (h_index s) in
  let si' := if is_char letter SPACE then Z.of_nat (h_index s) else h_space_index s in
  h_space_index s' = si'
  /\ ((is_char letter NEWLINE = true
       /\ h_index s' = S (h_index s) /\ h_h s' = h_h s + 1 /\ h_line_w s' = 0
       /\ h_last_space_index s' = h_last_space_index s)
      \/ (is_char letter NEWLINE = false /\ max_w <= h_line_w s
          /\ si' <> h_last_space_index s
          /\ h_index s' = S (Z.to_nat si') /\ h_h s' = h_h s + 1 /\ h_line_w s' = 0
          /\ h_last_space_index s' = si')
      \/ (is_char letter NEWLINE = false /\ h_line_w s < max_w
          /\ h_index s' = S (h_index s) /\ h_h s' = h_h s
          /\ h_line_w s' = h_line_w s + 1
          /\ h_last_space_index s' = h_last_space_index s)).
Proof.
  unfold h_body. destruct s as [i hh lw si last]; simpl_h. cbv zeta.
  set (letter := char_at text i).
  set (si' := if is_char letter SPACE then Z.of_nat i else si).
  destruct (is_char letter NEWLINE).
  { intros [= <-]; simpl_h. split; [reflexivity|]. left. auto. }
  destruct (Z.geb_spec lw max_w) as [Hover|Hroom].
  { destruct (Z.eqb_spec si' last); intros [= <-]; simpl_h.
    split; [reflexivity|]. right; left. auto 10. }
  intros [= <-]; simpl_h. split; [reflexivity|]. right; right. auto 10.
Qed.

Lemma h_body_line_inv s s' :
  h_inv text s -> h_line_inv text max_w s -> (h_index s < length text)%nat ->
  h_body text max_w s = H_next s' -> h_line_inv text max_w s'.
Proof.
  intros (Hlast & Hsi & _) (Hlw & Hlwi & Hline & Hspace) Hlt Hbody.
  apply h_body_cases in Hbody as (Hsi' & Hcases). unfold h_line_inv.
  assert (Hspace' : 0 < h_space_index s' ->
            is_char (char_at text (Z.to_nat (h_space_index s'))) SPACE = true).
  { rewrite Hsi'. destruct (is_char (char_at text (h_index s)) SPACE) eqn:Hletter.
    - intros _. rewrite Nat2Z.id. exact Hletter.
    - exact Hspace. }
  destruct Hcases as [(Hnl & -> & _ & -> & _)
                     | [(Hnl & Hover & _ & -> & _ & -> & _)
                       | (Hnl & Hroom & -> & _ & -> & _)]].
  - repeat split; try lia; exact Hspace'.
  - repeat split; try lia; exact Hspace'.
  - repeat split; try lia; [|exact Hspace'].
    intros j Hj. destruct (Nat.eq_dec j (h_index s)) as [->|Hne]; [exact Hnl|].
    apply Hline. lia.
Qed.

(** A height is not below the running height. *)
Lemma h_loop_result_ge fuel : forall s r,
  h_inv text s -> h_loop fuel text max_w s = Some r -> r = -1 \/ h_h s <= r.
Proof.
  induction fuel as [|fuel IH]; intros s r Hinv; cbn [h_loop];
    destruct (Nat.ltb_spec (h_index s) (length text)) as [Hlt|Hge];
    try discriminate; try (intros [= <-]; right; lia).
  destruct (h_body text max_w s) as [s'|r'] eqn:Hbody.
  - destruct (h_body_inv text max_w s s' Hinv Hlt Hbody) as (Hinv' & _ & Hh).
    intros Hrun. destruct (IH s' r Hinv' Hrun); [left; assumption | right; lia].
  - intros [= <-]. left. exact (h_body_return s r' Hbody).
Qed.

End h_passes.

Section ws_lines.
Variable text : text_t.
Variable max_w h : Z.

#[local] Abbreviation n := (length text).

(** Through characters that fit into the line the loop reaches the
    index [ws_index s + k] without leaving the line. *)
Lemma ws_reach k : forall s,
  ws_ok text h s -> (ws_index s + k < n)%nat -> ws_line_index s < h ->
  (forall j, (ws_index s <= j < ws_index s + k)%nat ->
             is_char (char_at text j) NEWLINE = false) ->
  ws_line_w s + Z.of_nat k <= max_w ->
  exists s',
    ws_ok text h s' /\ ws_index s' = (ws_index s + k)%nat
    /\ ws_line_index s' = ws_line_index s
    /\ 0 <= ws_line_w s' <= ws_line_w s + Z.of_nat k
    /\ ws_space_index s <= ws_space_index s'
    /\ (ws_done text max_w h s' -> ws_done text max_w h s).
Proof.
  induction k as [|k IH]; intros s Hok Hlt Hli Hnl Hfit.
  - exists s. unfold ws_ok in Hok. repeat split; try lia; try apply Hok. auto.
  - assert (Hnl0 : is_char (char_at text (ws_index s)) NEWLINE = false)
      by (apply Hnl; lia).
    destruct (ws_body_defined_in_line text max_w h s Hok Hli Hnl0) as (s1 & Hbody); [lia|].
    assert (Hlt0 : (ws_index s < length text)%nat) by (lia).
    destruct (ws_body_ok text max_w h s s1 Hok Hlt0 Hli Hbody) as (Hok1 & _ & Hsi & _).
    destruct (ws_body_cases text max_w s s1 Hbody) as (_ & Hcases).
    assert (Hshape : ws_index s1 = S (ws_index s)
                     /\ ws_line_index s1 = ws_line_index s
                     /\ ws_line_w s1 <= ws_line_w s + 1).
    { destruct Hcases as [(_ & Hz & -> & -> & ->)
                         | [(Hnl1 & _) | [(_ & Hover & _) | (_ & _ & -> & -> & ->)]]];
        try congruence; lia. }
    destruct Hshape as (Hi1 & Hli1 & Hlw1).
    destruct (IH s1 Hok1) as (s' & Hok' & Hi' & Hli' & Hlw' & Hsi' & Hdone);
      [lia | lia | intros j Hj; apply Hnl; lia | lia |].
    exists s'. repeat split; try lia; try apply Hok'.
    intros Hd. apply (ws_done_step text max_w h s s1); auto.
Qed.

(** Through characters that fit into the line the loop reaches the end
    of the text. *)
Lemma ws_reach_end k : forall s,
  ws_ok text h s -> (ws_index s + k = n)%nat -> ws_line_index s < h ->
  (forall j, (ws_index s <= j < n)%nat -> is_char (char_at text j) NEWLINE = false) ->
  ws_line_w s + Z.of_nat k <= max_w ->
  ws_done text max_w h s.
Proof.
  induction k as [|k IH]; intros s Hok Hlt Hli Hnl Hfit.
  - apply ws_done_now. lia.
  - assert (Hnl0 : is_char (char_at text (ws_index s)) NEWLINE = false)
      by (apply Hnl; lia).
    destruct (ws_body_defined_in_line text max_w h s Hok Hli Hnl0) as (s1 & Hbody); [lia|].
    assert (Hlt0 : (ws_index s < length text)%nat) by (lia).
    destruct (ws_body_ok text max_w h s s1 Hok Hlt0 Hli Hbody) as (Hok1 & _ & Hsi & _).
    destruct (ws_body_cases text max_w s s1 Hbody) as (_ & Hcases).
    assert (Hshape : ws_index s1 = S (ws_index s)
                     /\ ws_line_index s1 = ws_line_index s
                     /\ ws_line_w s1 <= ws_line_w s + 1).
    { destruct Hcases as [(_ & Hz & -> & -> & ->)
                         | [(Hnl1 & _) | [(_ & Hover & _) | (_ & _ & -> & -> & ->)]]];
        try congruence; lia. }
    destruct Hshape as (Hi1 & Hli1 & Hlw1).
    apply (ws_done_step text max_w h s s1); auto.
    apply IH; [exact Hok1 | lia | lia | intros j Hj; apply Hnl; lia | lia].
Qed.

(** From inside a line the loop reaches the start of the next line,
    beyond the last space read, or the end of the text. *)
Lemma ws_finish_line m : forall s,
  (n - ws_index s <= m)%nat ->
  ws_ok text h s -> 0 < ws_line_w s -> ws_line_index s + 1 < h ->
  (forall s', ws_ok text h s' -> ws_line_w s' = 0 ->
              ws_line_index s' = ws_line_index s + 1 ->
              ws_space_index s < Z.of_nat (ws_index s') ->
              ws_done text max_w h s') ->
  ws_done text max_w h s.
Proof.
  induction m as [|m IH]; intros s Hm Hok Hlw Hli Hnext.
  - apply ws_done_now. lia.
  - destruct (Nat.lt_ge_cases (ws_index s) n) as [Hlt|Hge]; [|apply ws_done_now; exact Hge].
    destruct (ws_body_defined text max_w h s Hok Hli) as (s1 & Hbody).
    assert (Hli0 : ws_line_index s < h) by lia.
    destruct (ws_body_ok text max_w h s s1 Hok Hlt Hli0 Hbody) as (Hok1 & _ & Hsi & _).
    destruct (ws_body_cases text max_w s s1 Hbody) as (Hsi1 & Hcases).
    apply (ws_done_step text max_w h s s1); auto.
    assert (Hsis : 0 <= ws_space_index s <= Z.of_nat (ws_index s)) by apply Hok.
    destruct Hcases as [(_ & Hz & _)
                       | [(_ & Hi1 & Hli1 & Hlw1)
                         | [(_ & _ & Hi1 & Hli1 & Hlw1) | (_ & _ & Hi1 & Hli1 & Hlw1)]]].
    + lia.
    + apply Hnext; auto. lia.
    + apply Hnext; auto. lia.
    + apply IH; [lia | exact Hok1 | lia | lia |].
      intros s' Hok' Hlw' Hli' Hsi'. apply Hnext; auto; lia.
Qed.

End ws_lines.


(** ** Text reflow: the line widths need no more lines than the height *)

Section keeps_up.
Variable text : text_t.
Variable max_w h : Z.
Hypothesis Hw : 1 <= max_w.

#[local] Abbreviation n := (length text).

(** The loop of [tui_text_ws_get] does not need more lines than the
    loop of [tui_text_h_get] at the same width: started at the beginning
    of a line that is not before the line the other loop is reading, with
    as many entries left as the other loop has lines to go, it reaches the
    end of the text. *)
Lemma ws_keeps_up fuel : forall sh sw r,
  h_inv text sh -> h_line_inv text max_w sh ->
  h_loop fuel text max_w sh = Some r -> r <> -1 ->
  ws_ok text h sw -> ws_line_w sw = 0 ->
  Z.of_nat (h_index sh) - h_line_w sh <= Z.of_nat (ws_index sw) ->
  ws_line_index sw + (r - h_h sh) < h ->
  ws_done text max_w h sw.
Proof.
  assert (Hw0 : 0 <= max_w) by lia.
  assert (Hend : forall sh sw r,
             h_inv text sh -> h_line_inv text max_w sh ->
             (length text <= h_index sh)%nat ->
             ws_ok text h sw -> ws_line_w sw = 0 ->
             Z.of_nat (h_index sh) - h_line_w sh <= Z.of_nat (ws_index sw) ->
             ws_line_index sw + (r - r) < h ->
             ws_done text max_w h sw).
  { intros sh sw r (_ & _ & Hidx) (Hlw & _ & Hline & _) Hge Hok Hzero Hahead Hleft.
    assert (Hokw : (ws_index sw <= length text)%nat) by apply Hok.
    apply (ws_reach_end text max_w h (n - ws_index sw) sw Hok);
      [lia | lia | | lia].
    intros j Hj. apply Hline. lia. }
  induction fuel as [|fuel IH]; intros sh sw r Hinv Hlinv; cbn [h_loop];
    destruct (Nat.ltb_spec (h_index sh) (length text)) as [Hlt|Hge];
    try discriminate;
    try (intros [= <-] _ Hok Hzero Hahead Hleft;
         apply (Hend sh sw (h_h sh)); auto; lia).
  destruct (h_body text max_w sh) as [sh'|r'] eqn:Hbody;
    [|intros [= <-] Hr; destruct Hr; exact (h_body_return text max_w sh r' Hbody)].
  intros Hrun Hr Hok Hzero Hahead Hleft.
  destruct (h_body_inv text max_w sh sh' Hinv Hlt Hbody) as (Hinv' & _ & _).
  assert (Hlinv' := h_body_line_inv text max_w Hw0 sh sh' Hinv Hlinv Hlt Hbody).
  destruct (h_loop_result_ge text max_w fuel sh' r Hinv' Hrun) as [|Hrge]; [contradiction|].
  destruct Hlinv as (Hlw & Hlwi & Hline & Hspace).
  destruct Hinv as (Hlast & Hsi & _).
  assert (Hokw : 0 <= ws_line_index sw /\ (ws_index sw <= length text)%nat)
    by (split; apply Hok).
  destruct (h_body_cases text max_w sh sh' Hbody) as (Hsi' & Hcases).
  destruct Hcases as [(Hnl & Hi' & Hh' & Hlw' & _)
                     | [(Hnl & Hover & Hfresh & Hi' & Hh' & Hlw' & _)
                       | (Hnl & Hroom & Hi' & Hh' & Hlw' & _)]].
  - (* the other loop ends its line on a newline *)
    destruct (Z.le_gt_cases (Z.of_nat (S (h_index sh))) (Z.of_nat (ws_index sw)))
      as [Hpast|Hbefore].
    + apply (IH sh' sw r); auto; lia.
    + destruct (ws_reach text max_w h (h_index sh - ws_index sw) sw Hok)
        as (s1 & Hok1 & Hi1 & Hli1 & Hlw1 & _ & Hdone);
        [lia | lia | intros j Hj; apply Hline; lia | lia |].
      apply Hdone.
      replace (ws_index sw + (h_index sh - ws_index sw))%nat with (h_index sh) in Hi1 by lia.
      destruct (ws_body_defined text max_w h s1 Hok1) as (s2 & Hbody2); [lia|].
      assert (Hlt1 : (ws_index s1 < length text)%nat) by lia.
      assert (Hli1' : ws_line_index s1 < h) by lia.
      destruct (ws_body_ok text max_w h s1 s2 Hok1 Hlt1 Hli1' Hbody2) as (Hok2 & _).
      apply (ws_done_step text max_w h s1 s2); auto.
      destruct (ws_body_cases text max_w s1 s2 Hbody2) as (_ & Hcases2).
      rewrite Hi1 in Hcases2.
      destruct Hcases2 as [(Hsp & _)
                          | [(_ & Hi2 & Hli2 & Hlw2)
                            | [(Hnl2 & _) | (Hnl2 & _)]]];
        try congruence.
      * apply space_not_newline in Hsp. congruence.
      * apply (IH sh' s2 r); auto; lia.
  - (* the other loop breaks its line at the last space *)
    set (sp := if is_char (char_at text (h_index sh)) SPACE
               then Z.of_nat (h_index sh) else h_space_index sh) in *.
    assert (Hsp : h_last_space_index sh < sp <= Z.of_nat (h_index sh)).
    { revert Hfresh. subst sp.
      destruct (is_char (char_at text (h_index sh)) SPACE); lia. }
    assert (Hspace_sp : is_char (char_at text (Z.to_nat sp)) SPACE = true).
    { destruct Hlinv' as (_ & _ & _ & Hspace'). rewrite <- Hsi'. apply Hspace'. lia. }
    destruct (Z.le_gt_cases (Z.of_nat (S (Z.to_nat sp))) (Z.of_nat (ws_index sw)))
      as [Hpast|Hbefore].
    + apply (IH sh' sw r); auto; lia.
    + destruct (ws_reach text max_w h (Z.to_nat sp - ws_index sw) sw Hok)
        as (s1 & Hok1 & Hi1 & Hli1 & Hlw1 & _ & Hdone);
        [lia | lia | intros j Hj; apply Hline; lia | lia |].
      apply Hdone.
      replace (ws_index sw + (Z.to_nat sp - ws_index sw))%nat with (Z.to_nat sp) in Hi1
        by lia.
      destruct (ws_body_defined text max_w h s1 Hok1) as (s2 & Hbody2); [lia|].
      assert (Hlt1 : (ws_index s1 < length text)%nat) by lia.
      assert (Hli1' : ws_line_index s1 < h) by lia.
      destruct (ws_body_ok text max_w h s1 s2 Hok1 Hlt1 Hli1' Hbody2) as (Hok2 & _).
      apply (ws_done_step text max_w h s1 s2); auto.
      destruct (ws_body_cases text max_w s1 s2 Hbody2) as (Hsi2 & Hcases2).
      rewrite Hi1, Hspace_sp in Hcases2, Hsi2.
      destruct Hcases2 as [(_ & _ & Hi2 & Hli2 & Hlw2)
                          | [(Hnl2 & _)
                            | [(_ & _ & Hi2 & Hli2 & Hlw2) | (_ & _ & Hi2 & Hli2 & Hlw2)]]].
      * apply (IH sh' s2 r); auto; lia.
      * apply space_not_newline in Hspace_sp. congruence.
      * apply (IH sh' s2 r); auto; lia.
      * apply (ws_finish_line text max_w h (n - ws_index s2) s2);
          [lia | exact Hok2 | lia | lia |].
        intros s3 Hok3 Hlw3 Hli3 Hsi3.
        apply (IH sh' s3 r); auto; lia.
  - (* the other loop stays in its line *)
    apply (IH sh' sw r); auto; lia.
Qed.

End keeps_up.


(** ** Text reflow: the sum of the line widths *)

Section ws_get_sum.
Variable text : text_t.
Variable h : Z.

(** [h] is a height at which the text wraps. *)
Hypothesis Hheight : 1 + Z.of_nat (count_char NEWLINE text) <= h.

#[local] Abbreviation ws0 := (replicate (Z.to_nat h) None : ws_table).

Lemma ws_init_inv : ws_inv text h (ws_init ws0).
Proof.
  unfold ws_inv, ws_ok, ws_init; simpl_ws.
  rewrite length_replicate. repeat split; try lia.
  intros _ j _. destruct (replicate (Z.to_nat h) None !! j) as [entry|] eqn:Hj;
    [|reflexivity].
  apply lookup_replicate in Hj as (-> & _). reflexivity.
Qed.

(** The width found for such a height is one at which the text wraps
    into no more lines, unless the text is empty. *)
Lemma tui_text_w_get_of_height :
  (0 < length text)%nat ->
  1 <= tui_text_w_get text h
  /\ tui_text_h_get text (tui_text_w_get text h) <> -1
  /\ tui_text_h_get text (tui_text_w_get text h) <= h.
Proof.
  intros Hlen.
  assert (Hwide := tui_text_h_get_wide text (Z.of_nat (length text)) (Z.le_refl _)).
  destruct (tui_text_w_get_returns text h) as (_ & [-> | (Hrange & Hfeas1 & Hfeas2)]).
  - rewrite Hwide. lia.
  - lia.
Qed.

(** On a fresh table of [h] entries [tui_text_ws_get] reaches the end of
    the text, and the entries it writes sum to the length of the text
    less its newlines and less the spaces it leaves out. *)
Lemma tui_text_ws_get_account :
  exists ws,
    tui_text_ws_get ws0 text h = Some ws
    /\ length ws = Z.to_nat h
    /\ sum_written ws
       = Z.of_nat (length text) - Z.of_nat (count_char NEWLINE text)
         - tui_text_ws_skipped ws0 text h
    /\ 0 <= tui_text_ws_skipped ws0 text h <= Z.of_nat (count_char SPACE text).
Proof.
  assert (Hinv := ws_init_inv).
  unfold tui_text_ws_get, tui_text_ws_get_run, tui_text_ws_skipped.
  set (max_w := tui_text_w_get text h).
  set (s0 := ws_init ws0) in *.
  assert (Hok0 : ws_ok text h s0) by apply Hinv.
  (* the run of the model ends *)
  destruct (ws_loop_ends text max_w h (ws_fuel text h) s0 Hok0) as (x & Hrun).
  { unfold ws_measure, ws_fuel, s0; simpl_ws. nia. }
  (* and it ends at the end of the text *)
  assert (Hdone : ws_done text max_w h s0).
  { destruct (Nat.eq_dec (length text) 0%nat) as [Hempty|Hne].
    - apply ws_done_now. unfold s0; simpl_ws. lia.
    - destruct tui_text_w_get_of_height as (Hw & Hok & Hle); [lia|]. fold max_w in Hw, Hok, Hle.
      destruct (tui_text_h_get_returns text max_w) as (Hrun_h & _).
      apply (ws_keeps_up text max_w h Hw (h_fuel text) h_init s0 (tui_text_h_get text max_w));
        auto.
      + apply h_init_inv.
      + unfold h_line_inv, h_init; simpl_h. repeat split; try lia.
      + unfold s0, h_init; simpl_ws; simpl_h. lia.
      + unfold s0, h_init; simpl_ws; simpl_h. lia. }
  destruct Hdone as (fuel & s_f & Hrun_f & Hend).
  assert (Hx : x = Some s_f).
  { assert (H1 := ws_loop_more_fuel text max_w h _ (fuel + ws_fuel text h) _ _
                    (Nat.le_add_r _ _) Hrun_f).
    assert (H2 := ws_loop_more_fuel text max_w h _ (fuel + ws_fuel text h) _ _
                    (Nat.le_add_l _ _) Hrun).
    congruence. }
  subst x. rewrite Hrun. cbn [mjoin option_join fmap option_fmap option_map].
  exists (ws_ws s_f).
  destruct (Nat.eq_dec (length text) 0%nat) as [Hempty|Hne].
  - (* the empty text: the loop does not run *)
    assert (Htext : text = []) by (destruct text; [reflexivity | discriminate]).
    revert Hrun. unfold ws_fuel. rewrite Htext. cbn [length ws_loop Nat.ltb Nat.leb andb].
    rewrite Nat.mul_1_r. cbn [ws_loop ws_skipped length Nat.ltb Nat.leb andb].
    intros [= <-]. unfold s0; simpl_ws.
    rewrite length_replicate, sum_written_replicate. cbn. repeat split; lia.
  - destruct tui_text_w_get_of_height as (Hw & Hok & Hle); [lia|]. fold max_w in Hw, Hok, Hle.
    assert (Hwords : no_long_word text max_w).
    { intros a Hword. apply Hok.
      apply (tui_text_h_get_long_word text max_w a); [lia | exact Hword]. }
    destruct (ws_loop_account text max_w h Hw Hwords _ s0 s_f Hinv Hrun Hend)
      as (Hok_f & Hsum & Hskipped).
    split; [reflexivity|]. split; [unfold ws_ok in Hok_f; lia|].
    assert (Hpot : ws_potential text s0
                   = Z.of_nat (length text) - Z.of_nat (count_char NEWLINE text)).
    { unfold ws_potential, s0; simpl_ws.
      destruct (Nat.ltb_spec 0 (length text)); [|lia].
      rewrite sum_written_replicate, count_upto_0. lia. }
    assert (Hleft : ws_spaces_left text s0 = Z.of_nat (count_char SPACE text)).
    { unfold ws_spaces_left, s0; simpl_ws. cbn. rewrite count_upto_0. lia. }
    rewrite Hsum, Hpot. split; [reflexivity | lia].
Qed.

End ws_get_sum.


(** ** Text reflow: when the height fails *)

Section h_fails.
Variable text : text_t.
Variable max_w : Z.
Hypothesis Hw : 1 <= max_w.

Lemma h_body_break_inv s s' :
  h_inv text s -> h_break_inv text s -> (h_index s < length text)%nat ->
  h_body text max_w s = H_next s' -> h_break_inv text s'.
Proof.
  intros (Hlast & Hsi & _) (Hlatest & Hstart) Hlt Hbody.
  apply h_body_cases in Hbody as (Hsi' & Hcases). unfold h_break_inv.
  assert (Hsi'' : h_space_index s <= h_space_index s' <= Z.of_nat (h_index s)
                  /\ (is_char (char_at text (h_index s)) SPACE = true ->
                      h_space_index s' = Z.of_nat (h_index s))).
  { rewrite Hsi'. destruct (is_char (char_at text (h_index s)) SPACE); split; auto; lia. }
  clear Hsi'. destruct Hsi'' as (Hsi' & Hletter).
  assert (Hlatest' : forall j, h_last_space_index s < Z.of_nat j < Z.of_nat (S (h_index s)) ->
             is_char (char_at text j) SPACE = true -> Z.of_nat j <= h_space_index s').
  { intros j Hj Hspace. destruct (Nat.eq_dec j (h_index s)) as [->|Hne].
    - rewrite Hletter by exact Hspace. lia.
    - assert (Hin : h_last_space_index s < Z.of_nat j < Z.of_nat (h_index s)) by lia.
      specialize (Hlatest j Hin Hspace). lia. }
  destruct Hcases as [(Hnl & -> & _ & -> & ->)
                     | [(Hnl & Hover & _ & -> & _ & -> & ->)
                       | (Hnl & Hroom & -> & _ & -> & ->)]].
  - split; [exact Hlatest' | lia].
  - split; [intros j Hj; lia | lia].
  - split; [exact Hlatest' | lia].
Qed.

(** When the loop gives up, a word is longer than the width, or the text
    starts with a space and a word of the full width. *)
Lemma h_loop_fails_why fuel : forall s,
  h_inv text s -> h_line_inv text max_w s -> h_break_inv text s ->
  h_loop fuel text max_w s = Some (-1) -> 1 <= h_h s ->
  (exists a, word_at text a (S (Z.to_nat max_w))) \/ space_then_word text max_w.
Proof.
  assert (Hw0 : 0 <= max_w) by lia.
  induction fuel as [|fuel IH]; intros s Hinv Hlinv Hbinv; cbn [h_loop];
    destruct (Nat.ltb_spec (h_index s) (length text)) as [Hlt|Hge];
    try discriminate; try (intros [= Hh]; lia).
  destruct (h_body text max_w s) as [s'|r] eqn:Hbody.
  - destruct (h_body_inv text max_w s s' Hinv Hlt Hbody) as (Hinv' & _ & Hh).
    intros Hrun Hpos. apply (IH s'); auto.
    + exact (h_body_line_inv text max_w Hw0 s s' Hinv Hlinv Hlt Hbody).
    + exact (h_body_break_inv s s' Hinv Hbinv Hlt Hbody).
    + lia.
  - intros _ _. clear IH.
    destruct Hinv as (Hlast & Hsi & _).
    destruct Hlinv as (Hlw & Hlwi & Hline & _).
    destruct Hbinv as (Hlatest & Hstart).
    unfold h_body in Hbody. destruct s as [i hh lw si last]; simpl_h.
    destruct (is_char (char_at text i) NEWLINE) eqn:Hnl; [discriminate|].
    destruct (Z.geb_spec lw max_w) as [Hover|]; [|discriminate].
    destruct (is_char (char_at text i) SPACE) eqn:Hspace.
    { destruct (Z.eqb_spec (Z.of_nat i) last); [lia | discriminate]. }
    destruct (Z.eqb_spec si last) as [->|]; [|discriminate].
    (* the line from [i - lw] to [i] holds no newline, and no space
       after [last] *)
    assert (Hwordchar : forall j, Z.of_nat i - lw <= Z.of_nat j <= Z.of_nat i ->
              last < Z.of_nat j ->
              (j < length text)%nat /\ is_word_char (char_at text j) = true).
    { intros j Hj Hafter. split; [lia|]. apply is_word_char_spec.
      destruct (Nat.eq_dec j i) as [->|Hne]; [auto|]. split.
      - destruct (is_char (char_at text j) SPACE) eqn:Hsp; [|reflexivity].
        assert (Hin : last < Z.of_nat j < Z.of_nat i) by lia.
        specialize (Hlatest j Hin Hsp). lia.
      - apply Hline. lia. }
    destruct Hstart as [Hafter | (Hzero & ->)].
    + left. exists (Z.to_nat (Z.of_nat i - lw)). intros j Hj. apply Hwordchar; lia.
    + destruct (is_char (char_at text 0) SPACE) eqn:Hfirst.
      * right. split; [exact Hfirst|]. intros j Hj. apply Hwordchar; lia.
      * left. exists 0%nat. intros j Hj.
        destruct (Nat.eq_dec j 0%nat) as [->|Hne].
        -- split; [lia|]. apply is_word_char_spec. split; [exact Hfirst|].
           destruct (Nat.eq_dec i 0%nat) as [->|Hi]; [exact Hnl | apply Hline; lia].
        -- apply Hwordchar; lia.
Qed.

Lemma h_body_first_inv s s' :
  space_then_word text max_w ->
  h_first_inv s -> Z.of_nat (h_index s) <= max_w ->
  (h_index s < length text)%nat ->
  h_body text max_w s = H_next s' ->
  h_first_inv s' /\ Z.of_nat (h_index s') <= max_w.
Proof.
  intros (Hfirst & Hword) (Hlast & Hsi & Hlw) Hle Hlt. unfold h_body, h_first_inv.
  destruct s as [i hh lw si last]; simpl_h. subst last si lw.
  destruct (Nat.eq_dec i 0%nat) as [->|Hi].
  - rewrite Hfirst, (space_not_newline _ Hfirst).
    destruct (Z.geb_spec (Z.of_nat 0) max_w); [lia|]. intros [= <-]; simpl_h. lia.
  - destruct (Hword i) as (_ & Hchar); [lia|].
    apply is_word_char_spec in Hchar as (-> & ->).
    destruct (Z.geb_spec (Z.of_nat i) max_w).
    + rewrite Z.eqb_refl. discriminate.
    + intros [= <-]; simpl_h. lia.
Qed.

Lemma h_loop_first_fails fuel : forall s r,
  space_then_word text max_w ->
  h_first_inv s -> Z.of_nat (h_index s) <= max_w ->
  h_loop fuel text max_w s = Some r -> r = -1.
Proof.
  induction fuel as [|fuel IH]; intros s r Hquirk Hfirst Hle; cbn [h_loop];
    destruct (Nat.ltb_spec (h_index s) (length text)) as [Hlt|Hge];
    try discriminate.
  - destruct Hquirk as (Hspace & Hword).
    destruct (Hword (Z.to_nat max_w)) as (Hlen & _); lia.
  - destruct (h_body text max_w s) as [s'|r'] eqn:Hbody.
    + destruct (h_body_first_inv s s' Hquirk Hfirst Hle Hlt Hbody). apply IH; auto.
    + intros [= <-]. exact (h_body_return text max_w s r' Hbody).
  - destruct Hquirk as (Hspace & Hword).
    destruct (Hword (Z.to_nat max_w)) as (Hlen & _); lia.
Qed.

(** [tui_text_h_get] fails exactly when a word is longer than the width
    or the text starts with a space and a word of the full width. *)
Lemma tui_text_h_get_fails_iff :
  tui_text_h_get text max_w = -1
  <-> (exists a, word_at text a (S (Z.to_nat max_w))) \/ space_then_word text max_w.
Proof.
  destruct (tui_text_h_get_returns text max_w) as (Hrun & _). split.
  - intros Hfail. rewrite Hfail in Hrun.
    apply (h_loop_fails_why (h_fuel text) h_init); auto.
    + apply h_init_inv.
    + unfold h_line_inv, h_init; simpl_h. repeat split; lia.
    + unfold h_break_inv, h_init; simpl_h. split; [intros j Hj; lia | lia].
    + simpl_h. lia.
  - intros [(a & Hword) | Hquirk].
    + apply (tui_text_h_get_long_word text max_w a); [lia | exact Hword].
    + apply (h_loop_first_fails (h_fuel text) h_init _ Hquirk); auto.
      * unfold h_first_inv, h_init; simpl_h. auto.
      * simpl_h. lia.
Qed.

End h_fails.


(** ** Text reflow: runs of the height loop *)

Section h_runs.
Variable text : text_t.
Variable max_w : Z.

#[local] Abbreviation n := (length text).

Lemma h_loop_more_fuel fuel : forall fuel' s r,
  (fuel <= fuel')%nat ->
  h_loop fuel text max_w s = Some r -> h_loop fuel' text max_w s = Some r.
Proof.
  induction fuel as [|fuel IH]; intros fuel' s r Hle.
  - cbn [h_loop]. destruct (h_index s <? length text)%nat eqn:Hguard; [discriminate|].
    intros [= <-]. destruct fuel'; cbn [h_loop]; rewrite Hguard; reflexivity.
  - destruct fuel' as [|fuel']; [lia|]. cbn [h_loop].
    destruct (_ <? _)%nat; [|auto].
    destruct (h_body text max_w s); [|auto]. apply IH. lia.
Qed.

Lemma h_result_now s : (n <= h_index s)%nat -> h_result text max_w s (h_h s).
Proof.
  intros Hge. exists 0%nat. cbn [h_loop].
  destruct (Nat.ltb_spec (h_index s) (length text)); [lia | reflexivity].
Qed.

Lemma h_result_step s s' r :
  (h_index s < n)%nat -> h_body text max_w s = H_next s' ->
  h_result text max_w s' r -> h_result text max_w s r.
Proof.
  intros Hlt Hbody (fuel & Hrun). exists (S fuel). cbn [h_loop].
  destruct (Nat.ltb_spec (h_index s) (length text)); [|lia].
  rewrite Hbody. exact Hrun.
Qed.

(** The loop gives up only on a full line with no space to break at. *)
Lemma h_body_goes_on s :
  is_char (char_at text (h_index s)) NEWLINE = true
  \/ h_line_w s < max_w
  \/ (if is_char (char_at text (h_index s)) SPACE
      then Z.of_nat (h_index s) else h_space_index s) <> h_last_space_index s ->
  exists s', h_body text max_w s = H_next s'.
Proof.
  unfold h_body. destruct s as [i hh lw si last]; simpl_h.
  destruct (is_char (char_at text i) NEWLINE); [eauto|].
  destruct (Z.geb_spec lw max_w); [|eauto].
  destruct (Z.eqb_spec (if is_char (char_at text i) SPACE then Z.of_nat i else si) last);
    [|eauto].
  intros [|[|]]; [discriminate | lia | contradiction].
Qed.

(** Through characters that fit into the line the loop reaches the
    index [h_index s + k]. *)
Lemma h_reach k : forall s,
  h_inv text s -> (h_index s + k < n)%nat ->
  (forall j, (h_index s <= j < h_index s + k)%nat ->
             is_char (char_at text j) NEWLINE = false) ->
  h_line_w s + Z.of_nat k <= max_w ->
  exists s',
    h_inv text s' /\ h_index s' = (h_index s + k)%nat
    /\ h_h s' = h_h s /\ h_line_w s' = h_line_w s + Z.of_nat k
    /\ h_last_space_index s' = h_last_space_index s
    /\ (forall r, h_result text max_w s' r -> h_result text max_w s r).
Proof.
  induction k as [|k IH]; intros s Hinv Hlt Hnl Hfit.
  - exists s. repeat split; try lia; try apply Hinv. auto.
  - destruct (h_body_goes_on s) as (s1 & Hbody); [right; left; lia|].
    assert (Hlt0 : (h_index s < length text)%nat) by (lia).
    destruct (h_body_inv text max_w s s1 Hinv Hlt0 Hbody) as (Hinv1 & _).
    destruct (h_body_cases text max_w s s1 Hbody) as (_ & Hcases).
    assert (Hnl0 : is_char (char_at text (h_index s)) NEWLINE = false)
      by (apply Hnl; lia).
    destruct Hcases as [(Hnl1 & _) | [(_ & Hover & _) | (_ & _ & Hi1 & Hh1 & Hlw1 & Hlast1)]];
      [congruence | lia |].
    destruct (IH s1 Hinv1) as (s' & Hinv' & Hi' & Hh' & Hlw' & Hlast' & Hres);
      [lia | intros j Hj; apply Hnl; lia | lia |].
    exists s'. repeat split; try lia; try apply Hinv'.
    intros r Hr. apply (h_result_step s s1); auto.
Qed.

(** Through characters that fit into the line the loop reaches the end
    of the text. *)
Lemma h_reach_end k : forall s,
  h_inv text s -> (h_index s + k = n)%nat ->
  (forall j, (h_index s <= j < n)%nat -> is_char (char_at text j) NEWLINE = false) ->
  h_line_w s + Z.of_nat k <= max_w ->
  h_result text max_w s (h_h s).
Proof.
  induction k as [|k IH]; intros s Hinv Hlt Hnl Hfit.
  - apply h_result_now. lia.
  - destruct (h_body_goes_on s) as (s1 & Hbody); [right; left; lia|].
    assert (Hlt0 : (h_index s < length text)%nat) by (lia).
    destruct (h_body_inv text max_w s s1 Hinv Hlt0 Hbody) as (Hinv1 & _).
    destruct (h_body_cases text max_w s s1 Hbody) as (_ & Hcases).
    assert (Hnl0 : is_char (char_at text (h_index s)) NEWLINE = false)
      by (apply Hnl; lia).
    destruct Hcases as [(Hnl1 & _) | [(_ & Hover & _) | (_ & _ & Hi1 & Hh1 & Hlw1 & Hlast1)]];
      [congruence | lia |].
    apply (h_result_step s s1); auto. rewrite <- Hh1.
    apply IH; [exact Hinv1 | lia | intros j Hj; apply Hnl; lia | lia].
Qed.

(** From inside a line that holds a space read since the last break the
    loop reaches the start of the next line, beyond that space, or the
    end of the text. *)
Lemma h_finish_line (bound : Z) m : forall s,
  (n - h_index s <= m)%nat ->
  h_inv text s -> h_last_space_index s < h_space_index s ->
  1 <= h_h s <= bound ->
  (forall s', h_inv text s' -> h_line_w s' = 0 -> h_h s' = h_h s + 1 ->
              h_space_index s < Z.of_nat (h_index s') ->
              h_last_space_index s' < Z.of_nat (h_index s') ->
              exists r, h_result text max_w s' r /\ r <> -1 /\ r <= bound) ->
  exists r, h_result text max_w s r /\ r <> -1 /\ r <= bound.
Proof.
  induction m as [|m IH]; intros s Hm Hinv Hfresh Hh Hnext.
  - exists (h_h s). split; [apply h_result_now; lia | lia].
  - destruct (Nat.lt_ge_cases (h_index s) n) as [Hlt|Hge];
      [|exists (h_h s); split; [apply h_result_now; exact Hge | lia]].
    assert (Hsis : h_space_index s <= Z.of_nat (h_index s)) by apply Hinv.
    assert (Hlast : 0 <= h_last_space_index s) by apply Hinv.
    destruct (h_body_goes_on s) as (s1 & Hbody).
    { right; right. destruct (is_char _ SPACE); lia. }
    destruct (h_body_inv text max_w s s1 Hinv Hlt Hbody) as (Hinv1 & _).
    destruct (h_body_cases text max_w s s1 Hbody) as (Hsi1 & Hcases).
    assert (Hsi1' : h_space_index s <= h_space_index s1 <= Z.of_nat (h_index s))
      by (rewrite Hsi1; destruct (is_char _ SPACE); lia).
    assert (Hstep : (exists r, h_result text max_w s1 r /\ r <> -1 /\ r <= bound) ->
                    exists r, h_result text max_w s r /\ r <> -1 /\ r <= bound).
    { intros (r & Hr & Hok). exists r. split; [|exact Hok].
      apply (h_result_step s s1); auto. }
    apply Hstep.
    destruct Hcases as [(_ & Hi1 & Hh1 & Hlw1 & Hlast1)
                       | [(_ & _ & _ & Hi1 & Hh1 & Hlw1 & Hlast1)
                         | (_ & _ & Hi1 & Hh1 & Hlw1 & Hlast1)]].
    + apply Hnext; auto; lia.
    + apply Hnext; auto; lia.
    + apply IH; [lia | exact Hinv1 | lia | lia |].
      intros s' Hinv' Hlw' Hh' Hsi' Hlast'. apply Hnext; auto; lia.
Qed.

End h_runs.


(** ** Text reflow: a larger width needs no more lines *)

Section wider.
Variable text : text_t.
Variable w1 w2 : Z.
Hypothesis Hw1 : 1 <= w1.
Hypothesis Hw12 : w1 <= w2.

#[local] Abbreviation n := (length text).

(** At a larger width the loop of [tui_text_h_get] needs no more lines:
    started at the beginning of a line that is not before the line the
    loop at the smaller width is reading, it ends, not on -1, and counts
    at most as many further lines. *)
Lemma h_wider_keeps_up fuel : forall s1 s2 r1,
  h_inv text s1 -> h_line_inv text w1 s1 ->
  h_loop fuel text w1 s1 = Some r1 -> r1 <> -1 ->
  h_inv text s2 -> h_line_w s2 = 0 -> 1 <= h_h s2 ->
  h_last_space_index s2 < Z.of_nat (h_index s2) \/ h_last_space_index s2 = 0 ->
  Z.of_nat (h_index s1) - h_line_w s1 <= Z.of_nat (h_index s2) ->
  exists r2, h_result text w2 s2 r2 /\ r2 <> -1 /\ r2 - h_h s2 <= r1 - h_h s1.
Proof.
  assert (Hw0 : 0 <= w1) by lia.
  assert (Hend : forall s1 s2,
             h_inv text s1 -> h_line_inv text w1 s1 ->
             (length text <= h_index s1)%nat ->
             h_inv text s2 -> h_line_w s2 = 0 -> 1 <= h_h s2 ->
             Z.of_nat (h_index s1) - h_line_w s1 <= Z.of_nat (h_index s2) ->
             exists r2, h_result text w2 s2 r2 /\ r2 <> -1 /\ r2 - h_h s2 <= 0).
  { intros s1 s2 (_ & _ & Hidx) (Hlw & _ & Hline & _) Hge Hinv2 Hzero Hh2 Hahead.
    assert (Hidx2 : (h_index s2 <= length text)%nat) by apply Hinv2.
    exists (h_h s2). split; [|lia].
    apply (h_reach_end text w2 (n - h_index s2) s2 Hinv2); [lia | | lia].
    intros j Hj. apply Hline. lia. }
  induction fuel as [|fuel IH]; intros s1 s2 r1 Hinv1 Hlinv1; cbn [h_loop];
    destruct (Nat.ltb_spec (h_index s1) (length text)) as [Hlt|Hge];
    try discriminate;
    try (intros [= <-] _ Hinv2 Hzero Hh2 _ Hahead;
         destruct (Hend s1 s2) as (r2 & Hr2 & Hok & Hle); auto;
         exists r2; repeat split; auto; lia).
  destruct (h_body text w1 s1) as [s1'|r'] eqn:Hbody;
    [|intros [= <-] Hr; destruct Hr; exact (h_body_return text w1 s1 r' Hbody)].
  intros Hrun Hr Hinv2 Hzero Hh2 Hstart Hahead.
  destruct (h_body_inv text w1 s1 s1' Hinv1 Hlt Hbody) as (Hinv1' & _ & _).
  assert (Hlinv1' := h_body_line_inv text w1 Hw0 s1 s1' Hinv1 Hlinv1 Hlt Hbody).
  destruct (h_loop_result_ge text w1 fuel s1' r1 Hinv1' Hrun) as [|Hrge]; [contradiction|].
  destruct Hlinv1 as (Hlw & Hlwi & Hline & Hspace).
  destruct Hinv1 as (Hlast & Hsi & _).
  assert (Hidx2 : (h_index s2 <= length text)%nat) by apply Hinv2.
  assert (Hlast2 : 0 <= h_last_space_index s2) by apply Hinv2.
  (* a line-start state of the wider loop inherits the bound *)
  assert (Hgo : forall s2', h_inv text s2' -> h_line_w s2' = 0 ->
            h_h s2' = h_h s2 + 1 ->
            h_last_space_index s2' < Z.of_nat (h_index s2') ->
            Z.of_nat (h_index s1') - h_line_w s1' <= Z.of_nat (h_index s2') ->
            h_h s1' = h_h s1 + 1 ->
            exists r2, h_result text w2 s2' r2 /\ r2 <> -1
                       /\ r2 <= h_h s2 + (r1 - h_h s1)).
  { intros s2' Hinv2' Hzero' Hh2' Hstart' Hahead' Hh1'.
    destruct (IH s1' s2' r1) as (r2 & Hr2 & Hok & Hle); auto; [lia|].
    exists r2. repeat split; auto. lia. }
  assert (Hfin : forall s2', (exists r2, h_result text w2 s2' r2 /\ r2 <> -1
                                         /\ r2 <= h_h s2 + (r1 - h_h s1)) ->
            (forall r, h_result text w2 s2' r -> h_result text w2 s2 r) ->
            exists r2, h_result text w2 s2 r2 /\ r2 <> -1 /\ r2 - h_h s2 <= r1 - h_h s1).
  { intros s2' (r2 & Hr2 & Hok & Hle) Hres. exists r2. repeat split; auto. lia. }
  destruct (h_body_cases text w1 s1 s1' Hbody) as (Hsi' & Hcases).
  destruct Hcases as [(Hnl & Hi' & Hh' & Hlw' & _)
                     | [(Hnl & Hover & Hfresh & Hi' & Hh' & Hlw' & _)
                       | (Hnl & Hroom & Hi' & Hh' & Hlw' & _)]].
  - (* the narrower loop ends its line on a newline *)
    destruct (Z.le_gt_cases (Z.of_nat (S (h_index s1))) (Z.of_nat (h_index s2)))
      as [Hpast|Hbefore].
    + destruct (IH s1' s2 r1) as (r2 & Hr2 & Hok & Hle); auto; [lia|].
      exists r2. repeat split; auto. lia.
    + destruct (h_reach text w2 (h_index s1 - h_index s2) s2 Hinv2)
        as (t & Hinvt & Hit & Hht & Hlwt & Hlastt & Hres);
        [lia | intros j Hj; apply Hline; lia | lia |].
      replace (h_index s2 + (h_index s1 - h_index s2))%nat with (h_index s1) in Hit by lia.
      destruct (h_body_goes_on text w2 t) as (t' & Hbodyt); [left; rewrite Hit; exact Hnl|].
      assert (Hltt : (h_index t < length text)%nat) by lia.
      destruct (h_body_inv text w2 t t' Hinvt Hltt Hbodyt) as (Hinvt' & _).
      destruct (h_body_cases text w2 t t' Hbodyt) as (_ & Hcasest).
      rewrite Hit in Hcasest.
      destruct Hcasest as [(_ & Hi2 & Hh2' & Hlw2 & Hlast2')
                          | [(Hnl2 & _) | (Hnl2 & _)]]; try congruence.
      assert (Hsit : h_last_space_index t <= Z.of_nat (h_index t))
        by (destruct Hinvt as (? & ? & _); lia).
      apply (Hfin t').
      * apply Hgo; auto; lia.
      * intros r Hr'. apply Hres. apply (h_result_step text w2 t t'); auto.
  - (* the narrower loop breaks its line at the last space *)
    set (sp := if is_char (char_at text (h_index s1)) SPACE
               then Z.of_nat (h_index s1) else h_space_index s1) in *.
    assert (Hsp : h_last_space_index s1 < sp <= Z.of_nat (h_index s1)).
    { revert Hfresh. subst sp.
      destruct (is_char (char_at text (h_index s1)) SPACE); lia. }
    assert (Hspace_sp : is_char (char_at text (Z.to_nat sp)) SPACE = true).
    { destruct Hlinv1' as (_ & _ & _ & Hspace'). rewrite <- Hsi'. apply Hspace'. lia. }
    destruct (Z.le_gt_cases (Z.of_nat (S (Z.to_nat sp))) (Z.of_nat (h_index s2)))
      as [Hpast|Hbefore].
    + destruct (IH s1' s2 r1) as (r2 & Hr2 & Hok & Hle); auto; [lia|].
      exists r2. repeat split; auto. lia.
    + destruct (h_reach text w2 (Z.to_nat sp - h_index s2) s2 Hinv2)
        as (t & Hinvt & Hit & Hht & Hlwt & Hlastt & Hres);
        [lia | intros j Hj; apply Hline; lia | lia |].
      replace (h_index s2 + (Z.to_nat sp - h_index s2))%nat with (Z.to_nat sp) in Hit by lia.
      destruct (h_body_goes_on text w2 t) as (t' & Hbodyt).
      { right; right. rewrite Hit, Hspace_sp. lia. }
      assert (Hltt : (h_index t < length text)%nat) by lia.
      destruct (h_body_inv text w2 t t' Hinvt Hltt Hbodyt) as (Hinvt' & _).
      destruct (h_body_cases text w2 t t' Hbodyt) as (Hsit' & Hcasest).
      rewrite Hit, Hspace_sp in Hcasest, Hsit'.
      assert (Hres' : forall r, h_result text w2 t' r -> h_result text w2 s2 r).
      { intros r Hr'. apply Hres. apply (h_result_step text w2 t t'); auto. }
      destruct Hcasest as [(Hnl2 & _)
                          | [(_ & _ & _ & Hi2 & Hh2' & Hlw2 & Hlast2')
                            | (_ & _ & Hi2 & Hh2' & Hlw2 & Hlast2')]].
      * apply space_not_newline in Hspace_sp. congruence.
      * apply (Hfin t'); [|exact Hres']. apply Hgo; auto; lia.
      * apply (Hfin t'); [|exact Hres'].
        apply (h_finish_line text w2 (h_h s2 + (r1 - h_h s1)) (n - h_index t') t');
          [lia | exact Hinvt' | lia | lia |].
        intros t'' Hinv'' Hlw'' Hh'' Hsi'' Hlast''. apply Hgo; auto; lia.
  - (* the narrower loop stays in its line *)
    destruct (IH s1' s2 r1) as (r2 & Hr2 & Hok & Hle); auto; [lia|].
    exists r2. repeat split; auto. lia.
Qed.

(** A text that wraps at a width wraps at every larger width, into no
    more lines. *)
Lemma tui_text_h_get_wider :
  tui_text_h_get text w1 <> -1 ->
  tui_text_h_get text w2 <> -1 /\ tui_text_h_get text w2 <= tui_text_h_get text w1.
Proof.
  intros Hok.
  destruct (tui_text_h_get_returns text w1) as (Hrun1 & _).
  destruct (tui_text_h_get_returns text w2) as (Hrun2 & _).
  assert (Hex : exists r2, h_result text w2 h_init r2 /\ r2 <> -1
                          /\ r2 - h_h h_init <= tui_text_h_get text w1 - h_h h_init).
  { apply (h_wider_keeps_up (h_fuel text) h_init h_init (tui_text_h_get text w1)); auto.
    - apply h_init_inv.
    - unfold h_line_inv, h_init; simpl_h. repeat split; lia.
    - apply h_init_inv.
    - simpl_h. lia.
    - simpl_h. lia. }
  destruct Hex as (r2 & (fuel & Hr2) & Hok2 & Hle).
  assert (H1 := h_loop_more_fuel text w2 _ (fuel + h_fuel text) _ _
                  (Nat.le_add_r _ _) Hr2).
  assert (H2 := h_loop_more_fuel text w2 _ (fuel + h_fuel text) _ _
                  (Nat.le_add_l _ _) Hrun2).
  assert (Heq : tui_text_h_get text w2 = r2) by congruence.
  rewrite Heq. simpl_h. lia.
Qed.

End wider.


(** ** Text reflow: the width found is the smallest *)

Section w_get_minimal.
Variable text : text_t.
Variable h : Z.

Lemma feasible_wider m m' :
  1 <= m <= m' -> feasible text h m -> feasible text h m'.
Proof.
  intros Hm (Hok & Hle).
  destruct (tui_text_h_get_wider text m m') as (Hok' & Hle'); try lia; auto.
  split; [exact Hok' | lia].
Qed.

Lemma w_body_search_inv s :
  w_inv text h s -> w_search_inv text h s -> w_left s <= w_right s ->
  w_search_inv text h (w_body text h s).
Proof.
  unfold w_inv, w_search_inv, w_body. destruct s as [left right min_w]; simpl_w.
  intros (Hleft & Hright & _) (Hlow & Hmin) Hle.
  assert (Hmid : left <= (left + right) ÷ 2 <= right).
  { rewrite Z.quot_div_nonneg by lia. split.
    - apply Z.div_le_lower_bound; lia.
    - apply Z.div_le_upper_bound; lia. }
  set (mid := (left + right) ÷ 2) in *.
  assert (Hbelow : ~ feasible text h mid ->
            forall m, 1 <= m < mid + 1 -> ~ feasible text h m).
  { intros Hno m Hm Hyes. apply Hno. apply (feasible_wider m mid); [lia | exact Hyes]. }
  destruct (Z.eqb_spec (tui_text_h_get text mid) (-1)) as [Hfail|Hok]; simpl_w.
  - split; [|lia]. apply Hbelow. intros (Hok & _). contradiction.
  - destruct (Z.gtb_spec (tui_text_h_get text mid) h) as [Hgt|Hle']; simpl_w.
    + split; [|lia]. apply Hbelow. intros (_ & Hle'). lia.
    + split; [exact Hlow | lia].
Qed.

Lemma w_loop_minimal fuel : forall s r,
  w_inv text h s -> w_search_inv text h s ->
  w_loop fuel text h s = Some r ->
  forall w, 1 <= w -> feasible text h w -> r <= w.
Proof.
  induction fuel as [|fuel IH]; intros s r Hinv Hsearch; cbn [w_loop];
    destruct (Z.leb_spec (w_left s) (w_right s)) as [Hle|Hgt];
    try discriminate;
    try (intros [= <-] w Hw Hfeas; destruct Hsearch as (Hlow & Hmin);
         destruct (Z.lt_ge_cases w (w_left s)) as [Hlt|Hge];
         [destruct (Hlow w); [lia | exact Hfeas] | lia]).
  destruct (w_body_inv text h s Hinv Hle) as (Hinv' & _).
  apply IH; [exact Hinv' | apply w_body_search_inv; assumption].
Qed.

(** The width [tui_text_w_get] finds is not above any width, from 1 on,
    at which the text wraps into at most [h] lines. *)
Lemma tui_text_w_get_minimal w :
  1 <= w -> feasible text h w -> tui_text_w_get text h <= w.
Proof.
  destruct (tui_text_w_get_returns text h) as (Hrun & _).
  intros Hw Hfeas.
  apply (w_loop_minimal (S (length text)) (w_init text) (tui_text_w_get text h));
    [| |exact Hrun|exact Hw|exact Hfeas].
  - unfold w_inv; simpl_w. lia.
  - unfold w_search_inv; simpl_w. split; [intros m Hm; lia | lia].
Qed.

(** When no width below the length will do, it is the length. *)
Lemma tui_text_w_get_default :
  (forall m, 1 <= m < Z.of_nat (length text) -> ~ feasible text h m) ->
  tui_text_w_get text h = Z.of_nat (length text).
Proof.
  intros Hnone.
  destruct (tui_text_w_get_returns text h) as (_ & [Heq | (Hrange & Hfeas)]);
    [exact Heq|].
  destruct (Z.eq_dec (tui_text_w_get text h) (Z.of_nat (length text))) as [Heq|Hne];
    [exact Heq|].
  destruct (Hnone (tui_text_w_get text h)); [lia | exact Hfeas].
Qed.

End w_get_minimal.

(** ** The longest word of a text *)

Section longest_word_facts.

Lemma longest_word_from_ge text : forall current,
  (current <= longest_word_from text current)%nat.
Proof.
  induction text as [|c text IH]; intros current; cbn [longest_word_from]; [lia|].
  destruct (is_word_char c); [specialize (IH (S current)) | ]; lia.
Qed.

Lemma longest_word_from_mono text : forall current current',
  (current <= current')%nat ->
  (longest_word_from text current <= longest_word_from text current')%nat.
Proof.
  induction text as [|c text IH]; intros current current' Hle;
    cbn [longest_word_from]; [lia|].
  destruct (is_word_char c); [apply IH; lia | lia].
Qed.

Lemma word_at_cons c text from count :
  word_at (c :: text) (S from) count <-> word_at text from count.
Proof.
  unfold word_at, char_at. split; intros Hword j Hj.
  - destruct (Hword (S j)) as (Hlt & Hc); [lia|]. cbn in Hlt, Hc. split; [lia | exact Hc].
  - destruct j as [|j]; [lia|]. destruct (Hword j) as (Hlt & Hc); [lia|].
    cbn. split; [lia | exact Hc].
Qed.

(** A word at the start of the text adds to the word being read. *)
Lemma word_at_start_longest text : forall count current,
  word_at text 0 count -> (current + count <= longest_word_from text current)%nat.
Proof.
  induction text as [|c text IH]; intros count current Hword.
  - destruct count; [cbn; lia|].
    destruct (Hword 0%nat) as (Hlt & _); [lia | cbn in Hlt; lia].
  - destruct count as [|count].
    + rewrite Nat.add_0_r. apply longest_word_from_ge.
    + cbn [longest_word_from].
      destruct (Hword 0%nat) as (_ & Hc); [lia|]. cbn in Hc. rewrite Hc.
      assert (Htail : word_at text 0 count).
      { apply (word_at_cons c). intros j Hj. apply Hword. lia. }
      specialize (IH count (S current) Htail). lia.
Qed.

(** A word of [count] letters somewhere in the text is not longer than
    the longest word. *)
Lemma word_at_longest text : forall from count current,
  word_at text from count -> (count <= longest_word_from text current)%nat.
Proof.
  induction text as [|c text IH]; intros from count current Hword.
  - destruct count; [lia|]. destruct (Hword from) as (Hlt & _); [lia | cbn in Hlt; lia].
  - destruct from as [|from].
    + assert (Hstart := word_at_start_longest (c :: text) count current Hword). lia.
    + cbn [longest_word_from]. apply word_at_cons in Hword.
      destruct (is_word_char c).
      * apply (IH from count). exact Hword.
      * specialize (IH from count 0%nat Hword). lia.
Qed.

(** The longest word is a word of the text. *)
Lemma longest_word_at text : forall current,
  (exists lead, word_at text 0 lead
                /\ longest_word_from text current = (current + lead)%nat)
  \/ (exists from, word_at text from (longest_word_from text current)).
Proof.
  induction text as [|c text IH]; intros current; cbn [longest_word_from].
  - left. exists 0%nat. split; [intros j Hj; lia | lia].
  - destruct (is_word_char c) eqn:Hc.
    + destruct (IH (S current)) as [(lead & Hlead & Heq) | (from & Hfrom)].
      * left. exists (S lead). split; [|lia].
        intros j Hj. destruct j as [|j]; [cbn; split; [lia | exact Hc]|].
        apply (word_at_cons c text 0 lead); [exact Hlead | lia].
      * right. exists (S from). apply word_at_cons. exact Hfrom.
    + destruct (Nat.max_spec current (longest_word_from text 0)) as [(_ & ->) | (_ & ->)].
      * destruct (IH 0%nat) as [(lead & Hlead & Heq) | (from & Hfrom)].
        -- right. exists 1%nat. apply word_at_cons. rewrite Heq. exact Hlead.
        -- right. exists (S from). apply word_at_cons. exact Hfrom.
      * left. exists 0%nat. split; [intros j Hj; lia | lia].
Qed.

(** Some word has [count] letters or more exactly when the longest
    has. *)
Lemma word_at_iff_longest text count :
  (exists from, word_at text from count) <-> (count <= longest_word text)%nat.
Proof.
  unfold longest_word. split.
  - intros (from & Hword). exact (word_at_longest text from count 0 Hword).
  - intros Hle. destruct (longest_word_at text 0) as [(lead & Hlead & Heq) | (from & Hfrom)].
    + exists 0%nat. intros j Hj. apply Hlead. lia.
    + exists from. intros j Hj. apply Hfrom. lia.
Qed.

End longest_word_facts.


(** ** Text reflow: summary *)

Section reflow_summary.
Variable text : text_t.

(** For widths from 1 on, [tui_text_h_get] fails exactly when a word is
    longer than the width, or when the text starts with a space and a
    word that fills the width: the space at index 0 is not seen as a
    place to break. *)
Lemma tui_text_h_get_fails_exactly (max_w : Z) :
  1 <= max_w ->
  tui_text_h_get text max_w = -1
  <-> (Z.to_nat max_w < longest_word text)%nat \/ space_then_word text max_w.
Proof.
  intros Hw. rewrite (tui_text_h_get_fails_iff text max_w Hw).
  rewrite (word_at_iff_longest text (S (Z.to_nat max_w))). reflexivity.
Qed.

(** For a text that does not start with a space the failure is the one
    documented: a word longer than the width. *)
Lemma tui_text_h_get_fails_long_word (max_w : Z) :
  1 <= max_w -> is_char (char_at text 0) SPACE = false ->
  tui_text_h_get text max_w = -1 <-> (Z.to_nat max_w < longest_word text)%nat.
Proof.
  intros Hw Hfirst. rewrite (tui_text_h_get_fails_exactly max_w Hw).
  unfold space_then_word. rewrite Hfirst. intuition discriminate.
Qed.

(** The width found for the height of a text at a width at which it
    wraps is not above that width. *)
Lemma tui_text_w_get_of_wrapped (w : Z) :
  1 <= w -> tui_text_h_get text w <> -1 ->
  tui_text_w_get text (tui_text_h_get text w) <= w.
Proof.
  intros Hw Hok. apply tui_text_w_get_minimal; [exact Hw|].
  split; [exact Hok | lia].
Qed.

End reflow_summary.



(** ** Text reflow: the height fits a C int *)

Section h_range.
Variable text : text_t.
Variable max_w : Z.

(** The height grows by at most one where the measure drops by at least
    one. *)
Lemma h_loop_bounded fuel : forall s r,
  h_inv text s -> h_loop fuel text max_w s = Some r ->
  r = -1 \/ r <= h_h s + h_measure text s.
Proof.
  induction fuel as [|fuel IH]; intros s r Hinv; cbn [h_loop];
    destruct (Nat.ltb_spec (h_index s) (length text)) as [Hlt|Hge];
    try discriminate;
    try (intros [= <-]; right; unfold h_inv, h_measure in *; nia).
  destruct (h_body text max_w s) as [s'|r'] eqn:Hbody.
  - destruct (h_body_inv text max_w s s' Hinv Hlt Hbody) as (Hinv' & Hdec & _).
    destruct (h_body_cases text max_w s s' Hbody) as (_ & Hcases).
    intros Hrun. destruct (IH s' r Hinv' Hrun) as [|Hle]; [left; assumption|].
    right. destruct Hcases as [(_ & _ & Hh & _) | [(_ & _ & _ & _ & Hh & _)
                                                 | (_ & _ & _ & Hh & _)]]; lia.
  - intros [= <-]. left. exact (h_body_return text max_w s r' Hbody).
Qed.

(** The result of [tui_text_h_get] is -1 or lies between 1 and
    [(length + 1)^2]: for a text of fewer than 46340 characters it is
    the value of the C [int]. *)
Lemma tui_text_h_get_range :
  tui_text_h_get text max_w = -1
  \/ 1 <= tui_text_h_get text max_w
       <= (Z.of_nat (length text) + 1) * (Z.of_nat (length text) + 1).
Proof.
  destruct (tui_text_h_get_returns text max_w) as (Hrun & [Hfail|Hpos]);
    [left; exact Hfail|].
  destruct (h_loop_bounded _ _ _ (h_init_inv text) Hrun) as [Hfail|Hle];
    [left; exact Hfail|].
  right. unfold h_measure, h_init in Hle; simpl_h. lia.
Qed.

End h_range.


(** ** The loops that only move forward: the fuel is enough *)

Section forward_loops.

(** Fuel beyond the characters left does not change the result of the
    loop that skips an escape sequence. *)
Lemma skip_loop_fuel string fuel : forall fuel' index,
  (length string - index <= fuel)%nat -> (length string - index <= fuel')%nat ->
  skip_loop fuel string index = skip_loop fuel' string index.
Proof.
  induction fuel as [|fuel IH]; intros fuel' index Hfuel Hfuel'.
  - destruct fuel' as [|fuel']; [reflexivity|]. cbn [skip_loop].
    destruct (Nat.ltb_spec index (length string)); [lia | reflexivity].
  - cbn [skip_loop]. destruct fuel' as [|fuel']; cbn [skip_loop].
    + destruct (Nat.ltb_spec index (length string)); [lia | reflexivity].
    + destruct (_ && _); [|reflexivity]. apply IH; lia.
Qed.

(** The skip ends at or after the index it starts from. *)
Lemma skip_loop_ge string fuel : forall index,
  (index <= skip_loop fuel string index)%nat.
Proof.
  induction fuel as [|fuel IH]; intros index; cbn [skip_loop]; [lia|].
  destruct (_ && _); [specialize (IH (S index)) |]; lia.
Qed.

(** Fuel beyond the characters left does not change the result of the
    loop of [tui_text_extract]. *)
Lemma extract_loop_fuel string fuel : forall fuel' index text,
  (length string - index <= fuel)%nat -> (length string - index <= fuel')%nat ->
  extract_loop fuel string index text = extract_loop fuel' string index text.
Proof.
  induction fuel as [|fuel IH]; intros fuel' index text Hfuel Hfuel'.
  - destruct fuel' as [|fuel']; [reflexivity|]. cbn [extract_loop].
    destruct (Nat.ltb_spec index (length string)); [lia | reflexivity].
  - cbn [extract_loop]. destruct fuel' as [|fuel']; cbn [extract_loop].
    + destruct (Nat.ltb_spec index (length string)); [lia | reflexivity].
    + destruct (Nat.ltb_spec index (length string)); [|reflexivity].
      assert (Hge := skip_loop_ge string (length string - index) index).
      destruct (is_char _ ESCAPE); apply IH; unfold skip_escape; lia.
Qed.

(** A pass of the loop of [tui_text_render], case by case. *)
Lemma r_body_run window h ws s w :
  r_body window h ws s w =
  let head := text_head window in
  let rect := head_rect head in
  let letter := char_at (text_string window) (r_index s) in
  let index :=
    if is_char letter ESCAPE then skip_escape (text_string window) (r_index s)
    else r_index s in
  if is_char letter SPACE && (r_line_w s =? 0) then
    Some (mk_r_state (S index) (r_line_index s) 0 (r_y s), w)
  else
    match ws_load ws (r_line_index s) with
    | None => None
    | Some width =>
        if r_line_w s >=? width then
          Some (mk_r_state (S index) (r_line_index s + 1) 0 (r_y s + 1), w)
        else if r_coords_ok window h width s then
          Some (mk_r_state (S index) (r_line_index s) (r_line_w s + 1) (r_y s),
                mk_world (active w)
                  (calls w ++
                   [Ewmove (head_window head)
                      (rect_y rect + y_shift_of (text_pos window) (rect_h rect - h)
                       + r_y s)
                      (rect_x rect + (rect_w rect - width) ÷ 2 + r_line_w s);
                    Ewaddch (head_window head) (chtype_of_char letter)]))
        else None
    end.
Proof.
  unfold r_body, r_coords_ok. cbv zeta.
  destruct (_ && _); [reflexivity|].
  unfold mbind, M_bind, bind, deref.
  destruct (ws_load ws (r_line_index s)) as [width|]; [|reflexivity].
  cbn [ret]. destruct (_ >=? _); [reflexivity|].
  unfold int_value, ret, undefined, call, mret, M_ret.
  repeat (destruct (in_int _); cbn [andb]; [|reflexivity]).
  cbn [active calls]. rewrite <- app_assoc. reflexivity.
Qed.

(** A pass of the loop of [tui_text_render] moves the index forward. *)
Lemma r_body_forward window h ws s w s' w' :
  r_body window h ws s w = Some (s', w') -> (r_index s < r_index s')%nat.
Proof.
  rewrite r_body_run. cbv zeta.
  assert (Hge := skip_loop_ge (text_string window)
                   (length (text_string window) - r_index s) (r_index s)).
  fold (skip_escape (text_string window) (r_index s)) in Hge.
  set (index := if is_char _ ESCAPE then _ else _).
  assert (Hindex : (r_index s <= index)%nat)
    by (subst index; destruct (is_char _ ESCAPE); lia).
  clearbody index.
  destruct (_ && _); [intros [= <- _]; cbn; lia|].
  destruct (ws_load ws (r_line_index s)) as [width|]; [|discriminate].
  destruct (_ >=? _); [intros [= <- _]; cbn; lia|].
  destruct (r_coords_ok _ _ _ _); [|discriminate].
  intros [= <- _]; cbn; lia.
Qed.

(** Fuel beyond the characters left does not change the result of the
    loop of [tui_text_render]. *)
Lemma r_loop_fuel window h ws fuel : forall fuel' s w,
  (length (text_string window) - r_index s <= fuel)%nat ->
  (length (text_string window) - r_index s <= fuel')%nat ->
  r_loop fuel window h ws s w = r_loop fuel' window h ws s w.
Proof.
  induction fuel as [|fuel IH]; intros fuel' s w Hfuel Hfuel'.
  - destruct fuel' as [|fuel']; [reflexivity|]. cbn [r_loop].
    destruct (Nat.ltb_spec (r_index s) (length (text_string window)));
      [lia | reflexivity].
  - cbn [r_loop]. destruct fuel' as [|fuel']; cbn [r_loop].
    + destruct (Nat.ltb_spec (r_index s) (length (text_string window)));
        [lia | reflexivity].
    + destruct (Nat.ltb_spec (r_index s) (length (text_string window)));
        [|reflexivity].
      unfold mbind, M_bind, bind.
      destruct (r_body window h ws s w) as [[s' w']|] eqn:Hbody; [|reflexivity].
      apply r_body_forward in Hbody. apply IH; lia.
Qed.

(** The loop of [tui_text_ws_get] ends within the fuel of the model when
    the table has [h] entries. *)
Lemma tui_text_ws_get_run_returns (ws : ws_table) (text : text_t) (h : Z) :
  Z.of_nat (length ws) = h ->
  exists r, tui_text_ws_get_run ws text h = Some r.
Proof.
  intros Hlen. unfold tui_text_ws_get_run.
  apply ws_loop_ends.
  - unfold ws_ok, ws_init; simpl_ws. lia.
  - unfold ws_measure, ws_fuel, ws_init; simpl_ws. nia.
Qed.

End forward_loops.

(** ** Text reflow: a text that starts with a space *)

Section leading_space_defect.

(** C3 on the code: at width 1 no word of " a" is longer than the width,
    and [tui_text_h_get] returns -1 all the same.  The space at index 0
    is not told apart from "no space seen yet", both being
    [space_index == 0 == last_space_index]. *)
Theorem tui_text_h_get_fails_without_long_word :
  (longest_word text_space_a <= 1)%nat
  /\ tui_text_h_get_run text_space_a 1 = Some (-1)
  /\ tui_text_h_get text_space_a 1 = -1.
Proof. repeat split. vm_compute. lia. Qed.

(** C4 on the code: for the same text the height is -1 at width 1 and 1
    at width 2, and the width found for the height returned at width 1
    is 2, above 1. *)
Theorem tui_text_w_get_above_width :
  (longest_word text_space_a <= 1)%nat
  /\ tui_text_h_get text_space_a 1 = -1
  /\ tui_text_h_get text_space_a 2 = 1
  /\ tui_text_w_get_run text_space_a (tui_text_h_get text_space_a 1) = Some 2
  /\ ~ tui_text_w_get text_space_a (tui_text_h_get text_space_a 1) <= 1.
Proof.
  split; [vm_compute; lia|]. do 3 (split; [reflexivity|]).
  vm_compute. intros Hle. apply Hle. reflexivity.
Qed.

End leading_space_defect.

(** ** Text reflow: the widths of the lines *)

Section line_widths_examples.

(** C5 fails as stated: the text wraps to height 2, its two lines have
    width 1 each, and the sum 2 is one less than the length 3 although the
    text has no space that could have been dropped: the newline is not
    part of any line. *)
Lemma tui_text_ws_get_drops_newline :
  let text := tui_text_extract text_a_newline_b in
  let h := tui_text_h_get text 1 in
  text = text_a_newline_b
  /\ h = 2
  /\ tui_text_ws_get (replicate (Z.to_nat h) None) text h = Some [Some 1; Some 1]
  /\ count_char SPACE text = 0%nat
  /\ sum_written [Some 1; Some 1] <> Z.of_nat (length text).
Proof. repeat split. vm_compute. discriminate. Qed.

End line_widths_examples.

(** ** Rendering of text *)

Section text_render_facts.

Variable window : tui_window_text_t.
Variable h : Z.
Variable ws : ws_table.

#[local] Abbreviation win := (head_window (text_head window)).
#[local] Abbreviation rect := (head_rect (text_head window)).

(** A space while the line is still empty is passed over: nothing is
    drawn and [line_w] stays 0. *)
Lemma r_body_leading_space (s : r_state) (w : world) :
  char_at (text_string window) (r_index s) = SPACE ->
  r_line_w s = 0 ->
  r_body window h ws s w =
  Some (mk_r_state (S (r_index s)) (r_line_index s) 0 (r_y s), w).
Proof.
  intros Hletter Hline. rewrite r_body_run. cbv zeta.
  rewrite Hletter, Hline. reflexivity.
Qed.

(** At the first character of an escape sequence the index moves to the
    end of the sequence, and then the character is treated like any
    other: inside a line it is drawn and [line_w] grows by one, the
    coordinates being computed without an overflow. *)
Lemma r_body_escape_is_drawn (s : r_state) (w : world) (width : Z) :
  char_at (text_string window) (r_index s) = ESCAPE ->
  ws_load ws (r_line_index s) = Some width ->
  r_line_w s < width ->
  r_coords_ok window h width s = true ->
  r_body window h ws s w =
  Some (mk_r_state (S (skip_escape (text_string window) (r_index s)))
                   (r_line_index s) (r_line_w s + 1) (r_y s),
        mk_world (active w)
          (calls w ++
           [Ewmove win
              (rect_y rect + y_shift_of (text_pos window) (rect_h rect - h) + r_y s)
              (rect_x rect + (rect_w rect - width) ÷ 2 + r_line_w s);
            Ewaddch win (chtype_of_char ESCAPE)])).
Proof.
  intros Hletter Hload Hline Hcoords. rewrite r_body_run. cbv zeta.
  rewrite Hletter, Hload, Hcoords.
  destruct (Z.geb_spec (r_line_w s) width) as [Hge|_]; [lia|]. reflexivity.
Qed.

End text_render_facts.

Section text_render_example.

(** C6 on the code: the plain text is "AB", one line of width 2, but the
    render draws the escape character in the first cell and "A" in the
    second; "B" finds the line full and is not drawn. *)
Theorem tui_text_render_draws_escape :
  let text := tui_text_extract (text_string window_escape_AB) in
  text = str "AB"
  /\ exists s w',
      tui_text_render_run (set_text window_escape_AB (Some text))
                          (mk_world TUI_COLOR_NONE [])
      = Some (s, w')
      /\ calls w' = [Ewmove (Some 1%nat) 0 0;
                     Ewaddch (Some 1%nat) (chtype_of_char ESCAPE);
                     Ewmove (Some 1%nat) 0 1;
                     Ewaddch (Some 1%nat) (chtype_of_char "A")].
Proof.
  split; [reflexivity|]. do 2 eexists. split; [vm_compute; reflexivity | reflexivity].
Qed.

End text_render_example.

(** ** Rendering: the order of painting *)

Section emits_facts.

Lemma erased_app (l l' : list event) : erased (l ++ l') = erased l ++ erased l'.
Proof. unfold erased. apply omap_app. Qed.

Lemma emits_ret {A} (a : A) : emits (mret a) [].
Proof.
  intros w a' w' [= <- <-]. exists []. rewrite app_nil_r. split; reflexivity.
Qed.

Lemma emits_undefined {A} erases : emits (@undefined A) erases.
Proof. intros w a w' [=]. Qed.

Lemma emits_bind {A B} (m : M A) (k : A -> M B) l l' :
  emits m l -> (forall a, emits (k a) l') -> emits (m ≫= k) (l ++ l').
Proof.
  intros Hm Hk w b w'. unfold mbind, M_bind, bind.
  destruct (m w) as [[a w1]|] eqn:Hrun; [|discriminate].
  intros Hrun'.
  destruct (Hm _ _ _ Hrun) as (new & Hcalls & Herased).
  destruct (Hk _ _ _ _ Hrun') as (new' & Hcalls' & Herased').
  exists (new ++ new'). rewrite Hcalls', Hcalls, <- app_assoc, erased_app.
  split; congruence.
Qed.

Lemma emits_ret_bind {A B} (a : A) (k : A -> M B) l :
  emits (k a) l -> emits (mret a ≫= k) l.
Proof. intros Hk. exact Hk. Qed.

Lemma emits_undefined_bind {A B} (k : A -> M B) l :
  emits (undefined ≫= k) l.
Proof. intros w a w' [=]. Qed.

Lemma emits_call (e : event) : emits (call e) (erased [e]).
Proof. intros w a w' [= <- <-]. exists [e]. split; reflexivity. Qed.

Lemma emits_call_other (e : event) : erased [e] = [] -> emits (call e) [].
Proof. intros <-. apply emits_call. Qed.

Lemma emits_get_color : emits get_color [].
Proof.
  intros w a w' [= <- <-]. exists []. rewrite app_nil_r. split; reflexivity.
Qed.

Lemma emits_set_color color : emits (set_color color) [].
Proof.
  intros w a w' [= <- <-]. exists []. cbn. rewrite app_nil_r. split; reflexivity.
Qed.

Lemma emits_deref {A} (p : option A) : emits (deref p) [].
Proof. destruct p; [apply emits_ret | apply emits_undefined]. Qed.

Lemma emits_eq {A} (m : M A) l l' : emits m l -> l = l' -> emits m l'.
Proof. intros Hm <-. exact Hm. Qed.

End emits_facts.

(** Splits a computation into its steps; the list of erased windows is
    found by unification. *)
Ltac emits_step :=
  lazy beta zeta;
  first
    [ apply emits_ret
    | apply emits_undefined
    | apply emits_get_color
    | apply emits_set_color
    | apply emits_deref
    | apply emits_call_other; reflexivity
    | apply emits_call
    | eapply emits_bind; [| intros ?] ].

Ltac emits_solve := eapply emits_eq; [repeat emits_step | reflexivity].

Section paint_order_facts.

Lemma emits_tui_color_on color : emits (tui_color_on color) [].
Proof. unfold tui_color_on. emits_solve. Qed.

Lemma emits_tui_color_off color : emits (tui_color_off color) [].
Proof. unfold tui_color_off. emits_solve. Qed.

Lemma emits_tui_window_fill head : emits (tui_window_fill head) [].
Proof. unfold tui_window_fill. emits_solve. Qed.

Lemma emits_tui_border_draw head border : emits (tui_border_draw head border) [].
Proof.
  destruct border as [border|]; [|apply emits_ret].
  unfold tui_border_draw.
  eapply emits_eq.
  - eapply emits_bind; [apply emits_tui_color_on | intros _].
    eapply emits_bind; [|intros _; apply emits_tui_color_off].
    destruct (border_is_dashed border); apply emits_call_other; reflexivity.
  - reflexivity.
Qed.

Lemma emits_r_body window h ws s : emits (r_body window h ws s) [].
Proof.
  intros w s' w'. rewrite r_body_run. cbv zeta.
  destruct (is_char _ SPACE && _);
    [intros [= <- <-]; exists []; rewrite app_nil_r; split; reflexivity|].
  destruct (ws_load ws (r_line_index s)) as [width|]; [|discriminate].
  destruct (r_line_w s >=? width);
    [intros [= <- <-]; exists []; rewrite app_nil_r; split; reflexivity|].
  destruct (r_coords_ok _ _ _ _); [|discriminate].
  intros [= <- <-]. eexists. split; reflexivity.
Qed.

Lemma emits_r_loop fuel window h ws s : emits (r_loop fuel window h ws s) [].
Proof.
  revert s. induction fuel as [|fuel IH]; intros s; cbn [r_loop].
  - apply emits_ret.
  - destruct (_ <? _)%nat; [|apply emits_ret].
    eapply emits_eq.
    + eapply emits_bind; [apply emits_r_body | intros s'; apply IH].
    + reflexivity.
Qed.

Lemma emits_tui_text_render window : emits (tui_text_render window) [].
Proof.
  unfold tui_text_render, tui_text_render_run.
  eapply emits_eq.
  - eapply emits_bind; [|intros ?; apply emits_ret].
    eapply emits_bind; [apply emits_deref | intros text].
    destruct (_ <=? 0); [apply emits_undefined|].
    eapply emits_bind; [apply emits_deref | intros ws]. apply emits_r_loop.
  - reflexivity.
Qed.

Lemma emits_tui_window_text_render window :
  emits (tui_window_text_render window) [head_window (text_head window)].
Proof.
  unfold tui_window_text_render.
  eapply emits_eq.
  - eapply emits_bind; [apply emits_call_other; reflexivity | intros _].
    eapply emits_bind; [apply emits_call | intros _].
    eapply emits_bind; [apply emits_tui_window_fill | intros _].
    eapply emits_bind; [| intros _].
    + destruct (text_text window);
        [apply emits_call_other; reflexivity | apply emits_ret].
    + eapply emits_bind; [apply emits_tui_text_render | intros _].
      eapply emits_bind; [apply emits_call_other; reflexivity | intros _].
      apply emits_ret.
  - reflexivity.
Qed.

End paint_order_facts.

Section tree_induction.

Variable P : tui_win -> Prop.

Hypothesis P_text : forall window, P (Window_text window).

Hypothesis P_parent :
  forall head children is_vertical border has_padding pos align,
    Forall (fun slot => forall child, slot = Some child -> P child) children ->
    P (Window_parent head children is_vertical border has_padding pos align).

(** Induction on a window with the property known of every child. *)
Lemma tui_win_ind : forall window, P window.
Proof.
  fix IH 1. intros [window | head children is_vertical border has_padding pos align].
  - apply P_text.
  - apply P_parent.
    induction children as [|[child|] rest IHrest]; constructor; try assumption.
    + intros ? [= <-]. apply IH.
    + intros ? [=].
Qed.

End tree_induction.

Section render_order.

Lemma paint_order_all_app windows windows' :
  paint_order_all (windows ++ windows')
  = paint_order_all windows ++ paint_order_all windows'.
Proof.
  unfold paint_order_all.
  induction windows as [|slot rest IH]; cbn; [reflexivity|].
  rewrite IH, app_assoc. reflexivity.
Qed.

Lemma emits_children_render render children :
  Forall (fun slot => forall child, slot = Some child ->
                      emits (render child) (paint_order child)) children ->
  emits (children_render render children) (paint_order_all children).
Proof.
  unfold paint_order_all.
  induction 1 as [|[child|] rest Hchild _ IH]; cbn [children_render paint_order_with].
  - apply emits_ret.
  - eapply emits_eq.
    + eapply emits_bind; [apply Hchild; reflexivity | intros child'].
      eapply emits_bind; [apply IH | intros rest']. apply emits_ret.
    + rewrite app_nil_r. reflexivity.
  - apply emits_undefined.
Qed.

(** A window's render erases the window and then its descendants, child
    by child from the first to the last. *)
Lemma emits_tui_window_render window :
  emits (tui_window_render window) (paint_order window).
Proof.
  induction window as [window | head children is_vertical border has_padding
                                  pos align IH] using tui_win_ind;
    cbn [tui_window_render paint_order].
  - eapply emits_eq.
    + eapply emits_bind; [apply emits_tui_window_text_render | intros window'].
      apply emits_ret.
    + reflexivity.
  - eapply emits_eq.
    + eapply emits_bind; [apply emits_call_other; reflexivity | intros _].
      eapply emits_bind; [apply emits_call | intros _].
      eapply emits_bind; [apply emits_tui_window_fill | intros _].
      eapply emits_bind; [apply emits_tui_border_draw | intros _].
      eapply emits_bind; [apply emits_children_render, IH | intros children'].
      eapply emits_bind; [apply emits_call_other; reflexivity | intros _].
      apply emits_ret.
    + cbn. rewrite app_nil_r. reflexivity.
Qed.

(** The loop of [tui_windows_render] paints the windows below [index]
    from the last to the first. *)
Lemma emits_windows_render_loop index : forall windows,
  emits (windows_render_loop windows index)
        (paint_order_all (reverse (take index windows))).
Proof.
  induction index as [|index IH]; intros windows; cbn [windows_render_loop].
  - rewrite take_0. apply emits_ret.
  - destruct (windows !! index) as [[window|]|] eqn:Hslot; cbn [mjoin option_join deref];
      [|apply emits_undefined_bind..].
    apply emits_ret_bind.
    eapply emits_eq.
    + eapply emits_bind; [apply emits_tui_window_render | intros window'].
      eapply emits_eq; [apply IH | rewrite take_insert_ge by lia; reflexivity].
    + rewrite (take_S_r _ _ _ Hslot), reverse_app, paint_order_all_app.
      cbn. rewrite !app_nil_r. reflexivity.
Qed.

End render_order.

Section render_order_root.

Lemma emits_tui_windows_render windows :
  emits (tui_windows_render windows (length windows))
        (paint_order_all (reverse windows)).
Proof.
  unfold tui_windows_render.
  eapply emits_eq; [apply emits_windows_render_loop|].
  rewrite firstn_all. reflexivity.
Qed.

Lemma emits_tui_render_run (tui : tui_t) :
  emits (tui_render_run tui)
        (paint_order_all (reverse (tui_windows tui))
         ++ match active_menu tui with
            | Some menu => paint_order_all (reverse (menu_windows menu))
            | None => []
            end).
Proof.
  unfold tui_render_run, active_menu.
  eapply emits_eq.
  - eapply emits_bind; [apply emits_call_other; reflexivity | intros _].
    eapply emits_bind; [apply emits_tui_windows_render | intros windows].
    eapply emits_bind; [| intros menus].
    + instantiate (1 := match tui_menu tui ≫= (fun index => mjoin (tui_menus tui !! index)) with
                        | Some menu => paint_order_all (reverse (menu_windows menu))
                        | None => []
                        end).
      destruct (tui_menu tui) as [index|]; cbn [mbind option_bind];
        [|apply emits_ret].
      destruct (tui_menus tui !! index) as [[menu|]|]; cbn [mjoin option_join deref];
        [|apply emits_undefined_bind..].
      apply emits_ret_bind.
      eapply emits_eq.
      * eapply emits_bind; [apply emits_tui_windows_render | intros windows'].
        apply emits_ret.
      * rewrite app_nil_r. reflexivity.
    + eapply emits_bind; [apply emits_call_other; reflexivity | intros _].
      apply emits_ret.
  - cbn. rewrite !app_nil_r. reflexivity.
Qed.

(** C7: when [tui_render] returns, the windows were painted in this
    order: the windows of the tui from the last to the first, then, if a
    menu is active, the windows of that menu from the last to the first;
    and each of them before its children, which follow from the first to
    the last (so for every window, whatever the world it is rendered
    in). *)
Theorem tui_render_paint_order :
  (forall (tui tui' : tui_t) (calls : list event),
      tui_render tui = Some (tui', calls) ->
      erased calls
      = paint_order_all (reverse (tui_windows tui))
        ++ match active_menu tui with
           | Some menu => paint_order_all (reverse (menu_windows menu))
           | None => []
           end)
  /\ (forall head children is_vertical border has_padding pos align,
      emits (tui_window_render
               (Window_parent head children is_vertical border has_padding pos align))
            (head_window head :: paint_order_all children)).
Proof.
  split.
  - intros tui tui' calls. unfold tui_render.
    destruct (tui_render_run tui _) as [[[windows menus] w]|] eqn:Hrun; [|discriminate].
    intros [= _ <-].
    destruct (emits_tui_render_run _ _ _ _ Hrun) as (new & Hcalls & Herased).
    cbn in Hcalls. rewrite Hcalls. exact Herased.
  - intros. apply (emits_tui_window_render (Window_parent _ _ _ _ _ _ _)).
Qed.

End render_order_root.

Section render_order_example.

(** The box is painted first, its children 3 and 4 in this order, then
    window 1, then the windows of the menu, 6 before 5. *)
Lemma tui_render_paint_order_witness :
  exists tui' calls,
    tui_render tui_six_windows = Some (tui', calls)
    /\ erased calls = [Some 2; Some 3; Some 4; Some 1; Some 6; Some 5]%nat.
Proof.
  destruct (tui_render tui_six_windows) as [[tui' calls]|] eqn:Hrender;
    [|vm_compute in Hrender; discriminate].
  exists tui', calls. split; [reflexivity|].
  rewrite (proj1 tui_render_paint_order tui_six_windows tui' calls Hrender).
  reflexivity.
Defined.

End render_order_example.

(** ** The color pairs *)

Section color_pairs.

(** No [short] wraps on the palette. *)
Lemma tui_ncurses_color_get_palette color :
  in_palette color ->
  tui_ncurses_color_get color = (fg color + 1) * 9 + (bg color + 1).
Proof.
  intros [Hfg Hbg]. unfold tui_ncurses_color_get, short_of_int.
  rewrite Z.mod_small by lia. lia.
Qed.

(** X1: On the palette [tui_ncurses_color_get] numbers the colors from 0 to
    80, and two colors never get the same number. *)
Theorem tui_ncurses_color_get_one_to_one (c1 c2 : tui_color_t) :
  in_palette c1 -> in_palette c2 ->
  0 <= tui_ncurses_color_get c1 <= 80
  /\ (tui_ncurses_color_get c1 = tui_ncurses_color_get c2 -> c1 = c2).
Proof.
  intros H1 H2.
  rewrite (tui_ncurses_color_get_palette c1 H1), (tui_ncurses_color_get_palette c2 H2).
  destruct H1 as [Hf1 Hb1], H2 as [Hf2 Hb2].
  split; [lia|].
  intros Heq. apply tui_color_eq; lia.
Qed.

Lemma tui_ncurses_color_get_one_to_one_witness :
  0 <= tui_ncurses_color_get (mk_color 7 (-1)) <= 80
  /\ (tui_ncurses_color_get (mk_color 7 (-1)) = tui_ncurses_color_get (mk_color 7 (-1))
      -> mk_color 7 (-1) = mk_color 7 (-1)).
Proof.
  apply (tui_ncurses_color_get_one_to_one (mk_color 7 (-1)) (mk_color 7 (-1)));
    unfold in_palette; cbn; lia.
Defined.

Lemma colors_bg_loop_In fuel : forall fg_index bg_index pair f b,
  -32768 <= fg_index - 1 <= 32767 -> -1 <= bg_index - 1 ->
  In (Cinit_pair pair f b) (colors_bg_loop fuel fg_index bg_index)
  <-> exists k, bg_index <= k < bg_index + Z.of_nat fuel /\ k < 9
                /\ pair = fg_index * 9 + k /\ f = fg_index - 1 /\ b = k - 1.
Proof.
  induction fuel as [|fuel IH]; intros fg_index bg_index pair f b Hfg Hbg.
  - cbn. split; [tauto | intros (k & ? & _); lia].
  - cbn [colors_bg_loop]. destruct (Z.ltb_spec bg_index 9) as [Hlt|Hge].
    + cbn [In]. rewrite IH by lia. unfold short_of_int.
      rewrite !Z.mod_small by lia. split.
      * intros [[= <- <- <-] | (k & Hk & Hk9 & -> & -> & ->)].
        -- exists bg_index. repeat split; lia.
        -- exists k. repeat split; lia.
      * intros (k & Hk & Hk9 & -> & -> & ->).
        destruct (Z.eq_dec k bg_index) as [->|Hne].
        -- left. f_equal; lia.
        -- right. exists k. repeat split; lia.
    + cbn. split; [tauto | intros (k & ? & ? & _); lia].
Qed.

Lemma colors_bg_loop_length fuel : forall fg_index bg_index,
  0 <= bg_index -> bg_index + Z.of_nat fuel <= 9 ->
  length (colors_bg_loop fuel fg_index bg_index) = fuel.
Proof.
  induction fuel as [|fuel IH]; intros fg_index bg_index H0 H9; [reflexivity|].
  cbn [colors_bg_loop]. destruct (Z.ltb_spec bg_index 9); [|lia].
  cbn [length]. rewrite IH by lia. reflexivity.
Qed.

Lemma colors_fg_loop_In fuel : forall fg_index pair f b,
  0 <= fg_index -> fg_index + Z.of_nat fuel <= 9 ->
  In (Cinit_pair pair f b) (colors_fg_loop fuel fg_index)
  <-> exists j k, fg_index <= j < fg_index + Z.of_nat fuel /\ 0 <= k < 9
                  /\ pair = j * 9 + k /\ f = j - 1 /\ b = k - 1.
Proof.
  induction fuel as [|fuel IH]; intros fg_index pair f b H0 H9.
  - cbn. split; [tauto | intros (j & k & ? & _); lia].
  - cbn [colors_fg_loop]. destruct (Z.ltb_spec fg_index 9); [|lia].
    rewrite in_app_iff, colors_bg_loop_In, IH by lia. split.
    + intros [(k & Hk & Hk9 & -> & -> & ->) | (j & k & Hj & Hk & -> & -> & ->)].
      * exists fg_index, k. repeat split; lia.
      * exists j, k. repeat split; lia.
    + intros (j & k & Hj & Hk & -> & -> & ->).
      destruct (Z.eq_dec j fg_index) as [->|Hne].
      * left. exists k. repeat split; lia.
      * right. exists j, k. repeat split; lia.
Qed.

Lemma colors_fg_loop_length fuel : forall fg_index,
  0 <= fg_index -> fg_index + Z.of_nat fuel <= 9 ->
  length (colors_fg_loop fuel fg_index) = (9 * fuel)%nat.
Proof.
  induction fuel as [|fuel IH]; intros fg_index H0 H9; [reflexivity|].
  cbn [colors_fg_loop]. destruct (Z.ltb_spec fg_index 9); [|lia].
  rewrite length_app, colors_bg_loop_length, IH by lia. lia.
Qed.

Lemma tui_colors_init_In pair f b :
  In (Cinit_pair pair f b) tui_colors_init
  <-> in_palette (mk_color f b) /\ pair = tui_ncurses_color_get (mk_color f b).
Proof.
  unfold tui_colors_init. rewrite colors_fg_loop_In by lia. split.
  - intros (j & k & Hj & Hk & -> & -> & ->).
    assert (Hpal : in_palette (mk_color (j - 1) (k - 1)))
      by (unfold in_palette; cbn; lia).
    split; [exact Hpal|].
    rewrite (tui_ncurses_color_get_palette _ Hpal). cbn. lia.
  - intros [Hpal ->]. rewrite (tui_ncurses_color_get_palette _ Hpal).
    destruct Hpal as [Hf Hb]. cbn in *.
    exists (f + 1), (b + 1). repeat split; lia.
Qed.

(** X2: [tui_colors_init] makes 81 calls of [init_pair]: one for every color
    of the palette, under the number that [tui_ncurses_color_get] gives
    this color, and none for anything else.  So the pair that
    [tui_color_on] turns on for a color of the palette has been given
    exactly the channels of this color. *)
Theorem tui_colors_init_pairs :
  length tui_colors_init = 81%nat
  /\ (forall color, in_palette color ->
        In (Cinit_pair (tui_ncurses_color_get color) (fg color) (bg color))
           tui_colors_init)
  /\ (forall call, In call tui_colors_init ->
        exists color, in_palette color
          /\ call = Cinit_pair (tui_ncurses_color_get color) (fg color) (bg color)).
Proof.
  split; [apply (colors_fg_loop_length 9 0); lia|].
  split.
  - intros [f b] Hpal. apply tui_colors_init_In. split; [exact Hpal | reflexivity].
  - intros call Hin.
    assert (Hshape : exists pair f b, call = Cinit_pair pair f b).
    { revert Hin. unfold tui_colors_init.
      generalize 9%nat at 1. generalize 0 at 1. intros i n. revert i.
      induction n as [|n IH]; intros i; cbn [colors_fg_loop]; [intros []|].
      destruct (i <? 9); [|intros []].
      rewrite in_app_iff. intros [Hbg | Hfg]; [|exact (IH _ Hfg)].
      revert Hbg. generalize 9%nat. generalize 0. intros k m. revert k.
      induction m as [|m IHm]; intros k; cbn [colors_bg_loop]; [intros []|].
      destruct (k <? 9); [|intros []].
      intros [<- | Hin]; [eauto | exact (IHm _ Hin)]. }
    destruct Hshape as (pair & f & b & ->).
    apply tui_colors_init_In in Hin as [Hpal ->].
    exists (mk_color f b). split; [exact Hpal | reflexivity].
Qed.

(** White on default: pair (7 + 1) * 9 + 0 = 72. *)
Lemma tui_colors_init_pairs_witness :
  In (Cinit_pair 72 7 (-1)) tui_colors_init.
Proof.
  apply (proj1 (proj2 tui_colors_init_pairs) (mk_color 7 (-1))).
  unfold in_palette; cbn; lia.
Defined.

End color_pairs.

(** ** Set-up and tear-down *)

Section setup_facts.

Lemma count_endwin_app calls calls' :
  count_endwin (calls ++ calls') = (count_endwin calls + count_endwin calls')%nat.
Proof. unfold count_endwin. rewrite filter_app, length_app. reflexivity. Qed.

Lemma tui_colors_init_no_endwin : count_endwin tui_colors_init = 0%nat.
Proof. reflexivity. Qed.

(** X3: [tui_init] returns 0 when [start_color] succeeds and the terminal has
    colors, and 1 otherwise.  When it returns 1 its last call is
    [endwin] and it has initialised no color pair; when it returns 0 it
    has not ended curses mode and has initialised the pairs of the whole
    palette.  With [tui_quit] after a successful [tui_init] only, as
    [main] does it, curses mode is ended exactly once either way. *)
Theorem tui_init_outcome (term : terminal) :
  let result := (tui_init term).1 in
  let calls := (tui_init term).2 in
  (result = 0 \/ result = 1)
  /\ (result = 0 <-> start_color_ok term = true /\ has_colors term = true)
  /\ (result = 1 ->
        last calls = Some Cendwin
        /\ (forall pair f b, ~ In (Cinit_pair pair f b) calls))
  /\ (result = 0 ->
        count_endwin calls = 0%nat
        /\ (forall color, in_palette color ->
              In (Cinit_pair (tui_ncurses_color_get color) (fg color) (bg color))
                 calls))
  /\ count_endwin (calls ++ if result =? 0 then tui_quit else []) = 1%nat.
Proof.
  unfold tui_init.
  destruct term as [[|] [|]]; cbn [start_color_ok has_colors negb fst snd].
  - split; [left; reflexivity|].
    split; [tauto|].
    split; [discriminate|].
    split; [|reflexivity].
    intros _. split; [reflexivity|].
    intros [f b] Hpal. rewrite !in_app_iff. right. right. left.
    apply tui_colors_init_In. split; [exact Hpal | reflexivity].
  - split; [right; reflexivity|].
    split; [split; [discriminate | intros [_ [=]]]|].
    split; [|split; [discriminate | reflexivity]].
    intros _. split; [reflexivity|].
    intros pair f b Hin. cbn in Hin. intuition discriminate.
  - split; [right; reflexivity|].
    split; [split; [discriminate | intros [[=] _]]|].
    split; [|split; [discriminate | reflexivity]].
    intros _. split; [reflexivity|].
    intros pair f b Hin. cbn in Hin. intuition discriminate.
  - split; [right; reflexivity|].
    split; [split; [discriminate | intros [[=] _]]|].
    split; [|split; [discriminate | reflexivity]].
    intros _. split; [reflexivity|].
    intros pair f b Hin. cbn in Hin. intuition discriminate.
Qed.

(** A terminal without colors. *)
Lemma tui_init_outcome_witness :
  last (tui_init (mk_terminal true false)).2 = Some Cendwin
  /\ (forall pair f b, ~ In (Cinit_pair pair f b) (tui_init (mk_terminal true false)).2).
Proof.
  apply (proj1 (proj2 (proj2 (tui_init_outcome (mk_terminal true false))))).
  reflexivity.
Defined.

End setup_facts.

(** ** Text reflow: what a caller can rely on *)

Section reflow_contract.

Variable text : text_t.

(** X5: [tui_text_h_get] fails at a width of one or more in two cases only:
    a word of the text is longer than the width, or the text starts with
    a space that a word of exactly the width or more follows. *)
Theorem tui_text_h_get_failure (max_w : Z) :
  1 <= max_w ->
  tui_text_h_get text max_w = -1
  <-> (Z.to_nat max_w < longest_word text)%nat \/ space_then_word text max_w.
Proof. exact (tui_text_h_get_fails_exactly text max_w). Qed.

(** X6: Where [tui_text_h_get] succeeds it succeeds at every larger width,
    with no more lines. *)
Theorem tui_text_h_get_monotone (w1 w2 : Z) :
  1 <= w1 -> w1 <= w2 ->
  tui_text_h_get text w1 <> -1 ->
  tui_text_h_get text w2 <> -1 /\ tui_text_h_get text w2 <= tui_text_h_get text w1.
Proof. exact (tui_text_h_get_wider text w1 w2). Qed.

(** X7: A text has one line more than it has newlines, or more: at a width of
    at least its length [tui_text_h_get] never fails and returns exactly
    this, and at any other width it returns no less when it succeeds. *)
Theorem tui_text_h_get_newlines (max_w : Z) :
  (Z.of_nat (length text) <= max_w ->
   tui_text_h_get text max_w = 1 + Z.of_nat (count_char NEWLINE text))
  /\ (tui_text_h_get text max_w <> -1 ->
      1 + Z.of_nat (count_char NEWLINE text) <= tui_text_h_get text max_w).
Proof.
  split; [apply tui_text_h_get_wide | apply tui_text_h_get_lower].
Qed.

(** X8: [tui_text_w_get] returns the least width from 1 to the length at
    which the text wraps into [h] lines or fewer, and the length when
    there is no such width. *)
Theorem tui_text_w_get_least (h : Z) :
  (tui_text_w_get text h = Z.of_nat (length text)
   \/ (1 <= tui_text_w_get text h <= Z.of_nat (length text)
       /\ feasible text h (tui_text_w_get text h)))
  /\ (forall w, 1 <= w -> feasible text h w -> tui_text_w_get text h <= w)
  /\ ((forall w, 1 <= w < Z.of_nat (length text) -> ~ feasible text h w) ->
      tui_text_w_get text h = Z.of_nat (length text)).
Proof.
  split; [apply tui_text_w_get_returns|].
  split; [intros w; apply tui_text_w_get_minimal | apply tui_text_w_get_default].
Qed.

(** X9: A height is within reach when it is more than the number of
    newlines.  For such a height the text wraps, at the width that
    [tui_text_w_get] returns, into that many lines or fewer; for a
    smaller height there is no width at all, and [tui_text_w_get]
    answers with the length of the text as if there were one. *)
Theorem tui_text_w_get_round_trip (h : Z) :
  (0 < length text)%nat ->
  (1 + Z.of_nat (count_char NEWLINE text) <= h ->
   1 <= tui_text_w_get text h <= Z.of_nat (length text)
   /\ 1 + Z.of_nat (count_char NEWLINE text)
      <= tui_text_h_get text (tui_text_w_get text h) <= h)
  /\ (h < 1 + Z.of_nat (count_char NEWLINE text) ->
      tui_text_w_get text h = Z.of_nat (length text)
      /\ forall w, ~ feasible text h w).
Proof.
  intros Hlen. split.
  - intros Hh.
    destruct (tui_text_w_get_of_height text h Hh Hlen) as (H1 & Hok & Hle).
    pose proof (tui_text_h_get_lower text _ Hok) as Hlow.
    destruct (tui_text_w_get_returns text h) as (_ & [Heq | (Hrange & _)]); lia.
  - intros Hh.
    assert (Hnone : forall w, ~ feasible text h w).
    { intros w [Hok Hle]. pose proof (tui_text_h_get_lower text w Hok). lia. }
    split; [|exact Hnone].
    apply tui_text_w_get_default. intros w _. apply Hnone.
Qed.

End reflow_contract.

Section reflow_contract_examples.

(** "ab cd" at the widths 1, 2 and 5. *)
Lemma tui_text_h_get_failure_witness :
  tui_text_h_get (str "ab cd") 1 = -1
  <-> (Z.to_nat 1 < longest_word (str "ab cd"))%nat \/ space_then_word (str "ab cd") 1.
Proof. apply (tui_text_h_get_failure (str "ab cd") 1). lia. Defined.

Lemma tui_text_h_get_monotone_witness :
  tui_text_h_get (str "ab cd") 5 <> -1
  /\ tui_text_h_get (str "ab cd") 5 <= tui_text_h_get (str "ab cd") 2.
Proof.
  apply (tui_text_h_get_monotone (str "ab cd") 2 5); [lia | lia |].
  vm_compute. discriminate.
Defined.

Lemma tui_text_h_get_newlines_witness :
  tui_text_h_get text_a_newline_b 3 = 1 + Z.of_nat (count_char NEWLINE text_a_newline_b).
Proof.
  apply (proj1 (tui_text_h_get_newlines text_a_newline_b 3)).
  vm_compute. discriminate.
Defined.

Lemma tui_text_w_get_least_witness :
  tui_text_w_get (str "ab cd") 2 <= 2.
Proof.
  apply (proj1 (proj2 (tui_text_w_get_least (str "ab cd") 2)) 2); [lia|].
  split; vm_compute; discriminate.
Defined.

Lemma tui_text_w_get_round_trip_witness :
  1 <= tui_text_w_get (str "ab cd") 2 <= Z.of_nat (length (str "ab cd"))
  /\ 1 + Z.of_nat (count_char NEWLINE (str "ab cd"))
     <= tui_text_h_get (str "ab cd") (tui_text_w_get (str "ab cd") 2) <= 2.
Proof.
  apply (proj1 (tui_text_w_get_round_trip (str "ab cd") 2 ltac:(vm_compute; lia))).
  vm_compute. discriminate.
Defined.

End reflow_contract_examples.

(** ** The text of a string *)

Section extract_facts.

Lemma char_at_drop (string : text_t) index :
  (index < length string)%nat ->
  drop index string = char_at string index :: drop (S index) string.
Proof.
  intros Hlt. unfold char_at.
  destruct (lookup_lt_is_Some_2 string index Hlt) as [c Hc].
  rewrite (drop_S _ _ _ Hc). f_equal.
  symmetry. apply nth_lookup_Some with (d := zero) in Hc. exact Hc.
Qed.

(** The loop that skips an escape sequence stops behind the characters
    that the reader drops inside the sequence. *)
Lemma skip_loop_strip string fuel : forall index,
  (length string - index <= fuel)%nat ->
  strip true (drop index string)
  = strip false (drop (S (skip_loop fuel string index)) string).
Proof.
  induction fuel as [|fuel IH]; intros index Hfuel.
  - cbn [skip_loop]. rewrite !drop_ge by lia. reflexivity.
  - cbn [skip_loop]. destruct (Nat.ltb_spec index (length string)) as [Hlt|Hge].
    + rewrite (char_at_drop string index Hlt). cbn [strip andb].
      destruct (is_char (char_at string index) LETTER_m); cbn [negb].
      * reflexivity.
      * apply IH. lia.
    + cbn [andb]. rewrite !drop_ge by lia. reflexivity.
Qed.

Lemma extract_loop_strip string fuel : forall index text,
  (length string - index <= fuel)%nat ->
  extract_loop fuel string index text = text ++ strip false (drop index string).
Proof.
  induction fuel as [|fuel IH]; intros index text Hfuel.
  - cbn [extract_loop]. rewrite drop_ge by lia. cbn. rewrite app_nil_r. reflexivity.
  - cbn [extract_loop]. destruct (Nat.ltb_spec index (length string)) as [Hlt|Hge].
    + rewrite (char_at_drop string index Hlt). cbn [strip].
      destruct (is_char (char_at string index) ESCAPE) eqn:Hesc.
      * assert (Hge := skip_loop_ge string (length string - index) index).
        fold (skip_escape string index) in Hge.
        rewrite IH by lia. f_equal. unfold skip_escape.
        rewrite <- (skip_loop_strip string (length string - index) index) by lia.
        rewrite (char_at_drop string index Hlt). cbn [strip].
        assert (Hm : is_char (char_at string index) LETTER_m = false).
        { unfold is_char in *. apply Ascii.eqb_eq in Hesc. rewrite Hesc. reflexivity. }
        rewrite Hm. reflexivity.
      * rewrite IH by lia. rewrite <- app_assoc. reflexivity.
    + rewrite drop_ge by lia. cbn. rewrite app_nil_r. reflexivity.
Qed.

(** [tui_text_extract] reads the string as the reader of escape
    sequences does: what it returns are the characters outside the
    sequences, a sequence being ESC and what follows up to the next
    letter m, or up to the end of the string when there is none. *)
Theorem tui_text_extract_strip (string : text_t) :
  tui_text_extract string = strip false string.
Proof.
  unfold tui_text_extract. rewrite extract_loop_strip by lia.
  rewrite drop_0. reflexivity.
Qed.

Lemma extract_loop_all string :
  extract_loop (length string) string 0 [] = strip false string.
Proof. rewrite extract_loop_strip by lia. rewrite drop_0. reflexivity. Qed.

Lemma strip_length string : forall inside,
  (length (strip inside string) <= length string)%nat.
Proof.
  induction string as [|c rest IH]; intros inside; cbn [strip length]; [lia|].
  destruct inside.
  - specialize (IH (negb (is_char c LETTER_m))). lia.
  - destruct (is_char c ESCAPE); [specialize (IH true) | specialize (IH false)];
      cbn [length]; lia.
Qed.

Lemma strip_free string : forall inside, free_of ESCAPE (strip inside string).
Proof.
  induction string as [|c rest IH]; intros inside; cbn [strip]; [constructor|].
  destruct inside; [apply IH|].
  destruct (is_char c ESCAPE) eqn:Hesc; [apply IH|].
  constructor; [exact Hesc | apply IH].
Qed.

Lemma strip_of_free string : free_of ESCAPE string -> strip false string = string.
Proof.
  induction 1 as [|c rest Hc _ IH]; cbn [strip]; [reflexivity|].
  rewrite Hc, IH. reflexivity.
Qed.

(** X12: The text that [tui_text_extract] returns has no ESC and is not longer
    than the string, so it fits the copy of the string that it is
    written to; a string without ESC is returned as it is, and extracting
    a second time changes nothing. *)
Theorem tui_text_extract_plain (string : text_t) :
  free_of ESCAPE (tui_text_extract string)
  /\ (length (tui_text_extract string) <= length string)%nat
  /\ (free_of ESCAPE string -> tui_text_extract string = string)
  /\ tui_text_extract (tui_text_extract string) = tui_text_extract string.
Proof.
  unfold tui_text_extract. rewrite !extract_loop_all.
  split; [apply strip_free|].
  split; [apply strip_length|].
  split; [apply strip_of_free|].
  apply strip_of_free, strip_free.
Qed.

Lemma strip_app s1 : forall inside s2,
  strip inside (s1 ++ s2) = strip inside s1 ++ strip (ends_inside inside s1) s2.
Proof.
  induction s1 as [|c rest IH]; intros inside s2; cbn [strip ends_inside app];
    [reflexivity|].
  destruct inside; [apply IH|].
  destruct (is_char c ESCAPE); [apply IH|].
  cbn [app]. f_equal. apply IH.
Qed.

Lemma ends_inside_free_m body : free_of LETTER_m body -> ends_inside true body = true.
Proof.
  induction 1 as [|c rest Hc _ IH]; cbn [ends_inside]; [reflexivity|].
  rewrite Hc. exact IH.
Qed.

Lemma strip_inside_free_m body : free_of LETTER_m body -> strip true body = [].
Proof.
  induction 1 as [|c rest Hc _ IH]; cbn [strip]; [reflexivity|].
  rewrite Hc. exact IH.
Qed.

Lemma ends_inside_free_escape s : free_of ESCAPE s -> ends_inside false s = false.
Proof.
  induction 1 as [|c rest Hc _ IH]; cbn [ends_inside]; [reflexivity|].
  rewrite Hc. exact IH.
Qed.

(** X13: An escape sequence inside a string: the characters before it are
    kept, ESC, the body and the letter m that ends it are left out, and
    the rest is read as a string of its own.  When no letter m follows
    the ESC, the rest of the string is left out with it. *)
Theorem tui_text_extract_sequence (before body rest : text_t) :
  free_of ESCAPE before -> free_of LETTER_m body ->
  tui_text_extract (before ++ ESCAPE :: body ++ LETTER_m :: rest)
  = before ++ tui_text_extract rest
  /\ tui_text_extract (before ++ ESCAPE :: body) = before.
Proof.
  intros Hbefore Hbody. unfold tui_text_extract. rewrite !extract_loop_all.
  rewrite !strip_app, (strip_of_free before Hbefore),
    (ends_inside_free_escape before Hbefore).
  cbn [strip]. change (is_char ESCAPE ESCAPE) with true. cbn iota.
  rewrite strip_app, (strip_inside_free_m body Hbody),
    (ends_inside_free_m body Hbody).
  cbn [strip]. change (is_char LETTER_m LETTER_m) with true. cbn [negb app].
  rewrite app_nil_r. split; reflexivity.
Qed.

End extract_facts.

Section extract_examples.

(** "a", the sequence ESC [31m, "b"; and "a" before a sequence that
    nothing ends. *)
Lemma tui_text_extract_plain_witness :
  tui_text_extract (str "ab") = str "ab".
Proof.
  apply (proj1 (proj2 (proj2 (tui_text_extract_plain (str "ab"))))).
  repeat constructor.
Defined.

Lemma tui_text_extract_sequence_witness :
  tui_text_extract (str "a" ++ ESCAPE :: str "[31" ++ LETTER_m :: str "b")
  = str "a" ++ tui_text_extract (str "b")
  /\ tui_text_extract (str "a" ++ ESCAPE :: str "[31") = str "a".
Proof.
  apply (tui_text_extract_sequence (str "a") (str "[31") (str "b"));
    repeat constructor.
Defined.

End extract_examples.

(** ** Rendering: the calls of a computation *)

Section adds_facts.

Lemma adds_ret {A} (a : A) (R : A -> list event -> Prop) :
  R a [] -> adds (mret a) R.
Proof.
  intros HR w a' w' [= <- <-]. exists []. rewrite app_nil_r. auto.
Qed.

Lemma adds_undefined {A} (R : A -> list event -> Prop) : adds undefined R.
Proof. intros w a w' [=]. Qed.

Lemma adds_bind {A B} (m : M A) (k : A -> M B) R (Q : B -> list event -> Prop) :
  adds m R ->
  (forall a n1, R a n1 -> adds (k a) (fun b n2 => Q b (n1 ++ n2))) ->
  adds (m ≫= k) Q.
Proof.
  intros Hm Hk w b w'. unfold mbind, M_bind, bind.
  destruct (m w) as [[a w1]|] eqn:Hrun; [|discriminate].
  intros Hrun'.
  destruct (Hm _ _ _ Hrun) as (n1 & Hcalls & HR).
  destruct (Hk _ _ HR _ _ _ Hrun') as (n2 & Hcalls' & HQ).
  exists (n1 ++ n2). rewrite Hcalls', Hcalls, <- app_assoc. eauto.
Qed.

Lemma adds_ret_bind {A B} (a : A) (k : A -> M B) (Q : B -> list event -> Prop) :
  adds (k a) Q -> adds (ret a ≫= k) Q.
Proof. intros Hk. exact Hk. Qed.

Lemma adds_call (e : event) : adds (call e) (fun _ new => new = [e]).
Proof. intros w a w' [= <- <-]. exists [e]. auto. Qed.

Lemma adds_get_color : adds get_color (fun _ new => new = []).
Proof. intros w a w' [= <- <-]. exists []. rewrite app_nil_r. auto. Qed.

Lemma adds_set_color color : adds (set_color color) (fun _ new => new = []).
Proof. intros w a w' [= <- <-]. exists []. cbn. rewrite app_nil_r. auto. Qed.

Lemma adds_deref {A} (p : option A) : adds (deref p) (fun a new => p = Some a /\ new = []).
Proof.
  destruct p as [a|]; [|apply adds_undefined].
  apply adds_ret. auto.
Qed.

Lemma adds_weaken {A} (m : M A) (R Q : A -> list event -> Prop) :
  adds m R -> (forall a new, R a new -> Q a new) -> adds m Q.
Proof.
  intros Hm HQ w a w' Hrun. destruct (Hm _ _ _ Hrun) as (new & ? & ?). eauto.
Qed.

Lemma tui_window_fill_run head (w : world) :
  tui_window_fill head w
  = Some (tt, mk_world (tui_color_inherit (active w) (head_color head))
                (calls w ++ [Eattron (tui_ncurses_color_get
                                        (tui_color_inherit (active w) (head_color head)))])).
Proof. reflexivity. Qed.

Lemma tui_border_draw_run head border (w : world) :
  tui_border_draw head (Some border) w
  = Some (tt, mk_world TUI_COLOR_NONE
                (calls w
                 ++ [Eattron (tui_ncurses_color_get
                                (tui_color_inherit (active w) (border_color border)));
                     Ebox (head_window head);
                     Eattroff (tui_ncurses_color_get
                                 (tui_color_inherit (active w) (border_color border)))])).
Proof.
  unfold tui_border_draw, tui_color_on, tui_color_off, mbind, M_bind, bind,
    get_color, call, set_color.
  destruct (border_is_dashed border); cbn;
    rewrite tui_color_inherit_idem, <- !app_assoc; reflexivity.
Qed.

End adds_facts.

(** ** Rendering of text: where the characters go *)

Section text_render_draws.

Variable window : tui_window_text_t.
Variable h : Z.
Variable ws : ws_table.

(** The loop keeps [y] equal to [line_index], and every call it makes
    puts a character on a line of [ws], inside the width of this line. *)
Lemma r_body_adds (s : r_state) :
  r_y s = r_line_index s -> 0 <= r_line_w s ->
  adds (r_body window h ws s)
       (fun s' new => r_y s' = r_line_index s' /\ 0 <= r_line_w s'
                      /\ Forall (draws_at window h ws) new).
Proof.
  intros Hy Hlw w s' w'. rewrite r_body_run. cbv zeta.
  set (index := if is_char _ ESCAPE then _ else _). clearbody index.
  destruct (_ && _).
  { intros [= <- <-]. exists []. rewrite app_nil_r. cbn. auto with lia. }
  destruct (ws_load ws (r_line_index s)) as [width|] eqn:Hload; [|discriminate].
  destruct (Z.geb_spec (r_line_w s) width) as [Hge|Hlt].
  { intros [= <- <-]. exists []. rewrite app_nil_r. cbn. auto with lia. }
  destruct (r_coords_ok window h width s) eqn:Hcoords; [|discriminate].
  intros [= <- <-]. cbn [calls r_y r_line_index r_line_w].
  eexists. split; [reflexivity|].
  split; [exact Hy|]. split; [lia|].
  unfold r_coords_ok in Hcoords. cbv zeta in Hcoords. rewrite Hy in Hcoords.
  repeat (apply andb_true_iff in Hcoords as [Hcoords ?]).
  constructor; [|constructor; [split; [reflexivity | eexists; reflexivity]
                              | constructor]].
  cbn. exists (r_line_index s), width, (r_line_w s).
  rewrite Hy. repeat split; try assumption; lia.
Qed.

Lemma r_loop_adds fuel : forall s,
  r_y s = r_line_index s -> 0 <= r_line_w s ->
  adds (r_loop fuel window h ws s) (fun _ new => Forall (draws_at window h ws) new).
Proof.
  induction fuel as [|fuel IH]; intros s Hy Hlw; cbn [r_loop].
  - apply adds_ret. constructor.
  - destruct (_ <? _)%nat; [|apply adds_ret; constructor].
    eapply adds_bind; [apply (r_body_adds s Hy Hlw)|].
    intros s' n1 (Hy' & Hlw' & Hn1).
    eapply adds_weaken; [apply (IH s' Hy' Hlw')|].
    intros ? n2 Hn2. apply Forall_app. auto.
Qed.

End text_render_draws.

Section text_render_calls.

Variable window : tui_window_text_t.

#[local] Abbreviation win := (head_window (text_head window)).
#[local] Abbreviation rect := (head_rect (text_head window)).

(** What [tui_text_render] needs to return, and what it has done when it
    returns. *)
Lemma tui_text_render_adds :
  adds (tui_text_render window)
       (fun _ new =>
          exists text ws,
            text_text window = Some text
            /\ 1 <= tui_text_h_get text (rect_w rect)
            /\ tui_text_ws_get
                 (replicate (Z.to_nat (tui_text_h_get text (rect_w rect))) None)
                 text (tui_text_h_get text (rect_w rect)) = Some ws
            /\ Forall (draws_at window (tui_text_h_get text (rect_w rect)) ws) new).
Proof.
  unfold tui_text_render, tui_text_render_run.
  eapply adds_bind; [|intros s n1 Hn1; apply adds_ret; rewrite app_nil_r; exact Hn1].
  eapply adds_bind; [apply adds_deref|].
  intros text n1 [Htext ->]. cbn [app].
  destruct (Z.leb_spec (tui_text_h_get text (rect_w rect)) 0) as [Hle|Hgt];
    [apply adds_undefined|].
  eapply adds_bind; [apply adds_deref|].
  intros ws n1 [Hws ->]. cbn [app].
  eapply adds_weaken; [apply r_loop_adds; cbn; lia|].
  intros s new Hnew. exists text, ws. auto with lia.
Qed.

End text_render_calls.

Section window_text_render_calls.

Variable window : tui_window_text_t.

#[local] Abbreviation win := (head_window (text_head window)).
#[local] Abbreviation rect := (head_rect (text_head window)).

(** The calls of [tui_window_text_render], one after the other. *)
Lemma tui_window_text_render_adds :
  adds (tui_window_text_render window)
       (fun window' new =>
          let text := tui_text_extract (text_string window) in
          let h := tui_text_h_get text (rect_w rect) in
          window' = set_text window (Some text)
          /\ 1 <= h
          /\ exists pair ws draws,
               tui_text_ws_get (replicate (Z.to_nat h) None) text h = Some ws
               /\ Forall (draws_at window h ws) draws
               /\ new = [Ecurs_set 0; Ewerase win; Eattron pair]
                        ++ free_text (text_text window) ++ draws ++ [Ewrefresh win]).
Proof.
  unfold tui_window_text_render.
  eapply adds_bind; [apply adds_call|]. intros _ ? ->.
  eapply adds_bind; [apply adds_call|]. intros _ ? ->.
  eapply adds_bind.
  { instantiate (1 := fun _ new => exists pair, new = [Eattron pair]).
    intros w a w'. rewrite tui_window_fill_run. intros [= <- <-]. cbn. eauto. }
  intros _ ? [pair ->].
  eapply adds_bind.
  { instantiate (1 := fun _ new => new = free_text (text_text window)).
    destruct (text_text window); [apply adds_call | apply adds_ret; reflexivity]. }
  intros _ ? ->.
  eapply adds_bind; [apply tui_text_render_adds|].
  intros ? draws (text & ws & Htext & Hh & Hws & Hdraws).
  cbn in Htext. injection Htext as <-.
  eapply adds_bind; [apply adds_call|]. intros _ ? ->.
  apply adds_ret. cbn zeta.
  split; [reflexivity|]. split; [exact Hh|].
  exists pair, ws, draws. split; [exact Hws|]. split; [exact Hdraws|].
  rewrite app_nil_r. reflexivity.
Qed.

End window_text_render_calls.

(** ** Rendering: what a pass does to the tree *)

Section projections.

Lemma refreshed_app (l l' : list event) :
  refreshed (l ++ l') = refreshed l ++ refreshed l'.
Proof. unfold refreshed. apply omap_app. Qed.

Lemma freed_app (l l' : list event) : freed (l ++ l') = freed l ++ freed l'.
Proof. unfold freed. apply omap_app. Qed.

Lemma draws_at_silent window h ws draws :
  Forall (draws_at window h ws) draws -> refreshed draws = [] /\ freed draws = [].
Proof.
  induction 1 as [|e rest He _ [IHr IHf]]; [split; reflexivity|].
  destruct e; cbn in He; try contradiction; split; assumption.
Qed.

Lemma free_text_freed text :
  freed (free_text text) = match text with Some text => [Block_text text] | None => [] end.
Proof. destruct text; reflexivity. Qed.

Lemma free_text_refreshed text : refreshed (free_text text) = [].
Proof. destruct text; reflexivity. Qed.

Lemma over_slots_app {X} (f : tui_win -> list X) windows windows' :
  over_slots f (windows ++ windows') = over_slots f windows ++ over_slots f windows'.
Proof.
  induction windows as [|slot rest IH]; cbn; [reflexivity|].
  rewrite IH, app_assoc. reflexivity.
Qed.

Lemma cached_slots_app windows windows' :
  cached_slots cached (windows ++ windows')
  = cached_slots cached windows ++ cached_slots cached windows'.
Proof.
  induction windows as [|slot rest IH]; cbn; [reflexivity|].
  rewrite IH. reflexivity.
Qed.

Lemma all_slots_app ok windows windows' :
  all_slots ok (windows ++ windows') = all_slots ok windows && all_slots ok windows'.
Proof.
  induction windows as [|slot rest IH]; cbn; [reflexivity|].
  rewrite IH, andb_assoc. reflexivity.
Qed.

End projections.

Section render_tree.

Lemma tui_window_text_render_post window :
  adds (tui_window_text_render window)
       (fun window' new => render_post (Window_text window) (Window_text window') new).
Proof.
  eapply adds_weaken; [apply tui_window_text_render_adds|].
  cbn zeta. intros window' new (-> & Hh & pair & ws & draws & _ & Hdraws & ->).
  destruct (draws_at_silent _ _ _ _ Hdraws) as [Hr Hf].
  unfold render_post. cbn [renderable cached refresh_order stale_texts].
  split; [apply Z.leb_le; exact Hh|]. split; [reflexivity|].
  rewrite !refreshed_app, !freed_app, Hr, Hf, free_text_freed, free_text_refreshed.
  cbn. rewrite app_nil_r. split; reflexivity.
Qed.

Lemma children_render_post render children :
  Forall (fun slot => forall child, slot = Some child ->
                      adds (render child) (render_post child)) children ->
  adds (children_render render children) (render_all_post children children).
Proof.
  unfold render_all_post.
  induction 1 as [|[child|] rest Hchild _ IH]; cbn [children_render].
  - apply adds_ret. repeat split.
  - eapply adds_bind; [apply Hchild; reflexivity|].
    intros child' n1 (Hok & -> & Hr1 & Hf1).
    eapply adds_bind; [apply IH|].
    intros rest' n2 (Hoks & -> & Hr2 & Hf2).
    apply adds_ret. cbn. rewrite app_nil_r, refreshed_app, freed_app.
    rewrite Hok, Hoks, Hr1, Hr2, Hf1, Hf2. repeat split.
  - apply adds_undefined.
Qed.

(** A render of a window that returns has found the window renderable,
    has refreshed it after its children, has released the old texts of
    its text windows and returns it with the new ones. *)
Lemma tui_window_render_post window :
  adds (tui_window_render window) (render_post window).
Proof.
  induction window as [window | head children is_vertical border has_padding
                                  pos align IH] using tui_win_ind;
    cbn [tui_window_render].
  - eapply adds_bind; [apply tui_window_text_render_post|].
    intros window' n1 Hpost. apply adds_ret. rewrite app_nil_r. exact Hpost.
  - eapply adds_bind; [apply adds_call|]. intros _ ? ->.
    eapply adds_bind; [apply adds_call|]. intros _ ? ->.
    eapply adds_bind.
    { instantiate (1 := fun _ new => refreshed new = [] /\ freed new = []).
      intros w a w'. rewrite tui_window_fill_run. intros [= <- <-]. cbn. eauto. }
    intros _ n1 [Hr1 Hf1].
    eapply adds_bind.
    { instantiate (1 := fun _ new => refreshed new = [] /\ freed new = []).
      destruct border as [border|]; [|apply adds_ret; split; reflexivity].
      intros w a w'. rewrite tui_border_draw_run. intros [= <- <-]. cbn. eauto. }
    intros _ n2 [Hr2 Hf2].
    eapply adds_bind; [apply children_render_post, IH|].
    intros children' n3 (Hoks & -> & Hr3 & Hf3).
    eapply adds_bind; [apply adds_call|]. intros _ ? ->.
    apply adds_ret. unfold render_post.
    cbn [renderable cached refresh_order stale_texts].
    rewrite !refreshed_app, !freed_app, Hr1, Hr2, Hr3, Hf1, Hf2, Hf3.
    cbn. rewrite !app_nil_r. auto.
Qed.

(** The loop of [tui_windows_render] renders the windows below [index]
    from the last to the first and leaves the others as they are. *)
Lemma windows_render_loop_post index : forall windows,
  adds (windows_render_loop windows index)
       (fun windows' new =>
          render_all_post (take index windows) (reverse (take index windows))
                          (take index windows') new
          /\ drop index windows' = drop index windows).
Proof.
  unfold render_all_post.
  induction index as [|index IH]; intros windows; cbn [windows_render_loop].
  - apply adds_ret. rewrite !take_0, !drop_0. repeat split.
  - destruct (windows !! index) as [[window|]|] eqn:Hslot; cbn [mjoin option_join deref];
      try (intros w a w'; discriminate).
    assert (Hlt : (index < length windows)%nat) by (eapply lookup_lt_Some; eauto).
    apply adds_ret_bind.
    eapply adds_bind; [apply tui_window_render_post|].
    intros window' n1 (Hok & -> & Hr1 & Hf1).
    eapply adds_weaken; [apply IH|].
    intros windows' n2 ((Hoks & Htake & Hr2 & Hf2) & Hdrop). cbn beta in *.
    rewrite take_insert_ge in * by lia.
    rewrite (take_S_r _ _ _ Hslot), reverse_app, all_slots_app, cached_slots_app,
      !over_slots_app.
    rewrite refreshed_app, freed_app, Hr1, Hr2, Hf1, Hf2, Hoks. cbn.
    rewrite Hok, !app_nil_r.
    assert (Hdrop' : drop index windows' = Some (cached window) :: drop (S index) windows).
    { rewrite Hdrop. rewrite (drop_S (<[index:=Some (cached window)]> windows) (Some (cached window)) index).
      - rewrite drop_insert_lt by lia. reflexivity.
      - apply list_lookup_insert_eq. exact Hlt. }
    assert (Hlen : (index < length windows')%nat).
    { destruct (Nat.lt_ge_cases index (length windows')) as [H|H]; [exact H|].
      rewrite drop_ge in Hdrop' by lia. discriminate. }
    destruct (lookup_lt_is_Some_2 windows' index Hlen) as [slot' Hslot'].
    rewrite (drop_S _ _ _ Hslot') in Hdrop'. injection Hdrop' as -> Hdrop'.
    rewrite (take_S_r _ _ _ Hslot'), Htake.
    repeat split; assumption.
Qed.

End render_tree.

Section render_root.

Lemma tui_windows_render_post windows :
  adds (tui_windows_render windows (length windows))
       (render_all_post windows (reverse windows)).
Proof.
  unfold tui_windows_render.
  eapply adds_weaken; [apply windows_render_loop_post|].
  intros windows' new [Hpost Hdrop]. cbn beta in *.
  rewrite firstn_all in Hpost. rewrite drop_all in Hdrop.
  assert (Hlen : (length windows' <= length windows)%nat).
  { destruct (Nat.le_gt_cases (length windows') (length windows)) as [H|H]; [exact H|].
    apply (f_equal length) in Hdrop. rewrite length_drop in Hdrop. cbn in Hdrop. lia. }
  rewrite take_ge in Hpost by exact Hlen. exact Hpost.
Qed.

(** What [tui_render] has done when it returns. *)
Lemma tui_render_run_post (tui : tui_t) :
  adds (tui_render_run tui)
       (fun result new =>
          all_slots renderable (tui_windows tui) = true
          /\ all_slots renderable (active_windows tui) = true
          /\ result.1 = cached_slots cached (tui_windows tui)
          /\ result.2 = match tui_menu tui, active_menu tui with
                        | Some index, Some menu =>
                            <[index := Some (set_menu_windows menu
                                               (cached_slots cached (menu_windows menu)))]>
                              (tui_menus tui)
                        | _, _ => tui_menus tui
                        end
          /\ refreshed new = over_slots refresh_order (reverse (tui_windows tui))
                             ++ over_slots refresh_order (reverse (active_windows tui))
          /\ freed new = over_slots stale_texts (reverse (tui_windows tui))
                         ++ over_slots stale_texts (reverse (active_windows tui))
          /\ exists middle, new = Ecurs_set 0 :: middle ++ [Erefresh]).
Proof.
  unfold tui_render_run, active_windows, active_menu.
  eapply adds_bind; [apply adds_call|]. intros _ ? ->.
  eapply adds_bind; [apply tui_windows_render_post|].
  intros windows' n1 (Hok1 & -> & Hr1 & Hf1).
  eapply adds_bind.
  { instantiate (1 := fun menus' new =>
      all_slots renderable (active_windows tui) = true
      /\ menus' = match tui_menu tui, active_menu tui with
                  | Some index, Some menu =>
                      <[index := Some (set_menu_windows menu
                                         (cached_slots cached (menu_windows menu)))]>
                        (tui_menus tui)
                  | _, _ => tui_menus tui
                  end
      /\ refreshed new = over_slots refresh_order (reverse (active_windows tui))
      /\ freed new = over_slots stale_texts (reverse (active_windows tui))).
    unfold active_windows, active_menu.
    destruct (tui_menu tui) as [index|]; cbn [mbind option_bind];
      [|apply adds_ret; repeat split].
    destruct (tui_menus tui !! index) as [[menu|]|]; cbn [mjoin option_join deref];
      try (intros w a w'; discriminate).
    apply adds_ret_bind.
    eapply adds_bind; [apply tui_windows_render_post|].
    intros windows2 n2 (Hok2 & -> & Hr2 & Hf2).
    apply adds_ret. rewrite app_nil_r. repeat split; assumption. }
  intros menus' n2 (Hok2 & -> & Hr2 & Hf2).
  eapply adds_bind; [apply adds_call|]. intros _ ? ->.
  apply adds_ret. cbn [fst snd].
  split; [exact Hok1|]. split; [exact Hok2|]. split; [reflexivity|].
  split; [reflexivity|].
  rewrite !refreshed_app, !freed_app, Hr1, Hr2, Hf1, Hf2. cbn.
  rewrite !app_nil_r. split; [reflexivity|]. split; [reflexivity|].
  exists (n1 ++ n2). rewrite <- !app_assoc. reflexivity.
Qed.

Lemma tui_render_post (tui tui' : tui_t) (calls : list event) :
  tui_render tui = Some (tui', calls) ->
  exists result,
    tui_render_run tui (mk_world (tui_color tui) []) = Some (result, mk_world (tui_color tui') calls)
    /\ tui_windows tui' = result.1 /\ tui_menus tui' = result.2
    /\ tui_w tui' = tui_w tui /\ tui_h tui' = tui_h tui
    /\ tui_menu tui' = tui_menu tui /\ tui_event_fn tui' = tui_event_fn tui
    /\ tui_is_running tui' = tui_is_running tui
    /\ tui_window tui' = tui_window tui.
Proof.
  unfold tui_render.
  destruct (tui_render_run tui _) as [[[windows menus] [color calls']]|] eqn:Hrun;
    [|discriminate].
  intros [= <- <-]. exists (windows, menus). cbn. repeat split.
Qed.

(** X17: When [tui_render] returns, the windows were refreshed in this order:
    those of the tui from the last to the first, then those of the active
    menu from the last to the first, and each of them after all of its
    children, these from the first to the last.  The calls start with
    [curs_set(0)] and end with [refresh()]. *)
Theorem tui_render_refresh_order (tui tui' : tui_t) (calls : list event) :
  tui_render tui = Some (tui', calls) ->
  refreshed calls
  = over_slots refresh_order (reverse (tui_windows tui))
    ++ over_slots refresh_order (reverse (active_windows tui))
  /\ (exists middle, calls = Ecurs_set 0 :: middle ++ [Erefresh])
  /\ forall head children is_vertical border has_padding pos align,
       refresh_order
         (Window_parent head children is_vertical border has_padding pos align)
       = over_slots refresh_order children ++ [head_window head].
Proof.
  intros Hrender.
  destruct (tui_render_post _ _ _ Hrender) as (result & Hrun & _).
  destruct (tui_render_run_post _ _ _ _ Hrun) as (new & Hcalls & Hpost).
  cbn in Hcalls. subst new.
  destruct Hpost as (_ & _ & _ & _ & Hr & _ & Hshape).
  split; [exact Hr|]. split; [exact Hshape|]. reflexivity.
Qed.

(** X19: [tui_render] has no defined result unless every slot of the arrays
    it walks holds a window, at every depth of the tree, and the text of
    every text window wraps at the width of the window's rectangle. *)
Theorem tui_render_undefined (tui : tui_t) :
  all_slots renderable (tui_windows tui) = false
  \/ all_slots renderable (active_windows tui) = false ->
  tui_render tui = None.
Proof.
  intros Hbad.
  destruct (tui_render tui) as [[tui' calls]|] eqn:Hrender; [|reflexivity].
  destruct (tui_render_post _ _ _ Hrender) as (result & Hrun & _).
  destruct (tui_render_run_post _ _ _ _ Hrun) as (new & _ & Hok1 & Hok2 & _).
  destruct Hbad; congruence.
Qed.

End render_root.

(** ** Rendering of text: the characters stay in the rectangle *)

Section ws_bound.

Variable text : text_t.
Variable max_w h : Z.

#[local] Abbreviation bound := (Z.max 0 max_w).

Lemma ws_store_le ws li v ws' :
  ws_entries_le bound ws -> v <= bound -> ws_store ws li v = Some ws' ->
  ws_entries_le bound ws'.
Proof.
  intros Hws Hv Hst i x Hx. apply ws_store_Some in Hst as [Hr ->].
  apply list_lookup_insert_Some in Hx as [(_ & [= <-] & _)|(Hne & Hx)];
    [exact Hv | exact (Hws _ _ Hx)].
Qed.

(** A pass keeps the width of the line and the entries of the table at
    or below the width to wrap at. *)
Lemma ws_body_le s s' :
  ws_ok text h s -> ws_line_w s <= bound -> ws_entries_le bound (ws_ws s) ->
  ws_body text max_w s = Some s' ->
  ws_line_w s' <= bound /\ ws_entries_le bound (ws_ws s').
Proof.
  unfold ws_ok, ws_body.
  destruct s as [index li lw si ws]; simpl_ws.
  intros (Hli & Hlw & Hidx & Hsi & Hlen) Hb Hws.
  set (si' := if is_char (char_at text index) SPACE then Z.of_nat index else si).
  assert (Hsi' : si <= si' <= Z.of_nat index) by (subst si'; destruct (is_char _ SPACE); lia).
  clearbody si'.
  destruct (is_char (char_at text index) SPACE && (lw =? 0)); cbn [mbind option_bind].
  { simpl_ws.
    destruct (index + 1 =? length text)%nat; cbn [mbind option_bind].
    - destruct (ws_store ws li 0) as [ws'|] eqn:Hst; [|discriminate]. cbn.
      intros [= <-]; simpl_ws. split; [lia|].
      eapply ws_store_le; [exact Hws | | exact Hst]. lia.
    - intros [= <-]; simpl_ws. split; [lia | exact Hws]. }
  destruct (is_char (char_at text index) NEWLINE).
  { destruct (ws_store ws li lw) as [ws1|] eqn:Hst1; [|discriminate].
    cbn [mbind option_bind]. simpl_ws.
    assert (Hws1 : ws_entries_le bound ws1)
      by (eapply ws_store_le; [exact Hws | | exact Hst1]; lia).
    destruct (index + 1 =? length text)%nat; cbn [mbind option_bind].
    - destruct (ws_store ws1 (li + 1) 0) as [ws'|] eqn:Hst; [|discriminate]. cbn.
      intros [= <-]; simpl_ws. split; [lia|].
      eapply ws_store_le; [exact Hws1 | | exact Hst]. lia.
    - intros [= <-]; simpl_ws. split; [lia | exact Hws1]. }
  destruct (Z.geb_spec lw max_w) as [Hge|Hlt].
  { destruct (ws_store ws li _) as [ws1|] eqn:Hst1; [|discriminate].
    cbn [mbind option_bind]. simpl_ws.
    assert (Hws1 : ws_entries_le bound ws1)
      by (eapply ws_store_le; [exact Hws | | exact Hst1]; lia).
    destruct (Z.to_nat si' + 1 =? length text)%nat; cbn [mbind option_bind].
    - destruct (ws_store ws1 (li + 1) 0) as [ws'|] eqn:Hst; [|discriminate]. cbn.
      intros [= <-]; simpl_ws. split; [lia|].
      eapply ws_store_le; [exact Hws1 | | exact Hst]. lia.
    - intros [= <-]; simpl_ws. split; [lia | exact Hws1]. }
  cbn [mbind option_bind]. simpl_ws.
  destruct (index + 1 =? length text)%nat; cbn [mbind option_bind].
  - destruct (ws_store ws li (lw + 1)) as [ws'|] eqn:Hst; [|discriminate]. cbn.
    intros [= <-]; simpl_ws. split; [lia|].
    eapply ws_store_le; [exact Hws | | exact Hst]. lia.
  - intros [= <-]; simpl_ws. split; [lia | exact Hws].
Qed.

Lemma ws_loop_le fuel : forall s s_f,
  ws_ok text h s -> ws_line_w s <= bound -> ws_entries_le bound (ws_ws s) ->
  ws_loop fuel text max_w h s = Some (Some s_f) ->
  ws_entries_le bound (ws_ws s_f).
Proof.
  induction fuel as [|fuel IH]; intros s s_f Hok Hb Hws; cbn [ws_loop].
  - destruct (_ && _); [discriminate|]. intros [= <-]. exact Hws.
  - destruct (Nat.ltb_spec (ws_index s) (length text)) as [Hlt|Hge];
      destruct (Z.ltb_spec (ws_line_index s) h) as [Hli|Hli]; cbn [andb];
      try (intros [= <-]; exact Hws).
    destruct (ws_body text max_w s) as [s'|] eqn:Hbody; [|discriminate].
    destruct (ws_body_ok text max_w h s s' Hok Hlt Hli Hbody) as (Hok' & _).
    destruct (ws_body_le s s' Hok Hb Hws Hbody) as (Hb' & Hws').
    apply IH; assumption.
Qed.

End ws_bound.

Section ws_get_bound.

(** No width that [tui_text_ws_get] writes is above the width that
    [tui_text_w_get] has found for the height. *)
Lemma tui_text_ws_get_le (text : text_t) (h : Z) (ws : ws_table) :
  0 <= h ->
  tui_text_ws_get (replicate (Z.to_nat h) None) text h = Some ws ->
  ws_entries_le (Z.max 0 (tui_text_w_get text h)) ws.
Proof.
  intros Hh. unfold tui_text_ws_get, tui_text_ws_get_run.
  destruct (ws_loop _ _ _ _ _) as [[s_f|]|] eqn:Hloop; cbn; try discriminate.
  intros [= <-].
  eapply ws_loop_le; [| | |exact Hloop].
  - unfold ws_ok, ws_init; simpl_ws. rewrite length_replicate. lia.
  - unfold ws_init; simpl_ws. lia.
  - unfold ws_init; simpl_ws. intros i v Hv.
    apply lookup_replicate in Hv as [[=] _].
Qed.

Lemma ws_load_Some ws i v :
  ws_load ws i = Some v ->
  0 <= i < Z.of_nat (length ws) /\ ws !! Z.to_nat i = Some (Some v).
Proof.
  unfold ws_load.
  destruct (Z.leb_spec 0 i); [|discriminate].
  destruct (Z.ltb_spec i (Z.of_nat (length ws))); [|discriminate].
  cbn [andb]. destruct (ws !! Z.to_nat i) as [[x|]|] eqn:Hx; cbn; try discriminate.
  intros [= <-]. split; [lia | reflexivity].
Qed.

End ws_get_bound.

Section coordinates.

Lemma in_int_range n : in_int n = true -> INT_MIN <= n <= INT_MAX.
Proof. unfold in_int. intros H. apply andb_true_iff in H as [H1 H2]. lia. Qed.

Lemma in_int_intro n : INT_MIN <= n <= INT_MAX -> in_int n = true.
Proof. unfold in_int. intros H. apply andb_true_iff. lia. Qed.

(** For a difference that is not negative the unsigned [y_shift] is the
    signed one, and it is not above the difference. *)
Lemma y_shift_of_fits pos diff :
  0 <= diff <= INT_MAX ->
  y_shift_of pos diff = (pos_value pos * diff) ÷ 2
  /\ 0 <= y_shift_of pos diff <= diff.
Proof.
  unfold y_shift_of, unsigned_of_int, UINT_SIZE, INT_MAX. intros Hdiff.
  rewrite (Z.mod_small diff) by lia.
  assert (Hp : 0 <= pos_value pos <= 2) by (destruct pos; cbn; lia).
  rewrite Z.mod_small by nia.
  rewrite Z.quot_div_nonneg by nia.
  split; [reflexivity|].
  split; [apply Z.div_pos; nia | apply Z.div_le_upper_bound; nia].
Qed.

(** For a negative difference the conversion to unsigned adds 2^32. *)
Lemma y_shift_of_short pos diff :
  INT_MIN <= diff < 0 ->
  y_shift_of pos diff
  = match pos with
    | TUI_POS_START => 0
    | TUI_POS_CENTER => 2147483648 + diff / 2
    | TUI_POS_END => 2147483648 + diff
    end.
Proof.
  unfold y_shift_of, unsigned_of_int, UINT_SIZE, INT_MIN. intros Hdiff.
  assert (Hmod : diff mod 4294967296 = diff + 4294967296).
  { symmetry. apply (Z.mod_unique diff 4294967296 (-1)); lia. }
  rewrite Hmod. destruct pos; cbn [pos_value].
  - reflexivity.
  - rewrite Z.mul_1_l, Z.mod_small by lia.
    replace (diff + 4294967296) with (diff + 2147483648 * 2) by lia.
    rewrite Z.div_add by lia. lia.
  - assert (Hmod2 : (2 * (diff + 4294967296)) mod 4294967296
                    = 2 * diff + 4294967296).
    { symmetry. apply (Z.mod_unique _ 4294967296 1); lia. }
    rewrite Hmod2.
    replace (2 * diff + 4294967296) with ((diff + 2147483648) * 2) by lia.
    rewrite Z.div_mul by lia. lia.
Qed.

End coordinates.

Section text_inside.

Variable window : tui_window_text_t.

#[local] Abbreviation win := (head_window (text_head window)).
#[local] Abbreviation rect := (head_rect (text_head window)).
#[local] Abbreviation text := (tui_text_extract (text_string window)).
#[local] Abbreviation h := (tui_text_h_get text (rect_w rect)).

(** X14: When [tui_window_text_render] returns for a window that is one cell
    wide or more, every character has been put on the window's own
    ncurses window, in a column of the window's rectangle and on the row
    [rect.y + y_shift] plus one of the [h] lines that the text wraps
    into, [y_shift] being [pos * (rect.h - h) / 2] in unsigned
    arithmetic.  When the rectangle is [h] rows high or more, this is
    the signed value and the rows are rows of the rectangle; when it is
    lower, [y_shift] is 0 at the start, and about 2^31 in the centre and
    at the end. *)
Theorem tui_window_text_render_inside (w : world) window' w' :
  1 <= rect_w rect ->
  tui_window_text_render window w = Some (window', w') ->
  exists new,
    calls w' = calls w ++ new
    /\ (forall target ch, In (Ewaddch target ch) new -> target = win)
    /\ (forall target y x, In (Ewmove target y x) new ->
          target = win
          /\ rect_x rect <= x < rect_x rect + rect_w rect
          /\ (exists row, 0 <= row < h
                /\ y = rect_y rect
                       + y_shift_of (text_pos window) (rect_h rect - h) + row)
          /\ (h <= rect_h rect ->
                y_shift_of (text_pos window) (rect_h rect - h)
                = (pos_value (text_pos window) * (rect_h rect - h)) ÷ 2
                /\ inside rect y x)
          /\ (rect_h rect < h ->
                y_shift_of (text_pos window) (rect_h rect - h)
                = match text_pos window with
                  | TUI_POS_START => 0
                  | TUI_POS_CENTER => 2147483648 + (rect_h rect - h) / 2
                  | TUI_POS_END => 2147483648 + (rect_h rect - h)
                  end)).
Proof.
  intros Hw Hrun.
  destruct (tui_window_text_render_adds window _ _ _ Hrun) as (new & Hcalls & Hpost).
  cbn zeta in Hpost.
  destruct Hpost as (_ & Hh & pair & ws & draws & Hws & Hdraws & ->).
  exists ([Ecurs_set 0; Ewerase win; Eattron pair]
          ++ free_text (text_text window) ++ draws ++ [Ewrefresh win]).
  split; [exact Hcalls|].
  assert (Hin : forall e,
            In e ([Ecurs_set 0; Ewerase win; Eattron pair]
                  ++ free_text (text_text window) ++ draws ++ [Ewrefresh win]) ->
            match e with
            | Ewaddch _ _ | Ewmove _ _ _ => draws_at window h ws e
            | _ => True
            end).
  { intros e. rewrite !in_app_iff. cbn [In].
    intros [[<- | [<- | [<- | []]]] | [Hfree | [Hdraw | [<- | []]]]];
      try exact I.
    - destruct (text_text window); cbn in Hfree;
        [destruct Hfree as [<- | []]; exact I | destruct Hfree].
    - rewrite Forall_forall in Hdraws. apply list_elem_of_In in Hdraw.
      specialize (Hdraws _ Hdraw).
      destruct e; try exact I; exact Hdraws. }
  assert (Hok : h <> -1) by lia.
  pose proof (tui_text_w_get_of_wrapped text (rect_w rect) Hw Hok) as Hmax.
  pose proof (tui_text_ws_get_le text h ws ltac:(lia) Hws) as Hle.
  pose proof (tui_text_h_get_lower text _ Hok) as Hlow.
  destruct (tui_text_ws_get_account text h Hlow) as (ws1 & Hws1 & Hlen & _).
  rewrite Hws in Hws1. injection Hws1 as <-.
  split.
  - intros target ch Hin'. apply Hin in Hin'. exact (proj1 Hin').
  - intros target y x Hin'. apply Hin in Hin'.
    unfold draws_at in Hin'. cbv beta iota zeta in Hin'.
    destruct Hin' as (line & width & lw & Hload & Hlw & -> & Hdiff & _ & _ & -> & ->).
    apply ws_load_Some in Hload as [Hline Hentry].
    apply Hle in Hentry.
    assert (Hq : 0 <= (rect_w rect - width) ÷ 2
                 /\ 2 * ((rect_w rect - width) ÷ 2) <= rect_w rect - width).
    { rewrite Z.quot_div_nonneg by lia.
      pose proof (Z.div_mod (rect_w rect - width) 2 ltac:(lia)).
      pose proof (Z.mod_pos_bound (rect_w rect - width) 2 ltac:(lia)).
      assert (0 <= (rect_w rect - width) / 2) by (apply Z.div_pos; lia). lia. }
    apply in_int_range in Hdiff.
    split; [reflexivity|]. split; [lia|].
    split; [exists line; split; [lia | reflexivity]|].
    split.
    + intros Hfit.
      destruct (y_shift_of_fits (text_pos window) (rect_h rect - h)) as [Hshift Hs];
        [lia|].
      split; [exact Hshift|]. unfold inside. split; [lia|].
      revert Hs. generalize (y_shift_of (text_pos window) (rect_h rect - h)).
      intros shift Hs. lia.
    + intros Hshort. apply y_shift_of_short. lia.
Qed.

(** X16: A text with a word that is longer than the window is wide: the
    height is -1, the array of the line widths would get this size, and
    the render of the window has no defined result.  With the width 0 of
    [TUI_RECT_NONE] this is so for every text that has a word. *)
Theorem tui_window_render_long_word (w : world) :
  0 <= rect_w rect -> (Z.to_nat (rect_w rect) < longest_word text)%nat ->
  h = -1
  /\ renderable (Window_text window) = false
  /\ tui_window_render (Window_text window) w = None.
Proof.
  intros Hw Hlong.
  assert (Hh : h = -1).
  { destruct (proj2 (word_at_iff_longest text (S (Z.to_nat (rect_w rect)))) Hlong)
      as [from Hword].
    exact (tui_text_h_get_long_word text (rect_w rect) from Hw Hword). }
  assert (Hbad : renderable (Window_text window) = false)
    by (cbn [renderable]; rewrite Hh; reflexivity).
  split; [exact Hh|]. split; [exact Hbad|].
  destruct (tui_window_render (Window_text window) w) as [[window' w']|] eqn:Hrun;
    [|reflexivity].
  destruct (tui_window_render_post _ _ _ _ Hrun) as (new & _ & Hok & _).
  congruence.
Qed.

End text_inside.

(** ** Rendering: the active color *)

Section recolors_facts.

Lemma recolors_ret {A} (a : A) : recolors (mret a) id.
Proof. intros w a' w' [= <- <-]. reflexivity. Qed.

Lemma recolors_undefined {A} change : recolors (@undefined A) change.
Proof. intros w a w' [=]. Qed.

Lemma recolors_bind {A B} (m : M A) (k : A -> M B) f g h :
  recolors m f -> (forall a, recolors (k a) g) -> (forall color, h color = g (f color)) ->
  recolors (m ≫= k) h.
Proof.
  intros Hm Hk Hh w b w'. unfold mbind, M_bind, bind.
  destruct (m w) as [[a w1]|] eqn:Hrun; [|discriminate].
  intros Hrun'. rewrite (Hk _ _ _ _ Hrun'), (Hm _ _ _ Hrun), Hh. reflexivity.
Qed.

Lemma recolors_keep {A B} (m : M A) (k : A -> M B) g :
  recolors m id -> (forall a, recolors (k a) g) -> recolors (m ≫= k) g.
Proof. intros Hm Hk. eapply recolors_bind; [exact Hm | exact Hk | reflexivity]. Qed.

Lemma recolors_ret_bind {A B} (a : A) (k : A -> M B) f :
  recolors (k a) f -> recolors (ret a ≫= k) f.
Proof. intros Hk. exact Hk. Qed.

Lemma recolors_call (e : event) : recolors (call e) id.
Proof. intros w a w' [= <- <-]. reflexivity. Qed.

Lemma recolors_deref {A} (p : option A) : recolors (deref p) id.
Proof. destruct p; [apply recolors_ret | apply recolors_undefined]. Qed.

Lemma recolors_tui_window_fill head :
  recolors (tui_window_fill head) (fun color => tui_color_inherit color (head_color head)).
Proof. intros w a w'. rewrite tui_window_fill_run. intros [= <- <-]. reflexivity. Qed.

Lemma recolors_tui_border_draw head border :
  recolors (tui_border_draw head border)
           (fun color => match border with Some _ => TUI_COLOR_NONE | None => color end).
Proof.
  destruct border as [border|]; [|apply recolors_ret].
  intros w a w'. rewrite tui_border_draw_run. intros [= <- <-]. reflexivity.
Qed.

Lemma recolors_r_body window h ws s : recolors (r_body window h ws s) id.
Proof.
  intros w s' w'. rewrite r_body_run. cbv zeta.
  destruct (is_char _ SPACE && _); [intros [= <- <-]; reflexivity|].
  destruct (ws_load ws (r_line_index s)) as [width|]; [|discriminate].
  destruct (r_line_w s >=? width); [intros [= <- <-]; reflexivity|].
  destruct (r_coords_ok _ _ _ _); [|discriminate].
  intros [= <- <-]. reflexivity.
Qed.

Lemma recolors_r_loop fuel window h ws : forall s,
  recolors (r_loop fuel window h ws s) id.
Proof.
  induction fuel as [|fuel IH]; intros s; cbn [r_loop]; [apply recolors_ret|].
  destruct (_ <? _)%nat; [|apply recolors_ret].
  apply recolors_keep; [apply recolors_r_body | exact IH].
Qed.

Lemma recolors_tui_text_render window : recolors (tui_text_render window) id.
Proof.
  unfold tui_text_render, tui_text_render_run.
  apply recolors_keep; [|intros _; apply recolors_ret].
  apply recolors_keep; [apply recolors_deref|]. intros text.
  destruct (_ <=? 0); [apply recolors_undefined|].
  apply recolors_keep; [apply recolors_deref|]. intros ws.
  apply recolors_r_loop.
Qed.

Lemma recolors_then {A B} (m : M A) (k : A -> M B) f :
  recolors m f -> (forall a, recolors (k a) id) -> recolors (m ≫= k) f.
Proof. intros Hm Hk. eapply recolors_bind; [exact Hm | exact Hk | reflexivity]. Qed.

Lemma recolors_tui_window_text_render window :
  recolors (tui_window_text_render window)
           (fun color => tui_color_inherit color (head_color (text_head window))).
Proof.
  unfold tui_window_text_render.
  apply recolors_keep; [apply recolors_call|]. intros _.
  apply recolors_keep; [apply recolors_call|]. intros _.
  apply recolors_then; [apply recolors_tui_window_fill|]. intros _.
  apply recolors_keep.
  { destruct (text_text window); [apply recolors_call | apply recolors_ret]. }
  intros _.
  apply recolors_keep; [apply recolors_tui_text_render|]. intros _.
  apply recolors_keep; [apply recolors_call|]. intros _.
  apply recolors_ret.
Qed.

Lemma recolors_children_render render children :
  Forall (fun slot => forall child, slot = Some child ->
            recolors (render child) (fun color => color_after color child)) children ->
  recolors (children_render render children)
           (fun color => color_over color_after color children).
Proof.
  induction 1 as [|[child|] rest Hchild _ IH]; cbn [children_render color_over].
  - apply recolors_ret.
  - eapply recolors_bind;
      [apply Hchild; reflexivity
      | intros child'; apply recolors_then; [apply IH | intros rest'; apply recolors_ret]
      | reflexivity].
  - apply recolors_undefined.
Qed.

Lemma recolors_tui_window_render window :
  recolors (tui_window_render window) (fun color => color_after color window).
Proof.
  induction window as [window | head children is_vertical border has_padding
                                  pos align IH] using tui_win_ind;
    cbn [tui_window_render color_after].
  - apply recolors_then; [apply recolors_tui_window_text_render|].
    intros window'. apply recolors_ret.
  - apply recolors_keep; [apply recolors_call|]. intros _.
    apply recolors_keep; [apply recolors_call|]. intros _.
    eapply recolors_bind; [apply recolors_tui_window_fill | intros _ |].
    + eapply recolors_bind; [apply recolors_tui_border_draw | intros _ |].
      * apply recolors_then; [apply recolors_children_render, IH|].
        intros children'.
        apply recolors_keep; [apply recolors_call|]. intros _.
        apply recolors_ret.
      * intros color. reflexivity.
    + intros color. cbn beta. destruct border; reflexivity.
Qed.

Lemma color_over_app after color windows windows' :
  color_over after color (windows ++ windows')
  = color_over after (color_over after color windows) windows'.
Proof.
  revert color. induction windows as [|slot rest IH]; intros color; cbn; [reflexivity|].
  apply IH.
Qed.

Lemma recolors_windows_render_loop index : forall windows,
  recolors (windows_render_loop windows index)
           (fun color => color_over color_after color (reverse (take index windows))).
Proof.
  induction index as [|index IH]; intros windows; cbn [windows_render_loop].
  - rewrite take_0. apply recolors_ret.
  - destruct (windows !! index) as [[window|]|] eqn:Hslot; cbn [mjoin option_join deref];
      try (intros w a w'; discriminate).
    assert (Hlt : (index < length windows)%nat) by (eapply lookup_lt_Some; eauto).
    apply recolors_ret_bind.
    eapply recolors_bind
      with (g := fun color => color_over color_after color (reverse (take index windows)));
      [apply recolors_tui_window_render | intros window' |].
    + intros w a w' Hrun. rewrite (IH _ _ _ _ Hrun).
      rewrite take_insert_ge by lia. reflexivity.
    + intros color. cbn beta.
      rewrite (take_S_r _ _ _ Hslot), reverse_app, color_over_app. cbn.
      reflexivity.
Qed.

Lemma recolors_tui_windows_render windows :
  recolors (tui_windows_render windows (length windows))
           (fun color => color_over color_after color (reverse windows)).
Proof.
  unfold tui_windows_render.
  intros w a w' Hrun. rewrite (recolors_windows_render_loop _ _ _ _ _ Hrun).
  rewrite firstn_all. reflexivity.
Qed.

Lemma recolors_tui_render_run (tui : tui_t) :
  recolors (tui_render_run tui)
           (fun color =>
              color_over color_after
                (color_over color_after color (reverse (tui_windows tui)))
                (reverse (active_windows tui))).
Proof.
  unfold tui_render_run.
  apply recolors_keep; [apply recolors_call|]. intros _.
  eapply recolors_bind
    with (g := fun color => color_over color_after color (reverse (active_windows tui)));
    [apply recolors_tui_windows_render | intros windows' |].
  - apply recolors_then.
    + unfold active_windows, active_menu.
      destruct (tui_menu tui) as [index|]; cbn [mbind option_bind];
        [|apply recolors_ret].
      destruct (tui_menus tui !! index) as [[menu|]|]; cbn [mjoin option_join deref];
        try (intros w a w'; discriminate).
      apply recolors_ret_bind.
      apply recolors_then; [apply recolors_tui_windows_render|].
      intros windows2. apply recolors_ret.
    + intros menus'.
      apply recolors_keep; [apply recolors_call|]. intros _.
      apply recolors_ret.
  - intros color. reflexivity.
Qed.

(** X21: The active color is handed from each window to the next one that is
    rendered, and nothing hands it back: a render of a window that
    returns leaves the color that [color_after] gives, and [tui_render]
    leaves in the tui the color after the last window it has rendered. *)
Theorem tui_render_color :
  (forall window w window' w',
      tui_window_render window w = Some (window', w') ->
      active w' = color_after (active w) window)
  /\ (forall tui tui' calls,
        tui_render tui = Some (tui', calls) ->
        tui_color tui'
        = color_over color_after
            (color_over color_after (tui_color tui) (reverse (tui_windows tui)))
            (reverse (active_windows tui))).
Proof.
  split.
  - intros window w window' w'. apply recolors_tui_window_render.
  - intros tui tui' calls Hrender.
    destruct (tui_render_post _ _ _ Hrender) as (result & Hrun & _).
    apply recolors_tui_render_run in Hrun. exact Hrun.
Qed.


End recolors_facts.

(** ** Rendering: examples *)

Section render_examples.

(** The children 3 and 4 of the box are refreshed before the box 2. *)
Lemma tui_render_refresh_order_witness :
  exists tui' calls,
    tui_render tui_six_windows = Some (tui', calls)
    /\ refreshed calls = [Some 3; Some 4; Some 2; Some 1; Some 6; Some 5]%nat.
Proof.
  destruct (tui_render tui_six_windows) as [[tui' calls]|] eqn:Hrender;
    [|vm_compute in Hrender; discriminate].
  exists tui', calls. split; [reflexivity|].
  rewrite (proj1 (tui_render_refresh_order tui_six_windows tui' calls Hrender)).
  reflexivity.
Defined.


Lemma tui_render_undefined_witness : tui_render tui_null_slot = None.
Proof. apply tui_render_undefined. left. reflexivity. Defined.

(** "ab" goes to the row 0 and "cd" to the row 1, in the columns 0 and
    1. *)
Lemma tui_window_text_render_inside_witness :
  exists window' w',
    tui_window_text_render window_ab_cd (mk_world TUI_COLOR_NONE []) = Some (window', w')
    /\ forall target y x, In (Ewmove target y x) (calls w') ->
         inside (head_rect (text_head window_ab_cd)) y x.
Proof.
  destruct (tui_window_text_render window_ab_cd (mk_world TUI_COLOR_NONE []))
    as [[window' w']|] eqn:Hrun; [|vm_compute in Hrun; discriminate].
  exists window', w'. split; [reflexivity|].
  destruct (tui_window_text_render_inside window_ab_cd _ window' w'
              ltac:(vm_compute; discriminate) Hrun)
    as (new & Hcalls & _ & Hmove).
  cbn [calls app] in Hcalls. rewrite Hcalls.
  intros target y x Hin.
  apply (Hmove target y x Hin). vm_compute. discriminate.
Defined.

(** A text of two lines at the end of a window of one row: the unsigned
    [y_shift] is 2^31 - 1, and "ab" is put on the row 2147483647. *)
Lemma tui_window_text_render_tall_end :
  exists window' w',
    tui_window_text_render window_tall_end (mk_world TUI_COLOR_NONE [])
    = Some (window', w')
    /\ calls w'
       = [Ecurs_set 0; Ewerase (Some 1%nat); Eattron 0;
          Ewmove (Some 1%nat) 2147483647 0; Ewaddch (Some 1%nat) (chtype_of_char "a");
          Ewmove (Some 1%nat) 2147483647 1; Ewaddch (Some 1%nat) (chtype_of_char "b");
          Ewrefresh (Some 1%nat)].
Proof. eexists _, _. split; [vm_compute; reflexivity | reflexivity]. Qed.

(** The same for a centred text whose second line holds characters: the
    row of the second line is [0 + 2147483647 + 1], which is no [int],
    and the render has no defined result. *)
Lemma tui_window_text_render_tall_centre :
  tui_text_h_get (text_string window_tall_centre) 2 = 2
  /\ tui_window_text_render window_tall_centre (mk_world TUI_COLOR_NONE []) = None.
Proof. split; reflexivity. Qed.

(** A byte above 127 is a negative [char], and [waddch] gets it with
    the sign extended. *)
Lemma chtype_of_char_high : chtype_of_char (ascii_of_nat 233) = 4294967273.
Proof. reflexivity. Qed.

Lemma tui_window_render_long_word_witness :
  tui_window_render (Window_text window_too_narrow) (mk_world TUI_COLOR_NONE []) = None.
Proof.
  apply (tui_window_render_long_word window_too_narrow (mk_world TUI_COLOR_NONE []));
    vm_compute; [discriminate | lia].
Defined.

(** The plain window is rendered first and gets no color; the red one
    is rendered last, and red stays active. *)
Lemma tui_render_color_witness :
  exists tui' calls,
    tui_render tui_red_and_plain = Some (tui', calls)
    /\ tui_color tui' = mk_color 1 (-1).
Proof.
  destruct (tui_render tui_red_and_plain) as [[tui' calls]|] eqn:Hrender;
    [|vm_compute in Hrender; discriminate].
  exists tui', calls. split; [reflexivity|].
  rewrite (proj2 tui_render_color tui_red_and_plain tui' calls Hrender).
  reflexivity.
Defined.

End render_examples.

(** ** Destruction: everything is released once *)

Section release_facts.

Lemma deleted_app (l l' : list event) : deleted (l ++ l') = deleted l ++ deleted l'.
Proof. unfold deleted. apply omap_app. Qed.

Lemma freed_windows_app (l l' : list event) :
  freed_windows (l ++ l') = freed_windows l ++ freed_windows l'.
Proof. unfold freed_windows. apply omap_app. Qed.

Lemma tui_ncurses_window_free_deleted (win : WINDOW) :
  deleted (tui_ncurses_window_free (Some win)).2 = live win
  /\ freed_windows (tui_ncurses_window_free (Some win)).2 = [].
Proof. destruct win; split; reflexivity. Qed.

Lemma free_text_silent text :
  deleted (free_text text) = [] /\ freed_windows (free_text text) = [].
Proof. destruct text; split; reflexivity. Qed.

Lemma children_free_released free_calls children :
  Forall (fun slot => forall child, slot = Some child ->
            deleted (free_calls child) = handles child
            /\ freed_windows (free_calls child) = names child) children ->
  deleted (children_free free_calls children) = over_slots handles children
  /\ freed_windows (children_free free_calls children) = over_slots names children.
Proof.
  induction 1 as [|[child|] rest Hchild _ [IHd IHf]];
    cbn [children_free over_slots]; [split; reflexivity | |].
  - destruct (Hchild child eq_refl) as [Hd Hf].
    rewrite deleted_app, freed_windows_app, Hd, Hf, IHd, IHf. split; reflexivity.
  - cbn. split; assumption.
Qed.

(** [tui_window_free] on a live window deletes the ncurses windows of
    the window and of all its descendants and releases their structs,
    children before parents. *)
Lemma window_free_calls_released window :
  deleted (window_free_calls window) = handles window
  /\ freed_windows (window_free_calls window) = names window.
Proof.
  induction window as [window | head children is_vertical border has_padding
                                  pos align IH] using tui_win_ind;
    cbn [window_free_calls handles names].
  - unfold tui_window_text_free.
    destruct (tui_ncurses_window_free_deleted (head_window (text_head window)))
      as [Hd Hf].
    destruct (free_text_silent (text_text window)) as [Hd' Hf'].
    rewrite !deleted_app, !freed_windows_app, Hd, Hf, Hd', Hf'. cbn.
    rewrite app_nil_r. split; reflexivity.
  - destruct (children_free_released window_free_calls children IH) as [Hd Hf].
    destruct (tui_ncurses_window_free_deleted (head_window head)) as [Hd' Hf'].
    rewrite !deleted_app, !freed_windows_app, Hd, Hf, Hd', Hf'. cbn.
    rewrite app_nil_r. split; reflexivity.
Qed.

Lemma tui_windows_free_released windows :
  deleted (tui_windows_free windows).2 = over_slots handles windows
  /\ freed_windows (tui_windows_free windows).2 = over_slots names windows.
Proof.
  rewrite tui_windows_free_calls. cbn [snd].
  destruct (children_free_released window_free_calls windows) as [Hd Hf].
  { apply Forall_forall. intros slot _ child _. apply window_free_calls_released. }
  rewrite deleted_app, freed_windows_app, Hd, Hf. cbn.
  rewrite !app_nil_r. split; reflexivity.
Qed.

(** The loop of [tui_delete] over the menus makes the calls of
    [tui_menu_free] on the slots from [index] on, in order, and keeps
    the length. *)
Lemma menus_free_loop_calls fuel : forall menus index,
  (length menus <= index + fuel)%nat ->
  (menus_free_loop menus index fuel).2 = menus_free_calls (drop index menus)
  /\ length (menus_free_loop menus index fuel).1 = length menus.
Proof.
  unfold menus_free_calls.
  induction fuel as [|fuel IH]; intros menus index Hfuel; cbn [menus_free_loop].
  - rewrite drop_ge by lia. split; reflexivity.
  - destruct (menus !! index) as [slot|] eqn:Hslot.
    + destruct (IH (<[index := default None (tui_menu_free (Some slot)).1]> menus)
                   (S index)) as (Hcalls & Hlen).
      { rewrite length_insert. lia. }
      rewrite drop_insert_lt, length_insert in * by lia.
      rewrite (drop_S _ _ _ Hslot). cbn [flat_map].
      destruct (tui_menu_free (Some slot)) as [slot' calls] eqn:Hfree.
      destruct (menus_free_loop _ _ _) as [menus' calls'] eqn:Hloop.
      cbn [fst snd] in *. subst calls'. split; [reflexivity | exact Hlen].
    + apply lookup_ge_None in Hslot. rewrite drop_ge by lia. split; reflexivity.
Qed.

Lemma menus_free_calls_released menus :
  deleted (menus_free_calls menus) = over_menus handles menus
  /\ freed_windows (menus_free_calls menus) = over_menus names menus.
Proof.
  unfold menus_free_calls, over_menus.
  induction menus as [|[menu|] rest [IHd IHf]]; cbn [flat_map];
    [split; reflexivity | |].
  - rewrite deleted_app, freed_windows_app, IHd, IHf. cbn [tui_menu_free snd].
    destruct (tui_windows_free_released (menu_windows menu)) as [Hd Hf].
    rewrite !deleted_app, !freed_windows_app, Hd, Hf. cbn.
    rewrite !app_nil_r. split; reflexivity.
  - rewrite deleted_app, freed_windows_app, IHd, IHf. split; reflexivity.
Qed.

(** X22: [tui_window_free] on a live window, and [tui_delete] on a live tui,
    delete every ncurses window of the tree and release the struct of
    every window, each once: those of the children before that of their
    parent, for [tui_delete] those of the menus before those of the
    windows of the tui.  [tui_delete] releases the tui last. *)
Theorem tui_delete_releases :
  (forall window : tui_win,
      let calls := (tui_window_free (Some (Some window))).2 in
      deleted calls = handles window /\ freed_windows calls = names window)
  /\ (forall tui : tui_t,
        let calls := (tui_delete (Some (Some tui))).2 in
        deleted calls
        = over_menus handles (tui_menus tui) ++ over_slots handles (tui_windows tui)
        /\ freed_windows calls
           = over_menus names (tui_menus tui) ++ over_slots names (tui_windows tui)
        /\ last calls = Some (Efree Block_tui)).
Proof.
  split.
  - intros window. cbn. apply window_free_calls_released.
  - intros tui. cbn zeta. unfold tui_delete.
    destruct (menus_free_loop_calls (length (tui_menus tui)) (tui_menus tui) 0)
      as (Hcalls & Hlen); [lia|].
    destruct (menus_free_loop _ _ _) as [menus' calls]. cbn [fst snd] in *.
    rewrite drop_0 in Hcalls. subst calls.
    destruct (menus_free_calls_released (tui_menus tui)) as [Hd Hf].
    destruct (tui_windows_free_released (tui_windows tui)) as [Hd' Hf'].
    split; [|split].
    + rewrite !deleted_app, Hd, Hd'. cbn. rewrite !app_nil_r. reflexivity.
    + rewrite !freed_windows_app, Hf, Hf'. cbn. rewrite !app_nil_r. reflexivity.
    + rewrite !app_assoc. apply last_snoc.
Qed.

End release_facts.

(** ** Text reflow: one pass of the line-width loop, in full *)

Section ws_pass.

Variable text : text_t.
Variable max_w h : Z.
Hypothesis Hw : 1 <= max_w.
Hypothesis Hwords : no_long_word text max_w.

#[local] Abbreviation n := (length text).

Lemma ws_store_lookup ws li v ws' :
  ws_store ws li v = Some ws' ->
  0 <= li
  /\ ws' !! Z.to_nat li = Some (Some v)
  /\ forall j, Z.of_nat j <> li -> ws' !! j = ws !! j.
Proof.
  intros Hstore. apply ws_store_Some in Hstore as (Hrange & ->).
  split; [lia|]. split.
  - apply list_lookup_insert_eq. lia.
  - intros j Hj. apply list_lookup_insert_ne. lia.
Qed.

(** The store of the last line's width at the end of a pass. *)
Lemma ws_end_store (ws1 ws' : ws_table) (index1 : nat) (li1 lw1 : Z) :
  (S index1 <= n)%nat ->
  (if (index1 + 1 =? n)%nat then ws_store ws1 li1 lw1 else Some ws1) = Some ws' ->
  ((n <= S index1)%nat -> ws' !! Z.to_nat li1 = Some (Some lw1))
  /\ forall j, Z.of_nat j <> li1 -> ws' !! j = ws1 !! j.
Proof.
  intros Hle. destruct (Nat.eqb_spec (index1 + 1) n) as [Hlast|Hmore].
  - intros Hstore. apply ws_store_lookup in Hstore as (H0 & Hat & Hother).
    split; [intros _; exact Hat | intros j Hj; apply Hother; lia].
  - intros [= <-]. split; [intros; lia | reflexivity].
Qed.

(** A pass of the loop, with what it does to the table: it leaves the
    entries of the earlier lines alone, it stores the width of the line
    it ends, which is not negative, and at the end of the text it stores
    the width of the last line. *)
Lemma ws_body_step s s' :
  ws_line_ok text max_w h s -> (ws_index s < n)%nat -> ws_line_index s < h ->
  ws_body text max_w s = Some s' ->
  let c := char_at text (ws_index s) in
  let i := Z.of_nat (ws_index s) in
  ws_line_ok text max_w h s'
  /\ same_below (ws_line_index s) (ws_ws s) (ws_ws s')
  /\ (forall j, ws_line_index s' < Z.of_nat j -> ws_ws s' !! j = ws_ws s !! j)
  /\ ((n <= ws_index s')%nat ->
      ws_ws s' !! Z.to_nat (ws_line_index s') = Some (Some (ws_line_w s')))
  /\ ((is_char c SPACE = true /\ ws_line_w s = 0
       /\ ws_index s' = S (ws_index s) /\ ws_line_index s' = ws_line_index s
       /\ ws_line_w s' = 0)
      \/ (is_char c NEWLINE = true
          /\ ws_index s' = S (ws_index s) /\ ws_line_index s' = ws_line_index s + 1
          /\ ws_line_w s' = 0
          /\ ws_ws s' !! Z.to_nat (ws_line_index s) = Some (Some (ws_line_w s)))
      \/ (is_char c NEWLINE = false /\ ws_line_w s = max_w
          /\ exists p, i - ws_line_w s <= Z.of_nat p <= i
               /\ is_char (char_at text p) SPACE = true
               /\ ws_index s' = S p /\ ws_line_index s' = ws_line_index s + 1
               /\ ws_line_w s' = 0
               /\ ws_ws s' !! Z.to_nat (ws_line_index s)
                  = Some (Some (ws_line_w s - (i - Z.of_nat p))))
      \/ (is_char c NEWLINE = false /\ ws_line_w s < max_w
          /\ (is_char c SPACE = false \/ 0 < ws_line_w s)
          /\ ws_index s' = S (ws_index s) /\ ws_line_index s' = ws_line_index s
          /\ ws_line_w s' = ws_line_w s + 1)).
Proof.
  intros (Hinv & Hmax & Hdone) Hlt Hguard Hbody. cbn zeta.
  destruct (ws_body_account text max_w h Hw Hwords s s' Hinv Hlt Hguard Hbody)
    as (Hinv' & _).
  destruct Hinv as (Hok & Hline & Hlatest & Hfresh). specialize (Hfresh Hlt).
  unfold ws_line_ok, same_below. unfold ws_ok in Hok.
  destruct s as [i li lw si ws]; simpl_ws.
  destruct Hok as (Hli & Hlw & Hidx & Hsi & Hlen).
  unfold ws_body in Hbody; simpl_ws.
  set (letter := char_at text i) in *.
  set (si' := if is_char letter SPACE then Z.of_nat i else si) in *.
  assert (Hsi' : si <= si' <= Z.of_nat i)
    by (subst si'; destruct (is_char letter SPACE); lia).
  assert (Hlatest' : forall j, (j < S i)%nat -> is_char (char_at text j) SPACE = true ->
            Z.of_nat j <= si'
            /\ is_char (char_at text (Z.to_nat si')) SPACE = true).
  { intros j Hj Hspace. subst si'.
    destruct (is_char letter SPACE) eqn:Hletter.
    - rewrite Nat2Z.id. split; [lia | exact Hletter].
    - destruct (Nat.eq_dec j i) as [->|Hne]; [fold letter in Hspace; congruence|].
      apply Hlatest; [lia | exact Hspace]. }
  assert (HSi : (S i <= n)%nat) by lia.
  destruct (is_char letter SPACE && (lw =? 0)) eqn:Hskip.
  { (* a space while the line is empty *)
    apply andb_true_iff in Hskip as (Hspace & Hzero). apply Z.eqb_eq in Hzero. subst lw.
    cbn [mbind option_bind] in Hbody. simpl_ws.
    apply bind_Some in Hbody as (ws' & Hstore & [= <-]).
    destruct (ws_end_store ws ws' i li 0 HSi Hstore) as (Hend & Hsame).
    simpl_ws.
    split; [|split; [|split; [|split; [exact Hend | left; repeat split; auto]]]].
    - split; [exact Hinv'|]. split; [lia|].
      intros j Hj. rewrite Hsame by lia. apply Hdone, Hj.
    - intros j Hj. apply Hsame. lia.
    - intros j Hj. apply Hsame. lia. }
  assert (Hnoskip : is_char letter SPACE = false \/ 0 < lw).
  { apply andb_false_iff in Hskip as [Hsp | Hz]; [left; exact Hsp|].
    right. apply Z.eqb_neq in Hz. lia. }
  destruct (is_char letter NEWLINE) eqn:Hnl.
  { (* a newline *)
    apply bind_Some in Hbody as (s1 & Hbranch & Hbody).
    apply bind_Some in Hbranch as (ws1 & Hstore1 & [= <-]). simpl_ws.
    apply bind_Some in Hbody as (ws' & Hstore & [= <-]).
    destruct (ws_store_lookup _ _ _ _ Hstore1) as (_ & Hat & Hother).
    destruct (ws_end_store ws1 ws' i (li + 1) 0 HSi Hstore) as (Hend & Hsame).
    simpl_ws.
    assert (Hat' : ws' !! Z.to_nat li = Some (Some lw)).
    { rewrite Hsame by lia. exact Hat. }
    split; [|split; [|split; [|split; [exact Hend | right; left; repeat split; auto]]]].
    - split; [exact Hinv'|]. split; [lia|].
      intros j Hj. destruct (Z.eq_dec (Z.of_nat j) li) as [Heq|Hne].
      + exists lw. replace j with (Z.to_nat li) by lia. split; [exact Hat' | lia].
      + rewrite Hsame, Hother by lia. apply Hdone. lia.
    - intros j Hj. rewrite Hsame, Hother by lia. reflexivity.
    - intros j Hj. rewrite Hsame, Hother by lia. reflexivity. }
  destruct (Z.geb_spec lw max_w) as [Hover|Hroom].
  { (* the line is full *)
    apply bind_Some in Hbody as (s1 & Hbranch & Hbody).
    apply bind_Some in Hbranch as (ws1 & Hstore1 & [= <-]). simpl_ws.
    apply bind_Some in Hbody as (ws' & Hstore & [= <-]).
    destruct (ws_store_lookup _ _ _ _ Hstore1) as (_ & Hat & Hother).
    (* the line holds a space *)
    assert (Hspace : exists j, Z.of_nat i - lw <= Z.of_nat j <= Z.of_nat i
                               /\ is_char (char_at text j) SPACE = true).
    { destruct (space_in_range text (Z.to_nat (Z.of_nat i - lw)) (S (Z.to_nat max_w)))
        as [Hword | (j & Hj & Hspace)].
      - lia.
      - intros j Hj. destruct (Nat.eq_dec j i) as [->|Hne]; [exact Hnl|].
        apply Hline. lia.
      - destruct (Hwords _ Hword).
      - exists j. split; [lia | exact Hspace]. }
    destruct Hspace as (j & Hj & Hspace).
    assert (Hjlt : (j < S i)%nat) by lia.
    destruct (Hlatest' j Hjlt Hspace) as (Hjle & Hspace').
    set (i1 := Z.to_nat si') in *.
    assert (HSi1 : (S i1 <= n)%nat) by lia.
    destruct (ws_end_store ws1 ws' i1 (li + 1) 0 HSi1 Hstore) as (Hend & Hsame).
    simpl_ws.
    assert (Hat' : ws' !! Z.to_nat li = Some (Some (lw - (Z.of_nat i - si')))).
    { rewrite Hsame by lia. exact Hat. }
    split; [|split; [|split; [|split; [exact Hend | right; right; left]]]].
    - split; [exact Hinv'|]. split; [lia|].
      intros k Hk. destruct (Z.eq_dec (Z.of_nat k) li) as [Heq|Hne].
      + eexists. replace k with (Z.to_nat li) by lia. split; [exact Hat' | lia].
      + rewrite Hsame, Hother by lia. apply Hdone. lia.
    - intros k Hk. rewrite Hsame, Hother by lia. reflexivity.
    - intros k Hk. rewrite Hsame, Hother by lia. reflexivity.
    - split; [reflexivity|]. split; [lia|]. exists i1.
      replace (Z.of_nat i1) with si' by lia.
      repeat split; try lia; assumption. }
  (* one more character in the line *)
  cbn [mbind option_bind] in Hbody. simpl_ws.
  apply bind_Some in Hbody as (ws' & Hstore & [= <-]).
  destruct (ws_end_store ws ws' i li (lw + 1) HSi Hstore) as (Hend & Hsame).
  simpl_ws.
  split; [|split; [|split; [|split; [exact Hend
                                    | right; right; right; repeat split; auto; lia]]]].
  - split; [exact Hinv'|]. split; [lia|].
    intros j Hj. rewrite Hsame by lia. apply Hdone, Hj.
  - intros j Hj. apply Hsame. lia.
  - intros j Hj. apply Hsame. lia.
Qed.

End ws_pass.

(** ** Text reflow: the run of the line-width loop *)

Section ws_run.

Variable text : text_t.
Variable max_w h : Z.
Hypothesis Hw : 1 <= max_w.
Hypothesis Hwords : no_long_word text max_w.

#[local] Abbreviation n := (length text).

(** A run that ends behind the text makes a pass from every state that
    is not yet there. *)
Lemma ws_to_step s s_f :
  ws_to text max_w h s s_f -> (ws_index s < n)%nat -> (n <= ws_index s_f)%nat ->
  exists s', ws_line_index s < h /\ ws_body text max_w s = Some s'
             /\ ws_to text max_w h s' s_f.
Proof.
  intros [fuel Hrun] Hlt Hend. destruct fuel as [|fuel]; cbn [ws_loop] in Hrun.
  - destruct (_ && _); [discriminate|]. injection Hrun as <-. lia.
  - destruct (Nat.ltb_spec (ws_index s) n) as [_|]; [|lia].
    destruct (Z.ltb_spec (ws_line_index s) h) as [Hli|Hli]; cbn [andb] in Hrun.
    + destruct (ws_body text max_w s) as [s'|] eqn:Hbody; [|discriminate].
      exists s'. split; [exact Hli|]. split; [reflexivity|]. exists fuel. exact Hrun.
    + injection Hrun as <-. lia.
Qed.

Lemma ws_to_final s s_f :
  ws_to text max_w h s s_f -> (n <= ws_index s)%nat -> s_f = s.
Proof.
  intros [fuel Hrun] Hge. destruct fuel as [|fuel]; cbn [ws_loop] in Hrun;
    destruct (Nat.ltb_spec (ws_index s) n) as [|_]; try lia;
    cbn [andb] in Hrun; congruence.
Qed.

(** A run keeps the invariant, never goes back to an earlier line and
    leaves the entries of the earlier lines as they are. *)
Lemma ws_loop_persist fuel : forall s s_f,
  ws_loop fuel text max_w h s = Some (Some s_f) ->
  ws_line_ok text max_w h s ->
  ws_line_ok text max_w h s_f
  /\ ws_line_index s <= ws_line_index s_f
  /\ same_below (ws_line_index s) (ws_ws s) (ws_ws s_f).
Proof.
  induction fuel as [|fuel IH]; intros s s_f Hrun Hok; cbn [ws_loop] in Hrun.
  - destruct (_ && _); [discriminate|]. injection Hrun as <-.
    split; [exact Hok|]. split; [lia | intros j Hj; reflexivity].
  - destruct (Nat.ltb_spec (ws_index s) n) as [Hlt|Hge];
      destruct (Z.ltb_spec (ws_line_index s) h) as [Hli|Hli]; cbn [andb] in Hrun;
      try (injection Hrun as <-; split; [exact Hok|];
           split; [lia | intros j Hj; reflexivity]).
    destruct (ws_body text max_w s) as [s'|] eqn:Hbody; [|discriminate].
    destruct (ws_body_step text max_w h Hw Hwords s s' Hok Hlt Hli Hbody)
      as (Hok' & Hsame & _ & _ & Hcases).
    destruct (IH s' s_f Hrun Hok') as (Hok_f & Hle & Hsame').
    assert (Hli' : ws_line_index s <= ws_line_index s').
    { destruct Hcases as [H | [H | [H | H]]].
      - lia.
      - lia.
      - destruct H as (_ & _ & p & _ & _ & _ & H & _). lia.
      - lia. }
    split; [exact Hok_f|]. split; [lia|].
    intros j Hj. rewrite Hsame' by lia. apply Hsame, Hj.
Qed.

Lemma ws_to_persist s s_f :
  ws_to text max_w h s s_f -> ws_line_ok text max_w h s ->
  ws_line_ok text max_w h s_f
  /\ ws_line_index s <= ws_line_index s_f
  /\ same_below (ws_line_index s) (ws_ws s) (ws_ws s_f).
Proof. intros [fuel Hrun]. apply (ws_loop_persist fuel), Hrun. Qed.

(** At the end of a run that ends behind the text, the line of every
    state that the run went through has its width in the table. *)
Lemma ws_loop_line_written fuel : forall s s_f,
  ws_loop fuel text max_w h s = Some (Some s_f) ->
  ws_line_ok text max_w h s -> (ws_index s < n)%nat -> (n <= ws_index s_f)%nat ->
  exists v, ws_ws s_f !! Z.to_nat (ws_line_index s) = Some (Some v) /\ 0 <= v.
Proof.
  induction fuel as [|fuel IH]; intros s s_f Hrun Hok Hlt Hend.
  - destruct (ws_to_step s s_f (ex_intro _ 0%nat Hrun) Hlt Hend) as (s' & _ & _ & [fuel' Hrun']).
    cbn [ws_loop] in Hrun. destruct (_ && _); [discriminate|].
    injection Hrun as <-. lia.
  - cbn [ws_loop] in Hrun.
    destruct (Nat.ltb_spec (ws_index s) n) as [_|]; [|lia].
    destruct (Z.ltb_spec (ws_line_index s) h) as [Hli|Hli]; cbn [andb] in Hrun;
      [|injection Hrun as <-; lia].
    destruct (ws_body text max_w s) as [s'|] eqn:Hbody; [|discriminate].
    destruct (ws_body_step text max_w h Hw Hwords s s' Hok Hlt Hli Hbody)
      as (Hok' & Hsame & _ & Hlast & Hcases).
    assert (H0 : 0 <= ws_line_index s) by apply Hok.
    assert (Hnext : ws_line_index s' = ws_line_index s + 1 ->
              exists v, ws_ws s_f !! Z.to_nat (ws_line_index s) = Some (Some v) /\ 0 <= v).
    { intros Hli'.
      destruct (ws_loop_persist fuel s' s_f Hrun Hok') as (_ & _ & Hsame').
      destruct Hok' as (_ & _ & Hdone').
      destruct (Hdone' (Z.to_nat (ws_line_index s))) as (v & Hv & Hpos); [lia|].
      exists v. rewrite Hsame' by lia. split; assumption. }
    assert (Hstay : ws_line_index s' = ws_line_index s -> 0 <= ws_line_w s' ->
              exists v, ws_ws s_f !! Z.to_nat (ws_line_index s) = Some (Some v) /\ 0 <= v).
    { intros Hli' Hlw'.
      destruct (Nat.lt_ge_cases (ws_index s') n) as [Hlt'|Hge'].
      - rewrite <- Hli'. apply (IH s' s_f Hrun Hok' Hlt' Hend).
      - assert (s_f = s') as -> by (apply ws_to_final; [exists fuel; exact Hrun | exact Hge']).
        exists (ws_line_w s'). rewrite <- Hli'. split; [apply Hlast, Hge' | exact Hlw']. }
    destruct Hcases as [H | [H | [H | H]]].
    + apply Hstay; lia.
    + apply Hnext; lia.
    + destruct H as (_ & _ & p & _ & _ & _ & H & _). apply Hnext, H.
    + destruct Hok as (((_ & Hlw & _) & _) & _). apply Hstay; lia.
Qed.

(** The line of [t] ends up exactly as wide as it was at the character
    [i]: then the character [i] is the newline or the space that ends
    the line, and the run comes to the character behind it at the start
    of the next line. *)
Lemma ws_line_end (s_f : ws_state) (i : nat) (lw0 : Z) k : forall t,
  (ws_index t + k = n)%nat ->
  ws_to text max_w h t s_f -> ws_line_ok text max_w h t ->
  (n <= ws_index s_f)%nat -> (ws_index t < n)%nat ->
  ws_line_w t - lw0 = Z.of_nat (ws_index t) - Z.of_nat i -> (i <= ws_index t)%nat ->
  0 <= lw0 ->
  ws_ws s_f !! Z.to_nat (ws_line_index t) = Some (Some lw0) ->
  (is_char (char_at text i) SPACE = false \/ 0 < lw0) ->
  exists s', ws_to text max_w h s' s_f /\ ws_line_ok text max_w h s'
             /\ ws_index s' = S i /\ ws_line_index s' = ws_line_index t + 1
             /\ ws_line_w s' = 0
             /\ is_word_char (char_at text i) = false.
Proof.
  induction k as [|k IH]; intros t Hk Hto Hok Hend Hlt Hlw Hi Hlw0 Hentry Hstart; [lia|].
  destruct (ws_to_step t s_f Hto Hlt Hend) as (t' & Hli & Hbody & Hto').
  destruct (ws_body_step text max_w h Hw Hwords t t' Hok Hlt Hli Hbody)
    as (Hok' & Hsame & _ & Hlast & Hcases).
  assert (H0 : 0 <= ws_line_index t) by apply Hok.
  assert (Hkeep : ws_line_index t' = ws_line_index t + 1 -> forall v,
            ws_ws t' !! Z.to_nat (ws_line_index t) = Some (Some v) -> v = lw0).
  { intros Hli' v Hv.
    destruct (ws_to_persist t' s_f Hto' Hok') as (_ & _ & Hsame').
    rewrite <- Hsame' in Hv by lia. congruence. }
  destruct Hcases as [H | [H | [H | H]]].
  - destruct H as (Hsp & Hz & _). assert (ws_index t = i) as <- by lia.
    destruct Hstart; [congruence | lia].
  - destruct H as (Hnl & Hi' & Hli' & Hlw' & Hv).
    apply (Hkeep Hli') in Hv. assert (ws_index t = i) as <- by lia.
    exists t'. split; [exact Hto'|]. split; [exact Hok'|].
    split; [exact Hi'|]. split; [exact Hli'|]. split; [exact Hlw'|].
    unfold is_word_char. rewrite Hnl. apply andb_false_r.
  - destruct H as (Hnl & Hfull & p & Hp & Hsp & Hi' & Hli' & Hlw' & Hv).
    apply (Hkeep Hli') in Hv. assert (p = i) as -> by lia.
    exists t'. split; [exact Hto'|]. split; [exact Hok'|].
    split; [exact Hi'|]. split; [exact Hli'|]. split; [exact Hlw'|].
    unfold is_word_char. rewrite Hsp. reflexivity.
  - destruct H as (Hnl & Hroom & _ & Hi' & Hli' & Hlw').
    destruct (Nat.lt_ge_cases (ws_index t') n) as [Hlt'|Hge'].
    + rewrite <- Hli'. apply (IH t'); try assumption; try lia.
      rewrite Hli'. exact Hentry.
    + assert (s_f = t') as -> by (apply ws_to_final; assumption).
      specialize (Hlast Hge'). rewrite Hli', Hentry in Hlast.
      injection Hlast as Hlast. lia.
Qed.

End ws_run.

(** ** Rendering of text: the render follows the line widths *)

Section render_follows.

Variable text : text_t.
Variable max_w h : Z.
Hypothesis Hw : 1 <= max_w.
Hypothesis Hwords : no_long_word text max_w.

Variable s_f : ws_state.
Hypothesis Hend : (length text <= ws_index s_f)%nat.

Variable window : tui_window_text_t.
Variable render_h : Z.
Hypothesis Hstring : text_string window = text.

(** No line is wider than the rectangle, and the coordinates of every
    cell of the [h] lines are computed without an overflow. *)
Hypothesis Hentries :
  ws_entries_le (rect_w (head_rect (text_head window))) (ws_ws s_f).
Hypothesis Hplaced : forall (r : r_state) (width : Z),
  0 <= r_y r < h -> 0 <= r_line_w r < width ->
  width <= rect_w (head_rect (text_head window)) ->
  r_coords_ok window render_h width r = true.

#[local] Abbreviation n := (length text).

Lemma ws_load_written ws li v :
  0 <= li -> ws !! Z.to_nat li = Some (Some v) -> ws_load ws li = Some v.
Proof.
  intros H0 Hv. unfold ws_load.
  assert (Hlt := lookup_lt_Some _ _ _ Hv).
  destruct (Z.leb_spec 0 li); [|lia].
  destruct (Z.ltb_spec li (Z.of_nat (length ws))); [|lia].
  cbn [andb]. rewrite Hv. reflexivity.
Qed.

(** One pass of the loop of [tui_text_render] on a character that is
    not ESC: the pass is defined, it stays with the loop of
    [tui_text_ws_get], and it draws the character unless this is a space
    or a newline. *)
Lemma r_body_follows (r : r_state) (s : ws_state) (w : world) :
  r_follows text max_w h s_f r s -> (r_index r < n)%nat ->
  is_char (char_at text (r_index r)) ESCAPE = false ->
  exists r' w' s' new,
    r_body window render_h (ws_ws s_f) r w = Some (r', w')
    /\ r_follows text max_w h s_f r' s'
    /\ r_index r' = S (r_index r)
    /\ calls w' = calls w ++ new
    /\ (drawn new = [] /\ is_word_char (char_at text (r_index r)) = false
        \/ drawn new = [chtype_of_char (char_at text (r_index r))]
           /\ is_char (char_at text (r_index r)) NEWLINE = false).
Proof.
  intros (Hto & Hok & Hi & Hli & Hlw & Hy & Hcommit) Hlt Hesc.
  specialize (Hcommit Hlt). destruct Hcommit as (v & Hv & Hle).
  assert (Hlt_s : (ws_index s < n)%nat) by lia.
  destruct (ws_to_step text max_w h s s_f Hto Hlt_s Hend) as (s' & Hguard & Hbody & Hto').
  destruct (ws_body_step text max_w h Hw Hwords s s' Hok Hlt_s Hguard Hbody)
    as (Hok' & Hsame & _ & Hlast & Hcases).
  rewrite Hi, Hli, Hlw in Hcases.
  assert (H0 : 0 <= r_line_index r) by (rewrite <- Hli; apply Hok).
  destruct (ws_to_persist text max_w h Hw Hwords s' s_f Hto' Hok') as (_ & _ & Hsame').
  assert (Hkeep : ws_line_index s' = r_line_index r + 1 -> forall v',
            ws_ws s' !! Z.to_nat (r_line_index r) = Some (Some v') -> v' = v).
  { intros Hli' v' Hv'. rewrite <- Hsame' in Hv' by lia. congruence. }
  assert (Hlen_f : Z.of_nat (length (ws_ws s_f)) = h).
  { destruct (ws_to_persist text max_w h Hw Hwords s s_f Hto Hok) as (Hok_f & _).
    apply Hok_f. }
  rewrite r_body_run. cbv zeta. rewrite Hstring, Hesc.
  set (c := char_at text (r_index r)) in *.
  destruct (is_char c SPACE && (r_line_w r =? 0)) eqn:Hskip.
  { (* a space while the line is empty *)
    apply andb_true_iff in Hskip as (Hspace & Hzero). apply Z.eqb_eq in Hzero.
    assert (Hnl := space_not_newline c Hspace).
    destruct Hcases as [H | [H | [H | H]]];
      [|destruct H as (H & _); congruence
       |destruct H as (_ & H & _); lia
       |destruct H as (_ & _ & [H | H] & _); [congruence | lia]].
    destruct H as (_ & _ & Hi' & Hli' & Hlw').
    eexists _, _, s', []. split; [reflexivity|].
    split; [|split; [reflexivity | split; [symmetry; apply app_nil_r|]]].
    - unfold r_follows. cbn [r_index r_line_index r_line_w r_y].
      repeat (split; [first [assumption | lia]|]).
      intros _. exists v. split; [exact Hv | lia].
    - left. split; [reflexivity|]. unfold is_word_char. rewrite Hspace. reflexivity. }
  assert (Hnoskip : is_char c SPACE = false \/ 0 < r_line_w r).
  { apply andb_false_iff in Hskip as [Hsp | Hz]; [left; exact Hsp|].
    right. apply Z.eqb_neq in Hz.
    assert (0 <= r_line_w r) by (rewrite <- Hlw; apply Hok). lia. }
  rewrite (ws_load_written _ _ _ H0 Hv).
  destruct (Z.geb_spec (r_line_w r) v) as [Hge|Hroom].
  { (* the line is full: the character ends it *)
    assert (r_line_w r = v) by lia. subst v.
    destruct (ws_line_end text max_w h Hw Hwords s_f (r_index r) (r_line_w r)
                (n - r_index r) s) as (s2 & Hto2 & Hok2 & Hi2 & Hli2 & Hlw2 & Hword);
      try assumption; try lia.
    { rewrite <- Hlw. apply Hok. }
    { rewrite Hli. exact Hv. }
    eexists _, _, s2, []. split; [reflexivity|].
    split; [|split; [reflexivity | split; [symmetry; apply app_nil_r|]]].
    - unfold r_follows. cbn [r_index r_line_index r_line_w r_y].
      repeat (split; [first [assumption | lia]|]).
      intros Hlt2. destruct Hto2 as [fuel2 Hrun2].
      destruct (ws_loop_line_written text max_w h Hw Hwords fuel2 s2 s_f Hrun2 Hok2)
        as (v2 & Hv2 & Hpos2); [lia | exact Hend |].
      exists v2. rewrite <- Hli, <- Hli2. split; [exact Hv2 | exact Hpos2].
    - left. split; [reflexivity | exact Hword]. }
  (* the character is drawn *)
  destruct Hcases as [H | [H | [H | H]]].
  - destruct H as (Hsp & Hz & _). destruct Hnoskip; [congruence | lia].
  - destruct H as (_ & _ & Hli' & _ & Hv'). apply (Hkeep Hli') in Hv'. lia.
  - destruct H as (_ & _ & p & Hp & _ & _ & Hli' & _ & Hv').
    apply (Hkeep Hli') in Hv'. lia.
  - destruct H as (Hnl & _ & _ & Hi' & Hli' & Hlw').
    rewrite Hplaced.
    2:{ assert (Hin := lookup_lt_Some _ _ _ Hv). lia. }
    2:{ assert (0 <= r_line_w r) by (rewrite <- Hlw; apply Hok). lia. }
    2:{ exact (Hentries _ _ Hv). }
    eexists _, _, s', _. split; [reflexivity|].
    split; [|split; [reflexivity | split; [reflexivity|]]].
    + unfold r_follows. cbn [r_index r_line_index r_line_w r_y].
      repeat (split; [first [assumption | lia]|]).
      intros _. exists v. split; [exact Hv | lia].
    + right. split; [reflexivity | exact Hnl].
Qed.

Lemma drawn_app (l l' : list event) : drawn (l ++ l') = drawn l ++ drawn l'.
Proof. unfold drawn. apply omap_app. Qed.

Lemma word_chars_app (l l' : list ascii) :
  word_chars (l ++ l') = word_chars l ++ word_chars l'.
Proof. unfold word_chars. apply filter_app. Qed.

Lemma free_of_char_at c index :
  free_of c text -> (index < n)%nat -> is_char (char_at text index) c = false.
Proof.
  intros Hfree Hlt. unfold free_of in Hfree. rewrite Forall_lookup in Hfree.
  destruct (lookup_lt_is_Some_2 text index Hlt) as [d Hd].
  unfold char_at. rewrite (nth_lookup_Some _ _ zero _ Hd). exact (Hfree _ _ Hd).
Qed.

(** The loop of [tui_text_render] on a string without ESC: it is defined
    to the end of the string, and the characters it draws hold every
    character of a word, in order. *)
Lemma r_loop_follows k : forall (r : r_state) (s : ws_state) (w : world),
  free_of ESCAPE text ->
  r_follows text max_w h s_f r s -> (r_index r + k = n)%nat ->
  exists r_f w' new chars,
    r_loop k window render_h (ws_ws s_f) r w = Some (r_f, w')
    /\ calls w' = calls w ++ new
    /\ drawn new = map chtype_of_char chars
    /\ word_chars chars = word_chars (drop (r_index r) text)
    /\ sublist chars (drop (r_index r) text)
    /\ free_of NEWLINE chars.
Proof.
  induction k as [|k IH]; intros r s w Hfree Hfollows Hk; cbn [r_loop].
  - exists r, w, [], []. split; [reflexivity|]. split; [symmetry; apply app_nil_r|].
    rewrite drop_ge by lia. split; [reflexivity|]. split; [reflexivity|].
    split; constructor.
  - rewrite Hstring. destruct (Nat.ltb_spec (r_index r) n) as [Hlt|]; [|lia].
    destruct (r_body_follows r s w Hfollows Hlt (free_of_char_at _ _ Hfree Hlt))
      as (r' & w1 & s' & new1 & Hbody & Hfollows' & Hi' & Hcalls1 & Hdrawn1).
    destruct (IH r' s' w1 Hfree Hfollows' ltac:(lia))
      as (r_f & w' & new2 & chars2 & Hloop & Hcalls2 & Hdrawn2 & Hwords2 & Hsub2 & Hnl2).
    unfold mbind, M_bind, bind. rewrite Hbody.
    rewrite Hi' in *.
    rewrite (char_at_drop text (r_index r) Hlt).
    unfold word_chars in *.
    destruct Hdrawn1 as [[Hnone Hword] | [Hone Hnl]].
    + exists r_f, w', (new1 ++ new2), chars2.
      split; [exact Hloop|].
      split; [rewrite Hcalls2, Hcalls1, app_assoc; reflexivity|].
      split; [rewrite drawn_app, Hnone; exact Hdrawn2|].
      rewrite filter_cons_False by (rewrite Hword; discriminate).
      split; [exact Hwords2|]. split; [apply sublist_cons, Hsub2 | exact Hnl2].
    + exists r_f, w', (new1 ++ new2), (char_at text (r_index r) :: chars2).
      split; [exact Hloop|].
      split; [rewrite Hcalls2, Hcalls1, app_assoc; reflexivity|].
      split; [rewrite drawn_app, Hone, Hdrawn2; reflexivity|].
      rewrite !filter_cons, Hwords2.
      split; [reflexivity|]. split; [apply sublist_skip, Hsub2|].
      constructor; [exact Hnl | exact Hnl2].
Qed.

End render_follows.

Section render_plain.

Variable text : text_t.
Variable h : Z.

(** [h] is a height at which the text wraps. *)
Hypothesis Hheight : 1 + Z.of_nat (count_char NEWLINE text) <= h.
Hypothesis Hlen : (0 < length text)%nat.

#[local] Abbreviation ws0 := (replicate (Z.to_nat h) None : ws_table).
#[local] Abbreviation max_w := (tui_text_w_get text h).

(** The run of [tui_text_ws_get] on a fresh table ends behind the text. *)
Lemma tui_text_ws_get_end :
  exists s_f,
    tui_text_ws_get ws0 text h = Some (ws_ws s_f)
    /\ ws_to text max_w h (ws_init ws0) s_f
    /\ (length text <= ws_index s_f)%nat.
Proof.
  assert (Hinv := ws_init_inv text h Hheight).
  unfold tui_text_ws_get, tui_text_ws_get_run.
  set (s0 := ws_init ws0) in *.
  assert (Hok0 : ws_ok text h s0) by apply Hinv.
  destruct (ws_loop_ends text max_w h (ws_fuel text h) s0 Hok0) as (x & Hrun).
  { unfold ws_measure, ws_fuel, s0; simpl_ws. nia. }
  destruct (tui_text_w_get_of_height text h Hheight Hlen) as (Hw & Hok & Hle).
  destruct (tui_text_h_get_returns text max_w) as (Hrun_h & _).
  assert (Hdone : ws_done text max_w h s0).
  { apply (ws_keeps_up text max_w h Hw (h_fuel text) h_init s0 (tui_text_h_get text max_w));
      auto.
    - apply h_init_inv.
    - unfold h_line_inv, h_init; simpl_h. repeat split; try lia.
    - unfold s0, h_init; simpl_ws; simpl_h. lia.
    - unfold s0, h_init; simpl_ws; simpl_h. lia. }
  destruct Hdone as (fuel & s_f & Hrun_f & Hend).
  assert (Hx : x = Some s_f).
  { assert (H1 := ws_loop_more_fuel text max_w h _ (fuel + ws_fuel text h) _ _
                    (Nat.le_add_r _ _) Hrun_f).
    assert (H2 := ws_loop_more_fuel text max_w h _ (fuel + ws_fuel text h) _ _
                    (Nat.le_add_l _ _) Hrun).
    congruence. }
  subst x. rewrite Hrun. cbn [mjoin option_join fmap option_fmap option_map].
  exists s_f. split; [reflexivity|]. split; [exists fuel; exact Hrun_f | exact Hend].
Qed.

End render_plain.

(** ** Rendering: strings without escape sequences *)

Section text_render_runs.

Lemma no_escape_free string : no_escape string = true -> free_of ESCAPE string.
Proof.
  unfold no_escape, free_of. induction string as [|c rest IH]; cbn [forallb];
    [constructor|].
  intros Hall. apply andb_true_iff in Hall as [Hc Hrest].
  constructor; [apply negb_true_iff, Hc | apply IH, Hrest].
Qed.

Lemma tui_text_extract_free string :
  free_of ESCAPE string -> tui_text_extract string = string.
Proof.
  intros Hfree. unfold tui_text_extract. rewrite extract_loop_all.
  apply strip_of_free, Hfree.
Qed.

(** [tui_text_render] on a window whose text is its string, has no ESC
    and wraps at the width of the rectangle. *)
Lemma draws_nil new : drawn new = [] -> draws new [].
Proof. intros H. exact H. Qed.

Lemma draws_app new1 new2 chars1 chars2 :
  draws new1 chars1 -> draws new2 chars2 -> draws (new1 ++ new2) (chars1 ++ chars2).
Proof.
  unfold draws. intros H1 H2. rewrite drawn_app, H1, H2, map_app. reflexivity.
Qed.

Lemma free_of_app c (l l' : text_t) :
  free_of c l -> free_of c l' -> free_of c (l ++ l').
Proof. unfold free_of. intros. apply Forall_app. auto. Qed.

Lemma free_of_newline_word_or_space chars :
  free_of NEWLINE chars -> Forall word_or_space chars.
Proof.
  unfold free_of. intros Hfree. eapply Forall_impl; [exact Hfree|].
  intros c Hnl. unfold word_or_space.
  destruct (is_word_char c) eqn:Hword; [left; reflexivity|]. right.
  unfold is_word_char in Hword. rewrite Hnl in Hword. cbn in Hword.
  rewrite andb_true_r in Hword. apply negb_false_iff in Hword.
  apply Ascii.eqb_eq, Hword.
Qed.

(** In a window that is placed, the coordinates of every cell of the
    lines are computed without an overflow. *)
Lemma text_placed_coords (window : tui_window_text_t) (r : r_state) (width : Z) :
  let rect := head_rect (text_head window) in
  let h := tui_text_h_get (tui_text_extract (text_string window)) (rect_w rect) in
  text_placed window = true ->
  0 <= r_y r < h -> 0 <= r_line_w r < width -> width <= rect_w rect ->
  r_coords_ok window h width r = true.
Proof.
  cbv zeta. unfold text_placed, r_coords_ok. cbv zeta.
  set (rect := head_rect (text_head window)).
  set (h := tui_text_h_get _ _).
  set (y_shift := y_shift_of _ _).
  intros Hplaced Hy Hlw Hwidth.
  repeat (apply andb_true_iff in Hplaced as [Hplaced ?]).
  apply Z.leb_le in Hplaced.
  repeat match goal with
         | H : in_int _ = true |- _ => apply in_int_range in H
         end.
  assert (Hq : 0 <= (rect_w rect - width) ÷ 2 <= rect_w rect - width).
  { rewrite Z.quot_div_nonneg by lia.
    split; [apply Z.div_pos; lia | apply Z.div_le_upper_bound; lia]. }
  revert Hq. generalize ((rect_w rect - width) ÷ 2). intros x_shift Hq.
  unfold INT_MIN, INT_MAX in *.
  unfold in_int.
  repeat (apply andb_true_iff; split); apply Z.leb_le; unfold INT_MIN, INT_MAX; lia.
Qed.

Lemma tui_text_render_runs (window : tui_window_text_t) (text : text_t) (w : world) :
  text_string window = text -> text_text window = Some text ->
  free_of ESCAPE text ->
  1 <= tui_text_h_get text (rect_w (head_rect (text_head window))) ->
  text_placed window = true ->
  exists w' new chars,
    tui_text_render window w = Some (tt, w')
    /\ calls w' = calls w ++ new
    /\ draws new chars
    /\ word_chars chars = word_chars text
    /\ sublist chars text
    /\ free_of NEWLINE chars.
Proof.
  intros Hstring Htext Hfree Hh Hplaced.
  unfold tui_text_render, tui_text_render_run. rewrite Htext.
  unfold mbind, M_bind, bind. cbn [deref ret].
  set (h := tui_text_h_get text _) in *.
  destruct (Z.leb_spec h 0) as [|_]; [lia|].
  assert (Hok : h <> -1) by lia.
  pose proof (tui_text_h_get_lower text _ Hok) as Hheight. fold h in Hheight.
  destruct (Nat.eq_dec (length text) 0%nat) as [Hempty|Hne].
  - assert (text = []) as -> by (destruct text; [reflexivity | discriminate]).
    rewrite Hstring.
    unfold tui_text_ws_get, tui_text_ws_get_run, ws_fuel. cbn.
    exists w, [], []. split; [reflexivity|]. split; [symmetry; apply app_nil_r|].
    split; [reflexivity|]. split; [reflexivity|]. split; constructor.
  - assert (Hlen : (0 < length text)%nat) by lia.
    destruct (tui_text_ws_get_end text h Hheight Hlen) as (s_f & Hws & Hto & Hend).
    rewrite Hws. cbn [deref ret].
    destruct (tui_text_w_get_of_height text h Hheight Hlen) as (Hw & Hwrap & _).
    assert (Hwords : no_long_word text (tui_text_w_get text h)).
    { intros a Hword. apply Hwrap.
      apply (tui_text_h_get_long_word text _ a); [lia | exact Hword]. }
    assert (Hinv := ws_init_inv text h Hheight).
    assert (Hok0 : ws_line_ok text (tui_text_w_get text h) h
                     (ws_init (replicate (Z.to_nat h) None))).
    { split; [exact Hinv|]. split; [unfold ws_init; simpl_ws; lia|].
      unfold ws_init; simpl_ws. intros j Hj. lia. }
    assert (Hfollows : r_follows text (tui_text_w_get text h) h s_f r_init
                         (ws_init (replicate (Z.to_nat h) None))).
    { unfold r_follows. split; [exact Hto|]. split; [exact Hok0|].
      split; [reflexivity|]. split; [reflexivity|]. split; [reflexivity|].
      split; [reflexivity|]. intros _.
      destruct Hto as [fuel Hrun].
      destruct (ws_loop_line_written text _ h Hw Hwords fuel _ s_f Hrun Hok0)
        as (v & Hv & Hpos); [unfold ws_init; simpl_ws; lia | exact Hend |].
      exists v. split; [exact Hv | exact Hpos]. }
    assert (Hentries : ws_entries_le (rect_w (head_rect (text_head window)))
                         (ws_ws s_f)).
    { intros i v Hv.
      pose proof (tui_text_ws_get_le text h (ws_ws s_f) ltac:(lia) Hws i v Hv) as Hle.
      assert (Hwide : 1 <= rect_w (head_rect (text_head window))).
      { unfold text_placed in Hplaced. cbv zeta in Hplaced.
        repeat (apply andb_true_iff in Hplaced as [Hplaced _]).
        apply Z.leb_le, Hplaced. }
      pose proof (tui_text_w_get_of_wrapped text _ Hwide Hok) as Hmax.
      fold h in Hmax. lia. }
    assert (Hcoords : forall (r : r_state) (width : Z),
               0 <= r_y r < h -> 0 <= r_line_w r < width ->
               width <= rect_w (head_rect (text_head window)) ->
               r_coords_ok window h width r = true).
    { intros r width.
      pose proof (text_placed_coords window r width) as Hcoords. cbv zeta in Hcoords.
      rewrite Hstring, (tui_text_extract_free _ Hfree) in Hcoords.
      exact (Hcoords Hplaced). }
    destruct (r_loop_follows text _ h Hw Hwords s_f Hend window h Hstring
                Hentries Hcoords (length text) r_init _ w Hfree Hfollows)
      as (r_f & w' & new & chars & Hloop & Hcalls & Hdrawn & Hword & Hsub & Hnl);
      [reflexivity|].
    rewrite Hstring, Hloop. cbn.
    exists w', new, chars. split; [reflexivity|]. split; [exact Hcalls|].
    cbn [r_init r_index] in Hword, Hsub. rewrite drop_0 in Hword, Hsub.
    split; [exact Hdrawn|]. split; [exact Hword|]. split; [exact Hsub | exact Hnl].
Qed.

(** [tui_window_text_render] on a window whose string has no ESC and
    wraps at the width of the rectangle. *)
Lemma tui_window_text_render_runs (window : tui_window_text_t) (w : world) :
  no_escape (text_string window) = true ->
  renderable (Window_text window) = true ->
  text_placed window = true ->
  exists window' w' new chars,
    tui_window_text_render window w = Some (window', w')
    /\ calls w' = calls w ++ new
    /\ draws new chars
    /\ word_chars chars = word_chars (text_string window)
    /\ sublist chars (text_string window)
    /\ free_of NEWLINE chars.
Proof.
  intros Hplain Hok Hplaced. apply no_escape_free in Hplain.
  cbn [renderable] in Hok. apply Z.leb_le in Hok.
  rewrite (tui_text_extract_free _ Hplain) in Hok.
  unfold tui_window_text_render.
  rewrite (tui_text_extract_free _ Hplain).
  set (window1 := set_text window (Some (text_string window))).
  unfold mbind, M_bind, bind. cbn [call].
  rewrite tui_window_fill_run.
  set (w1 := mk_world _ _).
  assert (Hfree : exists w2 freed_calls,
             match text_text window with
             | Some text => call (Efree (Block_text text))
             | None => mret ()
             end w1 = Some (tt, w2)
             /\ calls w2 = calls w1 ++ freed_calls /\ drawn freed_calls = []).
  { destruct (text_text window) as [old|].
    - eexists _, [_]. split; [reflexivity|]. split; reflexivity.
    - exists w1, []. split; [reflexivity|]. split; [symmetry; apply app_nil_r | reflexivity]. }
  destruct Hfree as (w2 & freed_calls & -> & Hcalls2 & Hdrawn2).
  destruct (tui_text_render_runs window1 (text_string window) w2)
    as (w3 & new & chars & -> & Hcalls3 & Hdrawn3 & Hword3 & Hsub3 & Hnl3);
    try reflexivity; try assumption.
  cbn. eexists _, _, _, chars. split; [reflexivity|]. cbn [calls].
  split.
  - rewrite Hcalls3, Hcalls2. subst w1. cbn [calls].
    rewrite <- !app_assoc. reflexivity.
  - unfold draws in *. rewrite !drawn_app, Hdrawn2. cbn. rewrite app_nil_r.
    split; [exact Hdrawn3|]. split; [exact Hword3|]. split; [exact Hsub3 | exact Hnl3].
Qed.

End text_render_runs.

Section render_runs.

(** The render of a window has a result, and the calls it makes draw the
    characters of the words of the tree, and besides them no newline. *)
#[local] Abbreviation runs window :=
  (forall w : world, exists window' w' new chars,
      tui_window_render window w = Some (window', w')
      /\ calls w' = calls w ++ new
      /\ draws new chars
      /\ word_chars chars = shown window
      /\ free_of NEWLINE chars).

Lemma children_render_runs children :
  Forall (fun slot => forall child, slot = Some child ->
            renderable child = true -> plain child = true ->
            placed child = true -> runs child) children ->
  all_slots renderable children = true -> all_slots plain children = true ->
  all_slots placed children = true ->
  forall w : world, exists children' w' new chars,
    children_render tui_window_render children w = Some (children', w')
    /\ calls w' = calls w ++ new
    /\ draws new chars
    /\ word_chars chars = over_slots shown children
    /\ free_of NEWLINE chars.
Proof.
  induction 1 as [|[child|] rest Hchild _ IH]; cbn [children_render all_slots over_slots];
    intros Hok Hplain Hplaced w.
  - exists [], w, [], []. split; [reflexivity|].
    split; [symmetry; apply app_nil_r|]. split; [reflexivity|].
    split; [reflexivity | constructor].
  - apply andb_true_iff in Hok as [Hok Hoks].
    apply andb_true_iff in Hplain as [Hplain Hplains].
    apply andb_true_iff in Hplaced as [Hplaced Hplaceds].
    destruct (Hchild child eq_refl Hok Hplain Hplaced w)
      as (child' & w1 & new1 & chars1 & Hrun1 & Hcalls1 & Hdrawn1 & Hword1 & Hnl1).
    destruct (IH Hoks Hplains Hplaceds w1)
      as (rest' & w2 & new2 & chars2 & Hrun2 & Hcalls2 & Hdrawn2 & Hword2 & Hnl2).
    unfold mbind, M_bind, bind. rewrite Hrun1, Hrun2. cbn.
    eexists _, _, (new1 ++ new2), (chars1 ++ chars2). split; [reflexivity|].
    split; [rewrite Hcalls2, Hcalls1, app_assoc; reflexivity|].
    split; [apply draws_app; assumption|].
    split; [rewrite word_chars_app, Hword1, Hword2; reflexivity|].
    apply free_of_app; assumption.
  - discriminate.
Qed.

Lemma tui_window_render_runs window :
  renderable window = true -> plain window = true -> placed window = true ->
  runs window.
Proof.
  induction window as [window | head children is_vertical border has_padding
                                  pos align IH] using tui_win_ind;
    cbn [tui_window_render renderable plain placed shown]; intros Hok Hplain Hplaced w.
  - destruct (tui_window_text_render_runs window w Hplain Hok Hplaced)
      as (window' & w' & new & chars & Hrun & Hcalls & Hdrawn & Hword & _ & Hnl).
    unfold mbind, M_bind, bind. rewrite Hrun. cbn.
    eexists _, _, new, chars. split; [reflexivity|]. repeat split; assumption.
  - unfold mbind, M_bind, bind. cbn [call]. rewrite tui_window_fill_run.
    set (w1 := mk_world _ _).
    assert (Hborder : exists w2 border_calls,
               tui_border_draw head border w1 = Some (tt, w2)
               /\ calls w2 = calls w1 ++ border_calls /\ drawn border_calls = []).
    { destruct border as [border|].
      - rewrite tui_border_draw_run. eexists _, _. split; [reflexivity|].
        split; reflexivity.
      - exists w1, []. split; [reflexivity|].
        split; [symmetry; apply app_nil_r | reflexivity]. }
    destruct Hborder as (w2 & border_calls & -> & Hcalls2 & Hdrawn2).
    destruct (children_render_runs children IH Hok Hplain Hplaced w2)
      as (children' & w3 & new & chars & -> & Hcalls3 & Hdrawn3 & Hword3 & Hnl3).
    cbn. eexists _, _, _, chars. split; [reflexivity|]. cbn [calls]. split.
    + rewrite Hcalls3, Hcalls2. subst w1. cbn [calls].
      rewrite <- !app_assoc. reflexivity.
    + unfold draws in *. rewrite !drawn_app, Hdrawn2, Hdrawn3. cbn.
      rewrite app_nil_r. repeat split; assumption.
Qed.

Lemma windows_render_loop_runs index : forall windows (w : world),
  (index <= length windows)%nat ->
  all_slots renderable (take index windows) = true ->
  all_slots plain (take index windows) = true ->
  all_slots placed (take index windows) = true ->
  exists windows' w' new chars,
    windows_render_loop windows index w = Some (windows', w')
    /\ calls w' = calls w ++ new
    /\ draws new chars
    /\ word_chars chars = over_slots shown (reverse (take index windows))
    /\ free_of NEWLINE chars.
Proof.
  induction index as [|index IH]; intros windows w Hle Hok Hplain Hplaced;
    cbn [windows_render_loop].
  - exists windows, w, [], []. split; [reflexivity|].
    split; [symmetry; apply app_nil_r|]. split; [reflexivity|].
    split; [rewrite take_0; reflexivity | constructor].
  - destruct (lookup_lt_is_Some_2 windows index ltac:(lia)) as [slot Hslot].
    rewrite (take_S_r _ _ _ Hslot), all_slots_app in Hok, Hplain, Hplaced.
    apply andb_true_iff in Hok as [Hoks Hok].
    apply andb_true_iff in Hplain as [Hplains Hplain].
    apply andb_true_iff in Hplaced as [Hplaceds Hplaced].
    destruct slot as [window|]; [|discriminate].
    cbn [all_slots] in Hok, Hplain, Hplaced.
    rewrite andb_true_r in Hok, Hplain, Hplaced.
    rewrite Hslot. cbn [mjoin option_join deref].
    unfold mbind, M_bind, bind. cbn [ret].
    destruct (tui_window_render_runs window Hok Hplain Hplaced w)
      as (window' & w1 & new1 & chars1 & -> & Hcalls1 & Hdrawn1 & Hword1 & Hnl1).
    destruct (IH (<[index := Some window']> windows) w1)
      as (windows' & w2 & new2 & chars2 & -> & Hcalls2 & Hdrawn2 & Hword2 & Hnl2).
    + rewrite length_insert. lia.
    + rewrite take_insert_ge by lia. exact Hoks.
    + rewrite take_insert_ge by lia. exact Hplains.
    + rewrite take_insert_ge by lia. exact Hplaceds.
    + exists windows', w2, (new1 ++ new2), (chars1 ++ chars2). split; [reflexivity|].
      split; [rewrite Hcalls2, Hcalls1, app_assoc; reflexivity|].
      split; [apply draws_app; assumption|].
      rewrite take_insert_ge in Hword2 by lia.
      rewrite (take_S_r _ _ _ Hslot), reverse_app, over_slots_app.
      rewrite word_chars_app, Hword1, Hword2. cbn.
      rewrite app_nil_r. split; [reflexivity | apply free_of_app; assumption].
Qed.

Lemma tui_windows_render_runs windows (w : world) :
  all_slots renderable windows = true -> all_slots plain windows = true ->
  all_slots placed windows = true ->
  exists windows' w' new chars,
    tui_windows_render windows (length windows) w = Some (windows', w')
    /\ calls w' = calls w ++ new
    /\ draws new chars
    /\ word_chars chars = over_slots shown (reverse windows)
    /\ free_of NEWLINE chars.
Proof.
  intros Hok Hplain Hplaced. unfold tui_windows_render.
  destruct (windows_render_loop_runs (length windows) windows w)
    as (windows' & w' & new & chars & Hrun & Hcalls & Hdrawn & Hword & Hnl);
    rewrite ?firstn_all; try assumption; try lia.
  rewrite firstn_all in Hword.
  exists windows', w', new, chars. repeat split; assumption.
Qed.

(** The tui can be rendered: every slot of the arrays that [tui_render]
    walks holds a window, no string has an escape sequence, every text
    wraps at the width of its rectangle and is placed, and the active
    menu, if one is set, is a menu of the tui. *)
Lemma tui_render_runs (tui : tui_t) :
  all_slots renderable (tui_windows tui) = true ->
  all_slots plain (tui_windows tui) = true ->
  all_slots placed (tui_windows tui) = true ->
  all_slots renderable (active_windows tui) = true ->
  all_slots plain (active_windows tui) = true ->
  all_slots placed (active_windows tui) = true ->
  (tui_menu tui = None \/ is_Some (active_menu tui)) ->
  exists tui' calls chars,
    tui_render tui = Some (tui', calls)
    /\ draws calls chars
    /\ word_chars chars
       = over_slots shown (reverse (tui_windows tui))
         ++ over_slots shown (reverse (active_windows tui))
    /\ free_of NEWLINE chars.
Proof.
  intros Hok1 Hplain1 Hplaced1 Hok2 Hplain2 Hplaced2 Hmenu.
  unfold tui_render, tui_render_run.
  unfold mbind, M_bind, bind. cbn [call].
  set (w0 := mk_world _ _).
  destruct (tui_windows_render_runs (tui_windows tui) w0 Hok1 Hplain1 Hplaced1)
    as (windows' & w1 & new1 & chars1 & -> & Hcalls1 & Hdrawn1 & Hword1 & Hnl1).
  unfold active_windows, active_menu in *.
  destruct (tui_menu tui) as [index|]; cbn [mbind option_bind] in *.
  - destruct Hmenu as [[=] | [menu Hmenu]]. rewrite Hmenu in *.
    destruct (tui_menus tui !! index) as [[menu'|]|]; cbn in Hmenu; try discriminate.
    injection Hmenu as ->. cbn [mjoin option_join deref ret].
    destruct (tui_windows_render_runs (menu_windows menu) w1 Hok2 Hplain2 Hplaced2)
      as (windows2 & w2 & new2 & chars2 & -> & Hcalls2 & Hdrawn2 & Hword2 & Hnl2).
    cbn. eexists _, _, (chars1 ++ chars2). split; [reflexivity|].
    rewrite Hcalls2, Hcalls1. subst w0. cbn [calls app].
    unfold draws in *.
    match goal with
    | |- context [drawn (Ecurs_set 0 :: ?l)] =>
        change (drawn (Ecurs_set 0 :: l)) with (drawn l)
    end.
    rewrite !drawn_app, Hdrawn1, Hdrawn2, word_chars_app, Hword1, Hword2, map_app.
    cbn. rewrite app_nil_r.
    split; [reflexivity|]. split; [reflexivity | apply free_of_app; assumption].
  - cbn. eexists _, _, chars1. split; [reflexivity|].
    rewrite Hcalls1. subst w0. cbn [calls app].
    unfold draws in *.
    match goal with
    | |- context [drawn (Ecurs_set 0 :: ?l)] =>
        change (drawn (Ecurs_set 0 :: l)) with (drawn l)
    end.
    rewrite !drawn_app, Hdrawn1, Hword1. cbn.
    rewrite !app_nil_r. split; [reflexivity|]. split; [reflexivity | exact Hnl1].
Qed.

(** X20: [tui_render] has a result when every slot of the arrays it walks
    holds a window, no string has an escape sequence, the text of every
    text window wraps at the width of its rectangle, the coordinates of
    its lines are computed without an overflow, and the active menu, if
    one is set, is a menu of the tui.  What the calls then pass to
    [waddch] are characters of the strings, each as a [chtype]: every
    character of every word, window by window in the order of painting
    and none twice, and between them only spaces. *)
Theorem tui_render_defined (tui : tui_t) :
  all_slots renderable (tui_windows tui) = true ->
  all_slots plain (tui_windows tui) = true ->
  all_slots placed (tui_windows tui) = true ->
  all_slots renderable (active_windows tui) = true ->
  all_slots plain (active_windows tui) = true ->
  all_slots placed (active_windows tui) = true ->
  (tui_menu tui = None \/ is_Some (active_menu tui)) ->
  exists tui' calls chars,
    tui_render tui = Some (tui', calls)
    /\ drawn calls = map chtype_of_char chars
    /\ word_chars chars
       = over_slots shown (reverse (tui_windows tui))
         ++ over_slots shown (reverse (active_windows tui))
    /\ Forall word_or_space chars.
Proof.
  intros Hok1 Hplain1 Hplaced1 Hok2 Hplain2 Hplaced2 Hmenu.
  destruct (tui_render_runs tui Hok1 Hplain1 Hplaced1 Hok2 Hplain2 Hplaced2 Hmenu)
    as (tui' & calls & chars & Hrender & Hdrawn & Hword & Hnl).
  exists tui', calls, chars. split; [exact Hrender|]. split; [exact Hdrawn|].
  split; [exact Hword | apply free_of_newline_word_or_space, Hnl].
Qed.

End render_runs.

Section text_render_plain.

Variable window : tui_window_text_t.

#[local] Abbreviation rect := (head_rect (text_head window)).
#[local] Abbreviation h := (tui_text_h_get (text_string window) (rect_w rect)).

(** X15: A text window whose string has no escape sequence and wraps at the
    width of the rectangle, the coordinates of its lines being computed
    without an overflow: [tui_window_text_render] has a result, and what
    it has passed to [waddch] are characters of the string, each as a
    [chtype], in the order of the string and none twice; every character
    of a word is among them, and besides these only spaces. *)
Theorem tui_window_text_render_plain (w : world) :
  free_of ESCAPE (text_string window) ->
  1 <= h ->
  text_placed window = true ->
  exists window' w' new chars,
    tui_window_text_render window w = Some (window', w')
    /\ calls w' = calls w ++ new
    /\ drawn new = map chtype_of_char chars
    /\ sublist chars (text_string window)
    /\ word_chars chars = word_chars (text_string window)
    /\ Forall word_or_space chars.
Proof.
  intros Hfree Hh Hplaced.
  assert (Hplain : no_escape (text_string window) = true).
  { unfold no_escape. apply forallb_forall. intros c Hc.
    unfold free_of in Hfree. rewrite Forall_forall in Hfree.
    apply list_elem_of_In in Hc. rewrite (Hfree c Hc). reflexivity. }
  assert (Hok : renderable (Window_text window) = true).
  { cbn [renderable]. rewrite (tui_text_extract_free _ Hfree). apply Z.leb_le, Hh. }
  destruct (tui_window_text_render_runs window w Hplain Hok Hplaced)
    as (window' & w' & new & chars & Hrun & Hcalls & Hdrawn & Hword & Hsub & Hnl).
  exists window', w', new, chars. split; [exact Hrun|]. split; [exact Hcalls|].
  split; [exact Hdrawn|]. split; [exact Hsub|]. split; [exact Hword|].
  apply free_of_newline_word_or_space, Hnl.
Qed.

End text_render_plain.

(** ** Text reflow: every line fits the width *)

Section ws_fits.

Variable text : text_t.
Variable max_w h : Z.
Hypothesis Hw : 1 <= max_w.
Hypothesis Hwords : no_long_word text max_w.

#[local] Abbreviation n := (length text).

(** A run that ends behind the text leaves no negative width in the
    table. *)
Lemma ws_loop_nonneg fuel : forall s s_f,
  ws_loop fuel text max_w h s = Some (Some s_f) ->
  ws_line_ok text max_w h s -> (ws_index s < n)%nat -> (n <= ws_index s_f)%nat ->
  forall j v, ws_ws s_f !! j = Some (Some v) -> 0 <= v.
Proof.
  induction fuel as [|fuel IH]; intros s s_f Hrun Hok Hlt Hend.
  - cbn [ws_loop] in Hrun. destruct (_ && _); [discriminate|].
    injection Hrun as <-. lia.
  - cbn [ws_loop] in Hrun.
    destruct (Nat.ltb_spec (ws_index s) n) as [_|]; [|lia].
    destruct (Z.ltb_spec (ws_line_index s) h) as [Hli|Hli]; cbn [andb] in Hrun;
      [|injection Hrun as <-; lia].
    destruct (ws_body text max_w s) as [s'|] eqn:Hbody; [|discriminate].
    destruct (ws_body_step text max_w h Hw Hwords s s' Hok Hlt Hli Hbody)
      as (Hok' & _ & Habove & Hlast & Hcases).
    destruct (Nat.lt_ge_cases (ws_index s') n) as [Hlt'|Hge'].
    + apply (IH s' s_f Hrun Hok' Hlt' Hend).
    + assert (s_f = s') as -> by (apply (ws_to_final text max_w h);
                                   [exists fuel; exact Hrun | exact Hge']).
      intros j v Hv.
      assert (Hli' : ws_line_index s <= ws_line_index s').
      { destruct Hcases as [H | [H | [H | H]]]; try lia.
        destruct H as (_ & _ & p & _ & _ & _ & H & _). lia. }
      assert (H0 : 0 <= ws_line_index s' /\ 0 <= ws_line_w s') by (split; apply Hok').
      destruct (Z.lt_trichotomy (Z.of_nat j) (ws_line_index s')) as [Hj | [Hj | Hj]].
      * destruct Hok' as (_ & _ & Hdone').
        destruct (Hdone' j Hj) as (v' & Hv' & Hpos). congruence.
      * specialize (Hlast Hge'). replace (Z.to_nat (ws_line_index s')) with j in Hlast by lia.
        rewrite Hlast in Hv. injection Hv as <-. lia.
      * rewrite Habove in Hv by lia.
        destruct Hok as ((_ & _ & _ & Hfresh) & _).
        specialize (Hfresh Hlt j ltac:(lia)). rewrite Hv in Hfresh. discriminate.
Qed.

End ws_fits.

Section ws_get_fits.

Variable text : text_t.

(** X11: At a height that [tui_text_h_get] returns for a width of one or
    more, [tui_text_ws_get] fills a fresh table of that many entries
    without a store outside of it, and every width it writes is from 0
    to the width that the height was computed for: no line is wider than
    the text was wrapped at. *)
Theorem tui_text_ws_get_fits (w : Z) :
  1 <= w -> tui_text_h_get text w <> -1 ->
  exists ws,
    tui_text_ws_get (replicate (Z.to_nat (tui_text_h_get text w)) None) text
                    (tui_text_h_get text w) = Some ws
    /\ length ws = Z.to_nat (tui_text_h_get text w)
    /\ forall i v, ws !! i = Some (Some v) -> 0 <= v <= w.
Proof.
  intros Hw Hok. set (h := tui_text_h_get text w) in *.
  pose proof (tui_text_h_get_lower text w Hok) as Hheight. fold h in Hheight.
  destruct (tui_text_ws_get_account text h Hheight) as (ws & Hws & Hlen & _).
  exists ws. split; [exact Hws|]. split; [exact Hlen|].
  intros i v Hv.
  pose proof (tui_text_w_get_of_wrapped text w Hw Hok) as Hmax. fold h in Hmax.
  pose proof (tui_text_ws_get_le text h ws ltac:(lia) Hws i v Hv) as Hle.
  split; [|lia].
  destruct (Nat.eq_dec (length text) 0%nat) as [Hempty|Hne].
  - assert (text = []) as Htext by (destruct text; [reflexivity | discriminate]).
    revert Hws. rewrite Htext.
    unfold tui_text_ws_get, tui_text_ws_get_run, ws_fuel. cbn.
    intros [= <-]. apply lookup_replicate in Hv as [[=] _].
  - assert (Hlen' : (0 < length text)%nat) by lia.
    destruct (tui_text_ws_get_end text h Hheight Hlen') as (s_f & Hws' & [fuel Hrun] & Hend).
    rewrite Hws in Hws'. injection Hws' as ->.
    destruct (tui_text_w_get_of_height text h Hheight Hlen') as (Hw1 & Hwrap & _).
    assert (Hwords : no_long_word text (tui_text_w_get text h)).
    { intros a Hword. apply Hwrap.
      apply (tui_text_h_get_long_word text _ a); [lia | exact Hword]. }
    apply (ws_loop_nonneg text _ h Hw1 Hwords fuel _ s_f Hrun) with (j := i);
      [| unfold ws_init; simpl_ws; lia | exact Hend | exact Hv].
    split; [exact (ws_init_inv text h Hheight)|].
    split; [unfold ws_init; simpl_ws; lia|].
    unfold ws_init; simpl_ws. intros j Hj. lia.
Qed.

End ws_get_fits.

Section ws_get_fits_example.

(** "ab cd" at the width 2: the lines "ab" and "cd". *)
Lemma tui_text_ws_get_fits_witness :
  exists ws,
    tui_text_ws_get (replicate 2 None) (str "ab cd") 2 = Some ws
    /\ forall i v, ws !! i = Some (Some v) -> 0 <= v <= 2.
Proof.
  destruct (tui_text_ws_get_fits (str "ab cd") 2 ltac:(lia) ltac:(vm_compute; discriminate))
    as (ws & Hws & _ & Hfits).
  exists ws. split; [exact Hws | exact Hfits].
Defined.

End ws_get_fits_example.

(** ** Rendering of plain strings: examples *)

Section render_plain_examples.

(** "ab cd" in a window two cells wide: the four letters are drawn and
    the space is not. *)
Lemma tui_window_text_render_plain_witness :
  exists window' w' new chars,
    tui_window_text_render window_ab_cd (mk_world TUI_COLOR_NONE []) = Some (window', w')
    /\ calls w' = new
    /\ drawn new = map chtype_of_char chars
    /\ word_chars chars = str "abcd".
Proof.
  destruct (tui_window_text_render_plain window_ab_cd (mk_world TUI_COLOR_NONE []))
    as (window' & w' & new & chars & Hrun & Hcalls & Hdrawn & _ & Hword & _).
  - repeat constructor.
  - vm_compute. discriminate.
  - reflexivity.
  - exists window', w', new, chars. split; [exact Hrun|]. split; [exact Hcalls|].
    split; [exact Hdrawn|]. rewrite Hword. reflexivity.
Defined.

(** The five text windows of the example show "a" each. *)
Lemma tui_render_defined_witness :
  exists tui' calls chars,
    tui_render tui_six_windows = Some (tui', calls)
    /\ drawn calls = map chtype_of_char chars
    /\ word_chars chars = str "aaaaa".
Proof.
  destruct (tui_render_defined tui_six_windows)
    as (tui' & calls & chars & Hrender & Hdrawn & Hword & _);
    try reflexivity.
  - right. eexists. reflexivity.
  - exists tui', calls, chars. split; [exact Hrender|]. split; [exact Hdrawn|].
    rewrite Hword. reflexivity.
Defined.

End render_plain_examples.

(** ** Creation *)

Section creation_facts.

(** X23: [tui_create] returns NULL when [malloc] does, and otherwise a tui of
    the size of the screen with the event function given, that has no
    windows, no menus, no active menu and no active window, and is not
    running.  Its active color is 0 on 0, black on black, and not
    [{NONE, NONE}]: a window that declares no color and is filled first
    is filled with the pair 10.  A render of the new tui makes the two
    calls of [tui_render] itself and changes nothing, and [tui_delete]
    has no ncurses window to delete and releases the tui last. *)
Theorem tui_create_fresh (maxx maxy : Z) (event : handler) :
  tui_create false maxx maxy event = None
  /\ exists tui,
       tui_create true maxx maxy event = Some tui
       /\ tui_w tui = maxx /\ tui_h tui = maxy /\ tui_event_fn tui = event
       /\ tui_windows tui = [] /\ tui_menus tui = []
       /\ tui_menu tui = None /\ tui_window tui = None
       /\ tui_is_running tui = false
       /\ tui_color tui = mk_color 0 0
       /\ (forall head, head_color head = TUI_COLOR_NONE ->
             tui_window_fill head (mk_world (tui_color tui) [])
             = Some (tt, mk_world (mk_color 0 0) [Eattron 10]))
       /\ tui_render tui = Some (tui, [Ecurs_set 0; Erefresh])
       /\ (tui_delete (Some (Some tui))).1 = Some None
       /\ deleted (tui_delete (Some (Some tui))).2 = []
       /\ freed_windows (tui_delete (Some (Some tui))).2 = []
       /\ last (tui_delete (Some (Some tui))).2 = Some (Efree Block_tui).
Proof.
  split; [reflexivity|]. eexists. split; [reflexivity|].
  repeat (split; [reflexivity|]). split; [|repeat split].
  intros head Hcolor. rewrite tui_window_fill_run, Hcolor. reflexivity.
Qed.

(** X24: [_tui_window_parent_create] returns NULL when [malloc] does, and
    otherwise a parent with the fields given, no children and no ncurses
    window.  A render of it is defined and leaves it as it is: the calls
    are [curs_set(0)], the erase of the NULL window, the color of the
    window turned on, the color of the border turned on, [box] on the
    NULL window, the color of the border turned off, and the refresh of
    the NULL window; the active color is [{NONE, NONE}] afterwards.
    [tui_window_free] releases the struct, leaves the handle NULL and
    has no ncurses window to delete.  [_tui_border_create] returns NULL
    when [malloc] does, and otherwise a border of the color and the kind
    given. *)
Theorem tui_window_parent_create_fresh (name : string) (event : handler)
    (rect : tui_rect_t) (color border_color : tui_color_t)
    (is_visable is_dashed has_padding is_vertical : bool)
    (pos : tui_pos_t) (align : tui_align_t) :
  let border := _tui_border_create true border_color is_dashed in
  _tui_window_parent_create false name event rect color is_visable border
                            has_padding pos align is_vertical = None
  /\ _tui_border_create false border_color is_dashed = None
  /\ border = Some (mk_border border_color is_dashed)
  /\ exists window,
       _tui_window_parent_create true name event rect color is_visable border
                                 has_padding pos align is_vertical = Some window
       /\ window = Window_parent (window_head window) [] is_vertical border
                                 has_padding pos align
       /\ head_name (window_head window) = name
       /\ head_rect (window_head window) = rect
       /\ head_color (window_head window) = color
       /\ head_is_visable (window_head window) = is_visable
       /\ head_event (window_head window) = event
       /\ head_window (window_head window) = None
       /\ (forall w : world,
             let filled := tui_color_inherit (active w) color in
             let framed := tui_color_inherit filled border_color in
             tui_window_render window w
             = Some (window,
                     mk_world TUI_COLOR_NONE
                       (calls w
                        ++ [Ecurs_set 0; Ewerase None;
                            Eattron (tui_ncurses_color_get filled);
                            Eattron (tui_ncurses_color_get framed);
                            Ebox None;
                            Eattroff (tui_ncurses_color_get framed);
                            Ewrefresh None])))
       /\ (tui_window_free (Some (Some window))).1 = Some None
       /\ deleted (tui_window_free (Some (Some window))).2 = []
       /\ freed_windows (tui_window_free (Some (Some window))).2 = [name].
Proof.
  cbn zeta. split; [reflexivity|]. split; [reflexivity|]. split; [reflexivity|].
  eexists. split; [reflexivity|].
  repeat (split; [reflexivity|]). split; [|repeat split].
  intros w. cbn [tui_window_render]. unfold mbind, M_bind, bind. cbn [call].
  rewrite tui_window_fill_run. cbn [_tui_border_create negb].
  rewrite tui_border_draw_run.
  cbn. rewrite <- !app_assoc. reflexivity.
Qed.

(** [tui_ncurses_window_create] gives [newwin] the height before the
    width and the row before the column, as [tui_ncurses_window_resize]
    gives them to [wresize] and [mvwin]; it returns what [newwin]
    returns and calls [keypad] on it unless it is NULL.
    [tui_ncurses_window_free] on the result deletes the window once if
    there is one, and leaves the handle NULL, so that a second call does
    nothing. *)
Lemma tui_ncurses_window_life (created : WINDOW) (w h x y : Z) :
  let window := (tui_ncurses_window_create created w h x y).1 in
  let calls := (tui_ncurses_window_create created w h x y).2 in
  window = created
  /\ calls = Cnewwin h w y x
             :: match created with
                | Some _ => [Ckeypad (a_window created)]
                | None => []
                end
  /\ tui_ncurses_window_resize window w h x y = [Cwresize window h w; Cmvwin window y x]
  /\ (tui_ncurses_window_free (Some window)).1 = Some None
  /\ deleted (tui_ncurses_window_free (Some window)).2 = live created
  /\ tui_ncurses_window_free (tui_ncurses_window_free (Some window)).1 = (Some None, []).
Proof.
  destruct created as [win|]; cbn; repeat split.
Qed.

End creation_facts.

(** ** program.c: the loop of [main] *)

Section cached_facts.

Lemma cached_slots_all ok windows :
  Forall (fun slot => forall window, slot = Some window ->
            ok (cached window) = ok window) windows ->
  all_slots ok (cached_slots cached windows) = all_slots ok windows.
Proof.
  induction 1 as [|[window|] rest Hwindow _ IH]; cbn [cached_slots all_slots];
    [reflexivity | | reflexivity].
  rewrite (Hwindow window eq_refl), IH. reflexivity.
Qed.

(** The texts that a render stores change neither whether the window
    can be rendered, nor whether its strings are plain, nor where its
    texts are placed. *)
Lemma cached_renderable window :
  renderable (cached window) = renderable window
  /\ plain (cached window) = plain window
  /\ placed (cached window) = placed window.
Proof.
  induction window as [window | head children is_vertical border has_padding
                                  pos align IH] using tui_win_ind;
    cbn [cached renderable plain placed]; [repeat split; reflexivity|].
  repeat split; apply cached_slots_all; eapply Forall_impl; try exact IH;
    cbn beta; intros slot Hslot window Heq; apply (Hslot window Heq).
Qed.

Lemma cached_slots_ready windows :
  all_slots renderable (cached_slots cached windows) = all_slots renderable windows
  /\ all_slots plain (cached_slots cached windows) = all_slots plain windows
  /\ all_slots placed (cached_slots cached windows) = all_slots placed windows.
Proof.
  repeat split; apply cached_slots_all; apply Forall_forall; intros slot _ window _;
    apply cached_renderable.
Qed.

(** A tui that is ready is ready again after a render. *)
Lemma ready_render (tui tui' : tui_t) (calls : list event) :
  ready tui -> tui_render tui = Some (tui', calls) -> ready tui'.
Proof.
  intros (Hok1 & Hplain1 & Hplaced1 & Hok2 & Hplain2 & Hplaced2 & Hmenu) Hrender.
  destruct (tui_render_post _ _ _ Hrender)
    as (result & Hrun & Hwindows & Hmenus & _ & _ & Hindex & _).
  destruct (tui_render_run_post _ _ _ _ Hrun) as (new & _ & _ & _ & Hw & Hm & _).
  unfold ready, active_windows, active_menu in *.
  rewrite Hwindows, Hw, Hmenus, Hm, Hindex.
  destruct (cached_slots_ready (tui_windows tui)) as (-> & -> & ->).
  split; [exact Hok1|]. split; [exact Hplain1|]. split; [exact Hplaced1|].
  destruct (tui_menu tui) as [index|]; cbn [mbind option_bind] in *;
    [|repeat split; left; reflexivity].
  destruct Hmenu as [[=] | [menu Hmenu]]. rewrite Hmenu in *.
  destruct (tui_menus tui !! index) as [[menu'|]|] eqn:Hslot; cbn in Hmenu;
    try discriminate.
  injection Hmenu as ->.
  rewrite list_lookup_insert_eq by (eapply lookup_lt_Some; exact Hslot).
  cbn [mjoin option_join set_menu_windows menu_windows].
  destruct (cached_slots_ready (menu_windows menu)) as (-> & -> & ->).
  split; [exact Hok2|]. split; [exact Hplain2|]. split; [exact Hplaced2|].
  right. eexists. reflexivity.
Qed.

End cached_facts.

Section main_loop_facts.

(** X25: The loop of [main] on a tui that is running.  Keys other than 0 and
    Ctrl-S never end it: after them either a render has had no defined
    result, whatever is typed next, or the loop waits for the next key
    with the tui still running.  Ctrl-S as the next key then ends the
    loop and leaves the tui not running, and the key 0 ends it and
    leaves the tui running; neither makes a call, and the keys behind
    are not read.  No render is undefined when the tui is ready. *)
Theorem main_loop_ends (before after : list Z) (tui : tui_t) :
  tui_is_running tui = true -> Forall goes_on before ->
  (((main_loop before tui).1 = Loop_undefined
    /\ forall key, (main_loop (before ++ key :: after) tui).1 = Loop_undefined)
   \/ exists tui',
        (main_loop before tui).1 = Loop_waits tui'
        /\ tui_is_running tui' = true
        /\ main_loop (before ++ KEY_CTRLS :: after) tui
           = (Loop_left (set_running tui' false) after, (main_loop before tui).2)
        /\ main_loop (before ++ 0 :: after) tui
           = (Loop_left tui' after, (main_loop before tui).2))
  /\ (ready tui -> (main_loop before tui).1 <> Loop_undefined).
Proof.
  intros Hrunning Hkeys. revert tui Hrunning.
  induction Hkeys as [|key rest [Hkey0 Hkey19] _ IH]; intros tui Hrunning;
    cbn [main_loop app]; rewrite Hrunning; cbn [negb].
  - split; [|intros _; discriminate].
    right. exists tui. cbn [fst snd]. repeat split. exact Hrunning.
  - destruct (Z.eqb_spec key 0) as [|_]; [contradiction|].
    destruct (Z.eqb_spec key KEY_CTRLS) as [|_]; [contradiction|].
    cbn [tui_event].
    destruct (tui_render tui) as [[tui1 calls1]|] eqn:Hrender.
    + assert (Hrunning1 : tui_is_running tui1 = true).
      { destruct (tui_render_post _ _ _ Hrender)
          as (_ & _ & _ & _ & _ & _ & _ & _ & Hsame & _). congruence. }
      destruct (IH tui1 Hrunning1) as [Hcases Hready1].
      split.
      * destruct Hcases as [[Hbad Hbads] | (tui' & Hwaits & Hr & Hleft & Hzero)].
        -- left. split.
           ++ destruct (main_loop rest tui1) as [result calls2]. exact Hbad.
           ++ intros key'. specialize (Hbads key').
              destruct (main_loop (rest ++ key' :: after) tui1) as [result calls2].
              exact Hbads.
        -- right. exists tui'. rewrite Hleft, Hzero.
           destruct (main_loop rest tui1) as [result calls2]. cbn [fst snd] in *.
           repeat split; assumption.
      * intros Hready. specialize (Hready1 (ready_render _ _ _ Hready Hrender)).
        destruct (main_loop rest tui1) as [result calls2]. exact Hready1.
    + split.
      * left. split; [reflexivity | intros key'; reflexivity].
      * intros (Hok1 & Hplain1 & Hplaced1 & Hok2 & Hplain2 & Hplaced2 & Hmenu).
        destruct (tui_render_runs tui Hok1 Hplain1 Hplaced1 Hok2 Hplain2 Hplaced2 Hmenu)
          as (tui1 & calls1 & chars & Hdefined & _).
        congruence.
Qed.

End main_loop_facts.

Section main_loop_example.

Lemma tui_six_windows_ready : ready tui_six_windows.
Proof.
  repeat (split; [reflexivity|]). right. eexists. reflexivity.
Qed.

(** Tab, Ctrl-S, Enter: the loop is left at Ctrl-S and Enter is not
    read. *)
Lemma main_loop_ends_witness :
  exists tui',
    (main_loop ([9] ++ KEY_CTRLS :: [10]) tui_six_windows).1 = Loop_left tui' [10]
    /\ tui_is_running tui' = false.
Proof.
  destruct (main_loop_ends [9] [10] tui_six_windows eq_refl
              ltac:(repeat constructor; discriminate)) as [Hcases Hdefined].
  destruct Hcases as [[Hbad _] | (tui' & _ & _ & Hleft & _)].
  - destruct (Hdefined tui_six_windows_ready Hbad).
  - exists (set_running tui' false). rewrite Hleft. split; reflexivity.
Defined.

End main_loop_example.

(** ** The color pairs in use *)

Section pairs_in_use.

Lemma tui_color_inherit_palette (last_color color : tui_color_t) :
  in_palette last_color -> in_palette color ->
  in_palette (tui_color_inherit last_color color).
Proof.
  intros [Hf1 Hb1] [Hf2 Hb2]. unfold in_palette.
  rewrite tui_color_inherit_fg, tui_color_inherit_bg.
  destruct (fg color =? COLOR_NONE), (bg color =? COLOR_NONE); lia.
Qed.

(** X4: With the active color and the color asked for both of the palette,
    [tui_color_on] and [tui_window_fill] turn on a pair that
    [tui_colors_init] has initialised, and has initialised with the
    channels of the color that they leave active, which is of the palette
    again; [tui_color_off] turns the pair of the same color off. *)
Theorem tui_color_on_pair (color : tui_color_t) (head : tui_window_t) (w : world) :
  in_palette (active w) -> in_palette color -> in_palette (head_color head) ->
  (exists w',
      tui_color_on color w = Some (tt, w')
      /\ in_palette (active w')
      /\ calls w' = calls w ++ [Eattron (tui_ncurses_color_get (active w'))]
      /\ In (Cinit_pair (tui_ncurses_color_get (active w'))
                        (fg (active w')) (bg (active w')))
            tui_colors_init
      /\ tui_color_off color w'
         = Some (tt, mk_world TUI_COLOR_NONE
                       (calls w' ++ [Eattroff (tui_ncurses_color_get (active w'))])))
  /\ (exists w',
        tui_window_fill head w = Some (tt, w')
        /\ in_palette (active w')
        /\ calls w' = calls w ++ [Eattron (tui_ncurses_color_get (active w'))]
        /\ In (Cinit_pair (tui_ncurses_color_get (active w'))
                          (fg (active w')) (bg (active w')))
              tui_colors_init).
Proof.
  intros Hactive Hcolor Hhead. split.
  - exists (mk_world (tui_color_inherit (active w) color)
                     (calls w ++ [Eattron (tui_ncurses_color_get
                                             (tui_color_inherit (active w) color))])).
    split; [reflexivity|]. cbn [active calls].
    assert (Hpal := tui_color_inherit_palette _ _ Hactive Hcolor).
    split; [exact Hpal|]. split; [reflexivity|].
    split; [apply tui_colors_init_In; destruct (tui_color_inherit _ _);
            split; [exact Hpal | reflexivity]|].
    unfold tui_color_off, mbind, M_bind, bind, get_color, call, set_color. cbn.
    rewrite tui_color_inherit_idem. reflexivity.
  - rewrite tui_window_fill_run. eexists. split; [reflexivity|]. cbn [active calls].
    assert (Hpal := tui_color_inherit_palette _ _ Hactive Hhead).
    split; [exact Hpal|]. split; [reflexivity|].
    apply tui_colors_init_In; destruct (tui_color_inherit _ _);
      split; [exact Hpal | reflexivity].
Qed.

(** White on the default background is active; red is asked for. *)
Lemma tui_color_on_pair_witness :
  exists w',
    tui_color_on (mk_color 1 (-1)) (mk_world (mk_color 7 (-1)) []) = Some (tt, w')
    /\ in_palette (active w')
    /\ calls w' = [Eattron (tui_ncurses_color_get (active w'))].
Proof.
  destruct (proj1 (tui_color_on_pair (mk_color 1 (-1))
                     (mk_head "" true TUI_RECT_NONE TUI_RECT_NONE None TUI_COLOR_NONE None)
                     (mk_world (mk_color 7 (-1)) [])
                     ltac:(unfold in_palette, TUI_COLOR_NONE, COLOR_NONE; simpl; lia)
                     ltac:(unfold in_palette, TUI_COLOR_NONE, COLOR_NONE; simpl; lia)
                     ltac:(unfold in_palette, TUI_COLOR_NONE, COLOR_NONE; simpl; lia)))
    as (w' & Hrun & Hpal & Hcalls & _).
  exists w'. split; [exact Hrun|]. split; [exact Hpal | exact Hcalls].
Defined.

End pairs_in_use.

(** ** Text reflow: more lines need no more width *)

Section w_get_antitone.

Variable text : text_t.

(** X10: The width that [tui_text_w_get] returns does not grow with the
    height: what fits into [h1] lines fits into more. *)
Theorem tui_text_w_get_antitone (h1 h2 : Z) :
  h1 <= h2 -> tui_text_w_get text h2 <= tui_text_w_get text h1.
Proof.
  intros Hle.
  destruct (tui_text_w_get_returns text h1) as (_ & [Heq | (Hrange & Hok & Hfit)]).
  - rewrite Heq.
    destruct (tui_text_w_get_returns text h2) as (_ & [-> | (Hrange & _)]); lia.
  - apply tui_text_w_get_minimal; [lia|]. split; [exact Hok | lia].
Qed.

End w_get_antitone.

Section w_get_antitone_example.

Lemma tui_text_w_get_antitone_witness :
  tui_text_w_get (str "ab cd") 2 <= tui_text_w_get (str "ab cd") 1.
Proof. apply (tui_text_w_get_antitone (str "ab cd") 1 2). lia. Defined.

End w_get_antitone_example.

(** ** Text reflow: the table at the end of the walk *)

Section ws_table_end.

Variable text : text_t.
Variable max_w h : Z.
Hypothesis Hw : 1 <= max_w.
Hypothesis Hwords : no_long_word text max_w.

#[local] Abbreviation n := (length text).

(** A run leaves the entries of the lines behind the line it ends in as
    they are. *)
Lemma ws_loop_above fuel : forall s s_f,
  ws_loop fuel text max_w h s = Some (Some s_f) ->
  ws_line_ok text max_w h s ->
  forall j, ws_line_index s_f < Z.of_nat j -> ws_ws s_f !! j = ws_ws s !! j.
Proof.
  induction fuel as [|fuel IH]; intros s s_f Hrun Hok j Hj; cbn [ws_loop] in Hrun.
  - destruct (_ && _); [discriminate|]. injection Hrun as <-. reflexivity.
  - destruct (Nat.ltb_spec (ws_index s) n) as [Hlt|Hge];
      destruct (Z.ltb_spec (ws_line_index s) h) as [Hli|Hli]; cbn [andb] in Hrun;
      try (injection Hrun as <-; reflexivity).
    destruct (ws_body text max_w s) as [s'|] eqn:Hbody; [|discriminate].
    destruct (ws_body_step text max_w h Hw Hwords s s' Hok Hlt Hli Hbody)
      as (Hok' & _ & Habove & _ & _).
    destruct (ws_loop_persist text max_w h Hw Hwords fuel s' s_f Hrun Hok')
      as (_ & Hle & _).
    rewrite (IH s' s_f Hrun Hok' j Hj). apply Habove. lia.
Qed.

(** A run that starts inside the text and ends behind it has stored the
    width of the line it ends in, inside the table. *)
Lemma ws_loop_last fuel : forall s s_f,
  ws_loop fuel text max_w h s = Some (Some s_f) ->
  ws_line_ok text max_w h s -> (ws_index s < n)%nat -> (n <= ws_index s_f)%nat ->
  ws_ws s_f !! Z.to_nat (ws_line_index s_f) = Some (Some (ws_line_w s_f)).
Proof.
  induction fuel as [|fuel IH]; intros s s_f Hrun Hok Hlt Hend; cbn [ws_loop] in Hrun.
  - destruct (_ && _); [discriminate|]. injection Hrun as <-. lia.
  - destruct (Nat.ltb_spec (ws_index s) n) as [_|]; [|lia].
    destruct (Z.ltb_spec (ws_line_index s) h) as [Hli|Hli]; cbn [andb] in Hrun;
      [|injection Hrun as <-; lia].
    destruct (ws_body text max_w s) as [s'|] eqn:Hbody; [|discriminate].
    destruct (ws_body_step text max_w h Hw Hwords s s' Hok Hlt Hli Hbody)
      as (Hok' & _ & _ & Hlast & _).
    destruct (Nat.lt_ge_cases (ws_index s') n) as [Hlt'|Hge'].
    + exact (IH s' s_f Hrun Hok' Hlt' Hend).
    + assert (s_f = s') as ->
        by (apply (ws_to_final text max_w h s' s_f); [exists fuel; exact Hrun | exact Hge']).
      exact (Hlast Hge').
Qed.

End ws_table_end.

Section ws_get_walk.

Variable text : text_t.
Variable h : Z.

(** [h] is a height at which the text wraps. *)
Hypothesis Hheight : 1 + Z.of_nat (count_char NEWLINE text) <= h.

#[local] Abbreviation ws0 := (replicate (Z.to_nat h) None : ws_table).

(** The walk of [tui_text_ws_get] over a fresh table of [h] entries ends
    at the end of the text, in a line of the table when the text is not
    empty; the entries up to this line are written and none is negative,
    the entries behind it are not written. *)
Lemma tui_text_ws_get_walk :
  exists s_f,
    tui_text_ws_get_run ws0 text h = Some (Some s_f)
    /\ tui_text_ws_get ws0 text h = Some (ws_ws s_f)
    /\ ws_index s_f = length text
    /\ 0 <= ws_line_index s_f
    /\ (forall j, ws_line_index s_f < Z.of_nat j -> (j < length (ws_ws s_f))%nat ->
          ws_ws s_f !! j = Some None)
    /\ ((0 < length text)%nat ->
        ws_line_index s_f < h
        /\ forall j, Z.of_nat j <= ws_line_index s_f ->
             exists v, ws_ws s_f !! j = Some (Some v) /\ 0 <= v).
Proof.
  assert (Hinv := ws_init_inv text h Hheight).
  destruct (Nat.eq_dec (length text) 0%nat) as [Hempty|Hne].
  - assert (text = []) as Htext by (destruct text; [reflexivity | discriminate]).
    exists (ws_init ws0).
    unfold tui_text_ws_get, tui_text_ws_get_run, ws_fuel. rewrite Htext. cbn.
    repeat split; try lia.
    intros j _ Hj. rewrite length_replicate in Hj.
    apply lookup_replicate. split; [reflexivity | exact Hj].
  - assert (Hlen : (0 < length text)%nat) by lia.
    destruct (tui_text_ws_get_end text h Hheight Hlen) as (s_f & Hws & Hto & Hend).
    destruct (tui_text_w_get_of_height text h Hheight Hlen) as (Hw & Hwrap & _).
    assert (Hwords : no_long_word text (tui_text_w_get text h)).
    { intros a Hword. apply Hwrap.
      apply (tui_text_h_get_long_word text _ a); [lia | exact Hword]. }
    assert (Hok0 : ws_line_ok text (tui_text_w_get text h) h (ws_init ws0)).
    { split; [exact Hinv|]. split; [unfold ws_init; simpl_ws; lia|].
      unfold ws_init; simpl_ws. intros j Hj. lia. }
    destruct (ws_to_persist text _ h Hw Hwords _ s_f Hto Hok0) as (Hok_f & Hle & _).
    destruct Hto as [fuel Hrun].
    assert (Hlast := ws_loop_last text _ h Hw Hwords fuel _ s_f Hrun Hok0
                       ltac:(unfold ws_init; simpl_ws; lia) Hend).
    assert (Habove := ws_loop_above text _ h Hw Hwords fuel _ s_f Hrun Hok0).
    destruct Hok_f as (Hinv_f & Hlw_f & Hbelow).
    assert (Hok_f : ws_ok text h s_f) by apply Hinv_f.
    destruct Hok_f as (Hli & Hlw & Hindex & _ & Hlength).
    exists s_f. split.
    { unfold tui_text_ws_get in Hws.
      destruct (tui_text_ws_get_run ws0 text h) as [[s1|]|] eqn:Hrun1;
        cbn in Hws; try discriminate.
      unfold tui_text_ws_get_run in Hrun1.
      assert (H1 := ws_loop_more_fuel text _ h _ (fuel + ws_fuel text h) _ _
                      (Nat.le_add_r _ _) Hrun).
      assert (H2 := ws_loop_more_fuel text _ h _ (fuel + ws_fuel text h) _ _
                      (Nat.le_add_l _ _) Hrun1).
      congruence. }
    split; [exact Hws|]. split; [lia|]. split; [simpl_ws; lia|].
    split.
    + intros j Hj Hin. rewrite (Habove j Hj). unfold ws_init; simpl_ws.
      apply lookup_replicate. split; [reflexivity|]. lia.
    + intros _.
      assert (Hin := lookup_lt_Some _ _ _ Hlast).
      split; [lia|]. intros j Hj.
      destruct (Z.eq_dec (Z.of_nat j) (ws_line_index s_f)) as [Heq|Hneq].
      * exists (ws_line_w s_f). rewrite <- Heq, Nat2Z.id in Hlast.
        split; [exact Hlast | lia].
      * apply Hbelow. lia.
Qed.

End ws_get_walk.

Section ws_get_sum_claim.

(** C5, as the code has it: for a display string and a height [h] that
    [tui_text_h_get] returns for its plain text, [tui_text_ws_get] on a
    fresh table of [h] entries stays inside the table and walks to the
    end of the text; the entries it writes sum to the length of the
    plain text less its newlines and less the spaces the walk leaves out
    of every width (a space met while the line is empty, or the space at
    which a full line is broken), which are at most the spaces of the
    text.  The entries of the lines behind the line in which the walk
    ends, which it never starts, stay unwritten; the entries up to this
    line are written when the text is not empty. *)
Theorem tui_text_ws_get_sum (string : text_t) (w : Z) :
  let text := tui_text_extract string in
  let h := tui_text_h_get text w in
  let ws0 := replicate (Z.to_nat h) None in
  h <> -1 ->
  exists ws s_f,
    tui_text_ws_get ws0 text h = Some ws
    /\ length ws = Z.to_nat h
    /\ sum_written ws
       = Z.of_nat (length text) - Z.of_nat (count_char NEWLINE text)
         - tui_text_ws_skipped ws0 text h
    /\ 0 <= tui_text_ws_skipped ws0 text h <= Z.of_nat (count_char SPACE text)
    /\ tui_text_ws_get_run ws0 text h = Some (Some s_f)
    /\ ws = ws_ws s_f
    /\ ws_index s_f = length text
    /\ 0 <= ws_line_index s_f
    /\ (forall j, ws_line_index s_f < Z.of_nat j -> (j < length ws)%nat ->
          ws !! j = Some None)
    /\ ((0 < length text)%nat ->
        ws_line_index s_f < h
        /\ forall j, Z.of_nat j <= ws_line_index s_f ->
             exists v, ws !! j = Some (Some v) /\ 0 <= v).
Proof.
  intros text h ws0 Hwraps.
  assert (Hheight := tui_text_h_get_lower text w Hwraps).
  destruct (tui_text_ws_get_account text h Hheight) as (ws & Hget & Hlen & Hsum & Hskip).
  destruct (tui_text_ws_get_walk text h Hheight)
    as (s_f & Hrun & Hget' & Hindex & Hline & Habove & Hbelow).
  fold h ws0 in Hget, Hget'. rewrite Hget in Hget'. injection Hget' as ->.
  exists (ws_ws s_f), s_f. repeat (split; [assumption|]).
  split; [reflexivity|]. repeat (split; [assumption|]). exact Hbelow.
Qed.

End ws_get_sum_claim.

Section ws_get_sum_examples.

(** "one two three" in two lines: "one two" and "three", 12 of the 13
    characters; the space between "two" and "three" is left out. *)
Lemma tui_text_ws_get_sum_witness :
  tui_text_ws_get [None; None] (str "one two three") 2 = Some [Some 7; Some 5]
  /\ exists ws s_f,
      tui_text_ws_get [None; None] (str "one two three") 2 = Some ws
      /\ sum_written ws = 13 - 0 - 1
      /\ ws = ws_ws s_f
      /\ ws_index s_f = 13%nat.
Proof.
  split; [reflexivity|].
  destruct (tui_text_ws_get_sum (str "one two three") 7)
    as (ws & s_f & Hget & _ & Hsum & _ & _ & Hws & Hindex & _).
  - vm_compute. discriminate.
  - exists ws, s_f. split; [exact Hget|]. split; [exact Hsum|].
    split; [exact Hws | exact Hindex].
Defined.

(** "a  b" at the width 1: the height is 3, the walk needs two lines,
    and the third entry stays unwritten. *)
Lemma tui_text_ws_get_unwritten_entry :
  tui_text_h_get (str "a  b") 1 = 3
  /\ tui_text_ws_get [None; None; None] (str "a  b") 3 = Some [Some 1; Some 1; None].
Proof. split; reflexivity. Qed.

End ws_get_sum_examples.
